(** * afonsystem: the GitLab synchronisation service

    A shallow embedding of [src/services/gitlab-sync.js] (with the store
    handle of [src/config/db.js]) and the properties of the sync engine:
    pagination, natural-key upserts, the per-project fan-out, the failure
    policy and the run summary; then the behaviour of the paginator on any
    remote, the atomicity and the scope of the syncers, the footprint of a
    run, what it leaves in the store, its recovery after a failed run and
    the defaults of the mappings. *)

From stdpp Require Import gmap strings list fin_maps pretty.
From Stdlib Require Import ZArith Lia.

Local Open Scope string_scope.
Local Open Scope list_scope.

(** ** JavaScript values

    The remote API answers JSON; the service reads it with property access,
    [||] defaulting and template literals.  Numbers are the integers the API
    uses for ids, counts and statuses. *)

Module Js.

#[warnings="-register-all"]
Inductive value : Type :=
| VUndef
| VNull
| VBool (b : bool)
| VNum (n : Z)
| VStr (s : string)
| VArr (l : list value)
| VObj (o : list (string * value)).

Fixpoint value_eq_dec (x y : value) {struct x} : {x = y} + {x <> y}.
Proof.
  decide equality.
  - apply bool_dec.
  - apply Z.eq_dec.
  - apply String.string_dec.
  - revert l0. induction l as [|a l IH]; intros [|b l0].
    + now left.
    + now right.
    + now right.
    + destruct (value_eq_dec a b) as [->|Hn].
      * destruct (IH l0) as [->|Hn]; [now left | right; congruence].
      * right; congruence.
  - revert o0. induction o as [|[ka a] o IH]; intros [|[kb b] o0].
    + now left.
    + now right.
    + now right.
    + destruct (String.string_dec ka kb) as [->|Hn]; [|right; congruence].
      destruct (value_eq_dec a b) as [->|Hn]; [|right; congruence].
      destruct (IH o0) as [->|Hn]; [now left | right; congruence].
Defined.

#[global] Instance value_eq : EqDecision value := value_eq_dec.

(** ToBoolean: what [!x] and [x || y] test. *)
Definition truthy (v : value) : bool :=
  match v with
  | VUndef | VNull => false
  | VBool b => b
  | VNum n => negb (Z.eqb n 0)
  | VStr s => negb (String.eqb s "")
  | VArr _ | VObj _ => true
  end.

(** [a || b] *)
Definition or_else (a b : value) : value := if truthy a then a else b.

(** Own properties of an object literal or a parsed JSON object. *)
Fixpoint assoc (k : string) (o : list (string * value)) : option value :=
  match o with
  | [] => None
  | (k', v) :: o' => if String.eqb k k' then Some v else assoc k o'
  end.

(** [o[k] = v] on an object: an existing key keeps its place, a new one is
    appended. *)
Fixpoint obj_set (k : string) (v : value) (o : list (string * value))
  : list (string * value) :=
  match o with
  | [] => [(k, v)]
  | (k', v') :: o' =>
      if String.eqb k k' then (k, v) :: o' else (k', v') :: obj_set k v o'
  end.

(** String(v), as a template literal interpolates it; an array joins its
    elements with commas, [null] and [undefined] elements printing empty. *)
Fixpoint to_string (v : value) : string :=
  match v with
  | VUndef => "undefined"
  | VNull => "null"
  | VBool true => "true"
  | VBool false => "false"
  | VNum n => pretty n
  | VStr s => s
  | VArr l =>
      (fix join (l : list value) : string :=
         match l with
         | [] => ""
         | x :: l' =>
             let sx := match x with
                       | VUndef | VNull => ""
                       | _ => to_string x
                       end in
             match l' with
             | [] => sx
             | _ => sx +:+ "," +:+ join l'
             end
         end) l
  | VObj _ => "[object Object]"
  end.


(** What the Node driver sends to the store for a JavaScript value: an
    [undefined] is serialised as a null (the driver's default,
    [ignoreUndefined: false]), at every depth. *)
Fixpoint bson (v : value) : value :=
  match v with
  | VUndef => VNull
  | VArr l => VArr (map bson l)
  | VObj o =>
      VObj ((fix fields (o : list (string * value)) :=
               match o with
               | [] => []
               | (k, x) :: o' => (k, bson x) :: fields o'
               end) o)
  | _ => v
  end.

(** *** Exceptions and fallible pure code *)

Inductive exn : Type :=
| GitLabApiError (status : Z) (statusText : string) (url : string)
| DatabaseNotConnected
| TypeError (msg : string).

(** [err.message] *)
Definition message (e : exn) : string :=
  match e with
  | GitLabApiError status statusText url =>
      "GitLab API error: " +:+ pretty status +:+ " " +:+ statusText
        +:+ " for " +:+ url
  | DatabaseNotConnected => "Database not connected"
  | TypeError msg => msg
  end.

Inductive result (A : Type) : Type :=
| Ok (a : A)
| Err (e : exn).
Arguments Ok {A} a.
Arguments Err {A} e.

#[global] Instance result_ret : MRet result := fun A a => Ok a.
#[global] Instance result_bind : MBind result := fun A B f r =>
  match r with
  | Ok a => f a
  | Err e => Err e
  end.

(** [xs.map(f)] with a callback that may throw: the first throw ends the
    map. *)
Fixpoint array_map {A B} (f : A -> result B) (xs : list A) : result (list B) :=
  match xs with
  | [] => Ok []
  | x :: xs' =>
      match f x with
      | Ok y =>
          match array_map f xs' with
          | Ok ys => Ok (y :: ys)
          | Err e => Err e
          end
      | Err e => Err e
      end
  end.

(** [v.k]: reading a property of [null] or [undefined] throws; a missing
    property reads as [undefined].  None of the names the service reads is
    a property of a number, string, boolean or array. *)
Definition get_prop (v : value) (k : string) : result value :=
  match v with
  | VUndef | VNull =>
      Err (TypeError ("Cannot read properties of " +:+ to_string v
                        +:+ " (reading '" +:+ k +:+ "')"))
  | VObj o => Ok (default VUndef (assoc k o))
  | _ => Ok VUndef
  end.

End Js.
Export Js.

(** ** The document store

    The store is MongoDB, reached through its Node driver; its code is not
    part of the repository.  Documents are modelled by their user fields
    (the store-assigned [_id] is left out). *)

Module Mongo.

Abbreviation document := (gmap string value).
Abbreviation collection := (list (gmap string value)).
Abbreviation store := (gmap string (list (gmap string value))).

(** One bulk operation [{ updateOne: { filter, update: { $set }, upsert:
    true } }]. *)
Record update_op : Type := UpdateOne {
  op_filter : document;
  op_set : document;
}.

(** Modelled from the spec: the value a stored record has for a field of
    a filter; as MongoDB matches it, an absent field reads as null. *)
Definition field (d : document) (k : string) : value := default VNull (d !! k).

(** Modelled from the spec: "a record matching the filter" (section 4.3),
    an equality match on every field of the filter. *)
Definition matches (q d : document) : bool :=
  bool_decide (map_Forall (fun k v => field d k = v) q).

(** Modelled from the spec: the UpsertWriter of section 4.3 as MongoDB's
    [updateOne] with [$set] and [upsert: true] provides it.  The first
    record matching the filter has the fields of the set overwritten and
    its other fields left untouched; if no record matches, a new one is
    inserted, made of the filter's fields with the set applied. *)
Fixpoint upsert (q s : document) (c : collection) : collection :=
  match c with
  | [] => [s ∪ q]
  | d :: c' => if matches q d then (s ∪ d) :: c' else d :: upsert q s c'
  end.

(** Modelled from the spec: one upsert as the driver sends it. *)
Definition updateOne (op : update_op) (c : collection) : collection :=
  upsert (bson <$> op_filter op) (bson <$> op_set op) c.

(** Modelled from the spec: an ordered [bulkWrite], "batch multiple upserts
    of the same entity kind into one round trip" (section 4.3): the
    operations are applied one after the other. *)
Definition bulkWrite (ops : list update_op) (c : collection) : collection :=
  foldl (fun c op => updateOne op c) c ops.

(** Modelled from the spec: [countDocuments({})], the "count of all stored
    documents" of a partition. *)
Definition countDocuments (c : collection) : nat := length c.

(** [db.collection(name)]: a partition that was never written is empty. *)
Definition coll (s : store) (name : string) : collection :=
  default [] (s !! name).

Definition on_collection (name : string) (f : collection -> collection)
    (s : store) : store :=
  <[name := f (coll s name)]> s.

End Mongo.
Export Mongo.

(** ** The world the service runs in

    What a run can observe and change: the store behind the process-wide
    handle of [config/db.js] (absent until [connectDB] has run), the
    sequence of its interactions with the outside (page fetches, store
    writes, console lines) and the number of clock readings taken so far. *)

(** What a page request comes back with on a remote that keeps to the
    GitLab API: a non-success response, or a success whose body is a JSON
    array.  A rejected [fetch], a body that is not JSON and a body that is
    not an array are in [Wire] below. *)
Inductive response : Type :=
| HttpError (status : Z) (statusText : string)   (* [!res.ok] *)
| HttpOk (data : list value).                    (* [res.json()], an array *)

(** One constructor per [console.log] / [console.error] of the service,
    carrying the values its template interpolates. *)
Inductive log_line : Type :=
| LogStart (date : Z)
| LogFound (projects : nat)
| LogProject (name id : string)
| LogProjectSaved
| LogMembers (n : nat)
| LogCommits (n : nat)
| LogMergeRequests (n : nat)
| LogIssues (n : nat)
| LogSummaryHeader
| LogCollection (col : string) (count : nat)
| LogCompleted (projectCount : nat) (elapsed_ms : Z)
| LogFailed (msg : string).

Inductive event : Type :=
| EFetch (url : string) (params : list (string * value))
| EUpdateOne (col : string) (op : update_op)
| EBulkWrite (col : string) (ops : list update_op)
| ELog (line : log_line).

Record world : Type := World {
  db : option store;
  trace : list event;
  clock_reads : nat;
}.

Definition emit (e : event) (w : world) : world :=
  World (db w) (trace w ++ [e]) (clock_reads w).

(** *** The monad of the service's [async] functions

    A computation either returns, throws, or is still looping when the
    fuel of the unbounded [while (true)] of the paginator runs out. *)

Inductive outcome (A : Type) : Type :=
| Ret (a : A)
| Throw (e : exn)
| Diverge.
Arguments Ret {A} a.
Arguments Throw {A} e.
Arguments Diverge {A}.

Definition M (A : Type) : Type := world -> outcome A * world.

#[global] Instance M_ret : MRet M := fun A a w => (Ret a, w).
#[global] Instance M_bind : MBind M := fun A B f m w =>
  match m w with
  | (Ret a, w') => f a w'
  | (Throw e, w') => (Throw e, w')
  | (Diverge, w') => (Diverge, w')
  end.

Definition throw {A} (e : exn) : M A := fun w => (Throw e, w).
Definition diverge {A} : M A := fun w => (Diverge, w).

(** A pure computation run inside an [async] function. *)
Definition lift {A} (r : result A) : M A :=
  match r with
  | Ok a => mret a
  | Err e => throw e
  end.

(** [try { body } catch (err) { handler(err) }] *)
Definition try_catch {A} (body : M A) (handler : exn -> M A) : M A := fun w =>
  match body w with
  | (Throw e, w') => handler e w'
  | r => r
  end.

(** [for (const x of xs) { body(x) }] *)
Fixpoint for_of {A} (xs : list A) (body : A -> M unit) : M unit :=
  match xs with
  | [] => mret tt
  | x :: xs' => body x;; for_of xs' body
  end.

Definition console_log (l : log_line) : M unit := fun w => (Ret tt, emit (ELog l) w).

(** [getDB()] of [config/db.js]: throws until the store is connected.  The
    handle it returns is the one process-wide store of the world. *)
Definition getDB : M unit := fun w =>
  match db w with
  | Some _ => (Ret tt, w)
  | None => (Throw DatabaseNotConnected, w)
  end.

Definition write_event (e : event) (s : store) : store :=
  match e with
  | EUpdateOne col op => on_collection col (updateOne op) s
  | EBulkWrite col ops => on_collection col (bulkWrite ops) s
  | _ => s
  end.

(** A store call through the handle; without a store there is no handle
    to call it on. *)
Definition store_write (e : event) : M unit := fun w =>
  match db w with
  | Some s => (Ret tt, World (Some (write_event e s)) (trace w ++ [e]) (clock_reads w))
  | None => (Throw DatabaseNotConnected, w)
  end.

(** [db.collection(col).updateOne(filter, { $set }, { upsert: true })] *)
Definition db_updateOne (col : string) (op : update_op) : M unit :=
  store_write (EUpdateOne col op).

(** [db.collection(col).bulkWrite(ops)] *)
Definition db_bulkWrite (col : string) (ops : list update_op) : M unit :=
  store_write (EBulkWrite col ops).

(** [db.collection(col).countDocuments({})] *)
Definition db_countDocuments (col : string) : M nat := fun w =>
  match db w with
  | Some s => (Ret (countDocuments (coll s col)), w)
  | None => (Throw DatabaseNotConnected, w)
  end.

(** ** The service: [services/gitlab-sync.js] *)

Section Service.

(** [process.env.GITLAB_URL] *)
Variable GITLAB_URL : string.
(** The remote API: what a GET of a listing URL with the given query
    parameters answers.  A fixed function is a fixed remote snapshot. *)
Variable api : string -> list (string * value) -> response.
(** The successive readings of the wall clock, in milliseconds. *)
Variable now : nat -> Z.

(** [await fetch(`${url}?${qs}`, { headers })], the query string kept as
    the parameter object it encodes; the constant [PRIVATE-TOKEN] header is
    left out. *)
Definition fetch (url : string) (params : list (string * value)) : M response :=
  fun w => (Ret (api url params), emit (EFetch url params) w).

(** [Date.now()] and [new Date()] *)
Definition date_now : M Z := fun w =>
  (Ret (now (clock_reads w)), World (db w) (trace w) (S (clock_reads w))).

(** The [while (true)] of [paginatedGet]; [page] is the current value of
    [params.page], [results] the records pushed so far. *)
Fixpoint paginate (fuel : nat) (url : string) (params : list (string * value))
    (page : Z) (results : list value) : M (list value) :=
  match fuel with
  | O => diverge
  | S fuel' =>
      res ← fetch url (obj_set "page" (VNum page) params);
      match res with
      | HttpError status statusText =>
          throw (GitLabApiError status statusText url)
      | HttpOk data =>
          match data with
          | [] => mret results
          | _ :: _ => paginate fuel' url params (page + 1)%Z (results ++ data)
          end
      end
  end.

Definition paginatedGet (fuel : nat) (url : string)
    (params : list (string * value)) : M (list value) :=
  paginate fuel url
    (obj_set "page" (VNum 1) (obj_set "per_page" (VNum 100) params)) 1 [].

(** *** The mapping of remote records to operations *)

(** The [doc] of [syncProjects]. *)
Definition project_doc (project : value) : result document :=
  id ← get_prop project "id";
  name ← get_prop project "name";
  path_with_namespace ← get_prop project "path_with_namespace";
  description ← get_prop project "description";
  created_at ← get_prop project "created_at";
  default_branch ← get_prop project "default_branch";
  web_url ← get_prop project "web_url";
  mret ({[ "project_id" := id;
           "name" := name;
           "path_with_namespace" := path_with_namespace;
           "description" := or_else description VNull;
           "created_at" := created_at;
           "default_branch" := or_else default_branch VNull;
           "web_url" := web_url ]} : document).

(** [{ project_id: doc.project_id }], [{ $set: doc }] *)
Definition project_op (doc : document) : update_op :=
  UpdateOne {[ "project_id" := default VUndef (doc !! "project_id") ]} doc.

Definition member_op (projectId m : value) : result update_op :=
  id ← get_prop m "id";
  username ← get_prop m "username";
  name ← get_prop m "name";
  access_level ← get_prop m "access_level";
  mret (UpdateOne
          {[ "project_id" := projectId; "user_id" := id ]}
          {[ "project_id" := projectId;
             "user_id" := id;
             "username" := username;
             "name" := name;
             "access_level" := access_level ]}).

Definition commit_op (projectId c : value) : result update_op :=
  c_stats ← get_prop c "stats";
  let stats := or_else c_stats (VObj []) in
  id ← get_prop c "id";
  short_id ← get_prop c "short_id";
  author_name ← get_prop c "author_name";
  author_email ← get_prop c "author_email";
  committed_date ← get_prop c "committed_date";
  message ← get_prop c "message";
  additions ← get_prop stats "additions";
  deletions ← get_prop stats "deletions";
  total ← get_prop stats "total";
  mret (UpdateOne
          {[ "project_id" := projectId; "sha" := id ]}
          {[ "project_id" := projectId;
             "sha" := id;
             "short_id" := short_id;
             "author_name" := author_name;
             "author_email" := author_email;
             "committed_date" := committed_date;
             "message" := message;
             "additions" := or_else additions (VNum 0);
             "deletions" := or_else deletions (VNum 0);
             "total" := or_else total (VNum 0) ]}).

Definition merge_request_op (projectId mr : value) : result update_op :=
  mr_author ← get_prop mr "author";
  let author := or_else mr_author (VObj []) in
  iid ← get_prop mr "iid";
  title ← get_prop mr "title";
  author_username ← get_prop author "username";
  author_name ← get_prop author "name";
  state ← get_prop mr "state";
  created_at ← get_prop mr "created_at";
  merged_at ← get_prop mr "merged_at";
  closed_at ← get_prop mr "closed_at";
  source_branch ← get_prop mr "source_branch";
  target_branch ← get_prop mr "target_branch";
  merge_commit_sha ← get_prop mr "merge_commit_sha";
  mret (UpdateOne
          {[ "project_id" := projectId; "iid" := iid ]}
          {[ "project_id" := projectId;
             "iid" := iid;
             "title" := title;
             "author_username" := or_else author_username VNull;
             "author_name" := or_else author_name VNull;
             "state" := state;
             "created_at" := created_at;
             "merged_at" := or_else merged_at VNull;
             "closed_at" := or_else closed_at VNull;
             "source_branch" := source_branch;
             "target_branch" := target_branch;
             "merge_commit_sha" := or_else merge_commit_sha VNull ]}).

(** [(issue.assignees || []).map(a => ({ username: a.username, name:
    a.name }))]; a truthy value that is not an array has no [map]. *)
Definition issue_assignees (issue : value) : result value :=
  issue_assignees ← get_prop issue "assignees";
  match or_else issue_assignees (VArr []) with
  | VArr l =>
      l' ← array_map (fun a =>
              username ← get_prop a "username";
              name ← get_prop a "name";
              mret (VObj [("username", username); ("name", name)])) l;
      mret (VArr l')
  | _ => Err (TypeError "(issue.assignees || []).map is not a function")
  end.

Definition issue_op (projectId issue : value) : result update_op :=
  issue_author ← get_prop issue "author";
  let author := or_else issue_author (VObj []) in
  assignees ← issue_assignees issue;
  iid ← get_prop issue "iid";
  title ← get_prop issue "title";
  author_username ← get_prop author "username";
  author_name ← get_prop author "name";
  state ← get_prop issue "state";
  labels ← get_prop issue "labels";
  created_at ← get_prop issue "created_at";
  closed_at ← get_prop issue "closed_at";
  mret (UpdateOne
          {[ "project_id" := projectId; "iid" := iid ]}
          {[ "project_id" := projectId;
             "iid" := iid;
             "title" := title;
             "author_username" := or_else author_username VNull;
             "author_name" := or_else author_name VNull;
             "assignees" := assignees;
             "state" := state;
             "labels" := or_else labels (VArr []);
             "created_at" := created_at;
             "closed_at" := or_else closed_at VNull ]}).

(** *** The entity syncers *)

(** The common shape of the four per-project syncers: take the handle,
    drain the listing, return 0 on an empty one, otherwise map the records
    and send one bulk write. *)
Definition sync_listing (fuel : nat) (url : string)
    (params : list (string * value)) (col : string)
    (to_op : value -> result update_op) : M nat :=
  getDB;;
  records ← paginatedGet fuel url params;
  match records with
  | [] => mret 0%nat
  | _ :: _ =>
      ops ← lift (array_map to_op records);
      db_bulkWrite col ops;;
      mret (length ops)
  end.

(** [`${GITLAB_URL}/api/v4/projects/${projectId}<path>`] *)
Definition project_url (projectId : value) (path : string) : string :=
  GITLAB_URL +:+ "/api/v4/projects/" +:+ to_string projectId +:+ path.

Definition syncMembers (fuel : nat) (projectId : value) : M nat :=
  sync_listing fuel (project_url projectId "/members/all")
    [] "members" (member_op projectId).

Definition syncCommits (fuel : nat) (projectId : value) : M nat :=
  sync_listing fuel (project_url projectId "/repository/commits")
    [("all", VBool true); ("with_stats", VBool true)]
    "commits" (commit_op projectId).

Definition syncMergeRequests (fuel : nat) (projectId : value) : M nat :=
  sync_listing fuel (project_url projectId "/merge_requests")
    [("state", VStr "all")] "merge_requests" (merge_request_op projectId).

Definition syncIssues (fuel : nat) (projectId : value) : M nat :=
  sync_listing fuel (project_url projectId "/issues")
    [("state", VStr "all")] "issues" (issue_op projectId).

(** *** The orchestrator *)

(** The body of the [for (const project of projects)] loop. *)
Definition syncProject (fuel : nat) (project : value) : M unit :=
  pid ← lift (get_prop project "id");
  name ← lift (get_prop project "path_with_namespace");
  console_log (LogProject (to_string name) (to_string pid));;
  doc ← lift (project_doc project);
  db_updateOne "projects" (project_op doc);;
  console_log LogProjectSaved;;
  n ← syncMembers fuel pid;
  console_log (LogMembers n);;
  n ← syncCommits fuel pid;
  console_log (LogCommits n);;
  n ← syncMergeRequests fuel pid;
  console_log (LogMergeRequests n);;
  n ← syncIssues fuel pid;
  console_log (LogIssues n).

(** The part of the loop body that follows the saving of the project
    record: the four entity syncers, in the order of the source. *)
Definition syncEntities (fuel : nat) (pid : value) : M unit :=
  n ← syncMembers fuel pid;
  console_log (LogMembers n);;
  n ← syncCommits fuel pid;
  console_log (LogCommits n);;
  n ← syncMergeRequests fuel pid;
  console_log (LogMergeRequests n);;
  n ← syncIssues fuel pid;
  console_log (LogIssues n).

Definition syncProjects (fuel : nat) : M nat :=
  getDB;;
  projects ← paginatedGet fuel (GITLAB_URL +:+ "/api/v4/projects")
               [("membership", VBool true)];
  console_log (LogFound (length projects));;
  for_of projects (syncProject fuel);;
  mret (length projects).

Definition summary_collections : list string :=
  ["projects"; "members"; "commits"; "merge_requests"; "issues"].

Definition runSync (fuel : nat) : M unit :=
  startTime ← date_now;
  date ← date_now;
  console_log (LogStart date);;
  try_catch
    (projectCount ← syncProjects fuel;
     getDB;;
     console_log LogSummaryHeader;;
     for_of summary_collections (fun col =>
       count ← db_countDocuments col;
       console_log (LogCollection col count));;
     endTime ← date_now;
     console_log (LogCompleted projectCount (endTime - startTime)%Z))
    (fun err => console_log (LogFailed (message err))).

End Service.

(** ** The paginator on the wire

    [paginatedGet] once more, with everything its two awaits can come
    back with: [fetch] may reject (a network failure, a URL that does not
    parse), the response may be a non-success one, [res.json()] may
    reject (a body that is not JSON), and the parsed body may be any JSON
    value.  The paginator of the service above is this one on a remote
    that answers a request with a non-success response or with an
    array. *)

Module Wire.

(** What one page request comes back with. *)
Inductive answer : Type :=
| FetchRejected (name message : string)      (* [await fetch(...)] throws *)
| NotOk (status : Z) (statusText : string)   (* [!res.ok] *)
| JsonRejected (name message : string)       (* [await res.json()] throws *)
| Json (data : value).                       (* the parsed body *)

(** What the paginator throws: an error raised by the code of the service
    (its [new Error(...)], or the [TypeError] of one of its own
    expressions), or the error a rejected promise of the host carried. *)
Inductive thrown : Type :=
| Service (e : exn)
| Host (name message : string).

Inductive ending : Type :=
| Returned (results : list value)
| Raised (t : thrown)
| Looping.

Section Paginator.

Variable remote : string -> list (string * value) -> answer.
(** The elements a string spreads into ([...data]): its code points, one
    string each. *)
Variable code_points : string -> list string.

Definition fetch (url : string) (params : list (string * value)) (w : world)
  : answer * world :=
  (remote url params, emit (EFetch url params) w).

(** The [while (true)] loop.  [!data.length] reads the length of an array
    or a string, the own [length] of an object, nothing on a number or a
    boolean, and throws on [null]; [results.push(...data)] needs an
    iterable. *)
Fixpoint paginate (fuel : nat) (url : string) (params : list (string * value))
    (page : Z) (results : list value) (w : world) : ending * world :=
  match fuel with
  | O => (Looping, w)
  | S fuel' =>
      let (res, w1) := fetch url (obj_set "page" (VNum page) params) w in
      match res with
      | FetchRejected name message => (Raised (Host name message), w1)
      | NotOk status statusText =>
          (Raised (Service (GitLabApiError status statusText url)), w1)
      | JsonRejected name message => (Raised (Host name message), w1)
      | Json data =>
          match data with
          | VUndef | VNull =>
              (Raised (Service (TypeError
                 ("Cannot read properties of " +:+ to_string data
                    +:+ " (reading 'length')"))), w1)
          | VBool _ | VNum _ => (Returned results, w1)
          | VStr s =>
              if String.eqb s "" then (Returned results, w1)
              else paginate fuel' url params (page + 1)%Z
                     (results ++ map VStr (code_points s)) w1
          | VArr [] => (Returned results, w1)
          | VArr (x :: l) =>
              paginate fuel' url params (page + 1)%Z (results ++ x :: l) w1
          | VObj o =>
              if truthy (default VUndef (assoc "length" o))
              then (Raised (Service (TypeError
                      "Spread syntax requires ...iterable[Symbol.iterator] to be a function")),
                    w1)
              else (Returned results, w1)
          end
      end
  end.

Definition paginatedGet (fuel : nat) (url : string)
    (params : list (string * value)) (w : world) : ending * world :=
  paginate fuel url
    (obj_set "page" (VNum 1) (obj_set "per_page" (VNum 100) params)) 1 [] w.

End Paginator.

End Wire.

(** ** Fixtures: remote snapshots given by a table of pages *)

Module Demo.

Definition base : string := "https://gitlab.test".

Fixpoint pages_of (url : string) (t : list (string * list response))
  : option (list response) :=
  match t with
  | [] => None
  | (u, ps) :: t' => if String.eqb url u then Some ps else pages_of url t'
  end.

Definition page_of (params : list (string * value)) : nat :=
  match assoc "page" params with
  | Some (VNum n) => Z.to_nat n
  | _ => 0
  end.

(** The listing at [url] answers its pages in order and an empty page after
    the last one; an unknown URL answers 404. *)
Definition table_api (t : list (string * list response))
    (url : string) (params : list (string * value)) : response :=
  match pages_of url t with
  | Some ps => nth (page_of params - 1) ps (HttpOk [])
  | None => HttpError 404 "Not Found"
  end.

Definition clock (n : nat) : Z := (1000 * Z.of_nat n)%Z.

Definition connected : world := World (Some ∅) [] 0.

Definition project_A : value :=
  VObj [("id", VNum 1); ("name", VStr "alpha");
        ("path_with_namespace", VStr "grp/alpha");
        ("description", VStr ""); ("created_at", VStr "2024-01-01");
        ("web_url", VStr "https://gitlab.test/grp/alpha")].

Definition project_B : value :=
  VObj [("id", VNum 2); ("name", VStr "beta");
        ("path_with_namespace", VStr "grp/beta");
        ("description", VStr "second"); ("created_at", VStr "2024-02-01");
        ("default_branch", VStr "main");
        ("web_url", VStr "https://gitlab.test/grp/beta")].

Definition member_ana : value :=
  VObj [("id", VNum 10); ("username", VStr "ana"); ("name", VStr "Ana");
        ("access_level", VNum 30)].

Definition commit_c1 : value :=
  VObj [("id", VStr "abc123"); ("short_id", VStr "abc1");
        ("author_name", VStr "Ana"); ("author_email", VStr "ana@x.test");
        ("committed_date", VStr "2024-03-01"); ("message", VStr "init");
        ("stats", VObj [("additions", VNum 5); ("deletions", VNum 0);
                        ("total", VNum 5)])].

Definition commit_nostats : value :=
  VObj [("id", VStr "def456"); ("short_id", VStr "def4");
        ("author_name", VStr "Ana"); ("author_email", VStr "ana@x.test");
        ("committed_date", VStr "2024-03-02"); ("message", VStr "fix")].

Definition mr_7 (state : string) : value :=
  VObj [("iid", VNum 7); ("title", VStr "Add feature");
        ("author", VObj [("username", VStr "ana"); ("name", VStr "Ana")]);
        ("state", VStr state); ("created_at", VStr "2024-03-03");
        ("source_branch", VStr "feat"); ("target_branch", VStr "main")].

Definition issue_3 : value :=
  VObj [("iid", VNum 3); ("title", VStr "Bug");
        ("assignees", VArr [VObj [("username", VStr "ana"); ("name", VStr "Ana")]]);
        ("state", VStr "opened"); ("created_at", VStr "2024-03-04")].

(** Two projects; the first has one record of every kind, the second has
    none. *)
Definition snapshot (mr_state : string) : list (string * list response) :=
  [ (base +:+ "/api/v4/projects", [HttpOk [project_A; project_B]]);
    (base +:+ "/api/v4/projects/1/members/all", [HttpOk [member_ana]]);
    (base +:+ "/api/v4/projects/1/repository/commits",
       [HttpOk [commit_c1; commit_nostats]]);
    (base +:+ "/api/v4/projects/1/merge_requests", [HttpOk [mr_7 mr_state]]);
    (base +:+ "/api/v4/projects/1/issues", [HttpOk [issue_3]]);
    (base +:+ "/api/v4/projects/2/members/all", [HttpOk [member_ana]]);
    (base +:+ "/api/v4/projects/2/repository/commits", []);
    (base +:+ "/api/v4/projects/2/merge_requests", []);
    (base +:+ "/api/v4/projects/2/issues", []) ].

(** The same, with the commit listing of the second project failing. *)
Definition snapshot_500 : list (string * list response) :=
  [ (base +:+ "/api/v4/projects", [HttpOk [project_A; project_B]]);
    (base +:+ "/api/v4/projects/1/members/all", [HttpOk [member_ana]]);
    (base +:+ "/api/v4/projects/1/repository/commits", [HttpOk [commit_c1]]);
    (base +:+ "/api/v4/projects/1/merge_requests", [HttpOk [mr_7 "opened"]]);
    (base +:+ "/api/v4/projects/1/issues", [HttpOk [issue_3]]);
    (base +:+ "/api/v4/projects/2/members/all", [HttpOk [member_ana]]);
    (base +:+ "/api/v4/projects/2/repository/commits",
       [HttpError 500 "Internal Server Error"]);
    (base +:+ "/api/v4/projects/2/merge_requests", [HttpOk [mr_7 "opened"]]);
    (base +:+ "/api/v4/projects/2/issues", [HttpOk [issue_3]]) ].

(** The same, with the issue listing of the second project failing
    instead. *)
Definition snapshot_issues_500 : list (string * list response) :=
  [ (base +:+ "/api/v4/projects", [HttpOk [project_A; project_B]]);
    (base +:+ "/api/v4/projects/1/members/all", [HttpOk [member_ana]]);
    (base +:+ "/api/v4/projects/1/repository/commits", [HttpOk [commit_c1]]);
    (base +:+ "/api/v4/projects/1/merge_requests", [HttpOk [mr_7 "opened"]]);
    (base +:+ "/api/v4/projects/1/issues", [HttpOk [issue_3]]);
    (base +:+ "/api/v4/projects/2/members/all", [HttpOk [member_ana]]);
    (base +:+ "/api/v4/projects/2/repository/commits", [HttpOk [commit_c1]]);
    (base +:+ "/api/v4/projects/2/merge_requests", [HttpOk [mr_7 "opened"]]);
    (base +:+ "/api/v4/projects/2/issues",
       [HttpError 500 "Internal Server Error"]) ].

(** One project on the first page of the project listing; the second
    page answers 502. *)
Definition snapshot_502 : list (string * list response) :=
  [ (base +:+ "/api/v4/projects",
       [HttpOk [project_A]; HttpError 502 "Bad Gateway"]) ].

(** A remote that answers the first page of a listing and then, with a
    success status, an error object instead of the second page. *)
Definition error_body (url : string) (params : list (string * value))
  : Wire.answer :=
  match assoc "page" params with
  | Some (VNum 1) => Wire.Json (VArr [project_A])
  | _ => Wire.Json (VObj [("message", VStr "429 Too Many Requests")])
  end.

End Demo.

(** ** Observations used by the statements *)

(** The query of page [k] of a listing: the caller's parameters with
    [per_page] and [page] set by [paginatedGet]. *)
Definition page_request (params : list (string * value)) (k : Z)
  : list (string * value) :=
  obj_set "page" (VNum k) (obj_set "per_page" (VNum 100) params).

(** The fetches of pages [first], [first + 1], ... ([n] of them). *)
Definition page_fetches (url : string) (params : list (string * value))
    (first : Z) (n : nat) : list event :=
  map (fun i => EFetch url (page_request params (first + Z.of_nat i))) (seq 0 n).

Definition is_fetch (e : event) : bool :=
  match e with EFetch _ _ => true | _ => false end.

Definition is_write (e : event) : bool :=
  match e with EUpdateOne _ _ | EBulkWrite _ _ => true | _ => false end.

(** A syncer call that reports 0 and leaves the store and the sequence of
    write calls as they were. *)
Definition short_circuits (m : M nat) (w : world) : Prop :=
  (m w).1 = Ret 0%nat /\
  db (m w).2 = db w /\
  filter is_write (trace (m w).2) = filter is_write (trace w).

(** *** Natural keys *)

(** The natural key of each partition (section 3 of the specification):
    the fields of the filter its syncer sends. *)
Definition key_fields (col : string) : list string :=
  if String.eqb col "projects" then ["project_id"]
  else if String.eqb col "members" then ["project_id"; "user_id"]
  else if String.eqb col "commits" then ["project_id"; "sha"]
  else if String.eqb col "merge_requests" then ["project_id"; "iid"]
  else if String.eqb col "issues" then ["project_id"; "iid"]
  else [].

(** The key of a stored record. *)
Definition key_of (ks : list string) (d : document) : list value :=
  map (field d) ks.

(** At most one stored record per natural key. *)
Definition unique_keys (ks : list string) (c : collection) : Prop :=
  NoDup (map (key_of ks) c).

Definition store_unique_keys (s : store) : Prop :=
  forall col, unique_keys (key_fields col) (coll s col).

(** An upsert keyed by [ks]: its filter gives exactly the key fields, and
    its set repeats them with the same values. *)
Definition keyed_op (ks : list string) (op : update_op) : Prop :=
  dom (op_filter op) = list_to_set ks /\ op_filter op ⊆ op_set op.

Definition keyed_event (e : event) : Prop :=
  match e with
  | EUpdateOne col op => keyed_op (key_fields col) op
  | EBulkWrite col ops => Forall (keyed_op (key_fields col)) ops
  | _ => True
  end.

(** The store after a sequence of interactions: what its write calls do,
    in order. *)
Definition replay (evs : list event) (s : store) : store :=
  foldl (fun s e => write_event e s) s evs.

(** What the successive operations of a bulk write do to one record. *)
Definition update_doc (ops : list update_op) (d : document) : document :=
  foldl (fun d op =>
           if matches (bson <$> op_filter op) d
           then (bson <$> op_set op) ∪ d else d) d ops.

(** The operations of a bulk write that do not address record [d]. *)
Definition others (d : document) (ops : list update_op) : list update_op :=
  filter (fun op => negb (matches (bson <$> op_filter op) d)) ops.

(** The same, with the operations chosen by the record [d0] they
    address. *)
Definition overwrites (d0 : document) (ops : list update_op) (u : document)
  : document :=
  foldl (fun u op =>
           if matches (bson <$> op_filter op) d0
           then (bson <$> op_set op) ∪ u else u) u ops.

(** The operations a sequence of interactions sends to partition [col]. *)
Definition ops_for (col : string) (evs : list event) : list update_op :=
  flat_map (fun e =>
              match e with
              | EUpdateOne c op => if String.eqb c col then [op] else []
              | EBulkWrite c ops => if String.eqb c col then ops else []
              | _ => []
              end) evs.

Definition written (col : string) (evs : list event) : bool :=
  existsb (fun e =>
             match e with
             | EUpdateOne c _ | EBulkWrite c _ => String.eqb c col
             | _ => false
             end) evs.

(** *** Fetches *)

Definition fetch_ok (api : string -> list (string * value) -> response)
    (e : event) : Prop :=
  match e with
  | EFetch url params => exists data, api url params = HttpOk data
  | _ => True
  end.

(** The interactions of a computation and its outcome: either every fetch
    was answered with a page, or the last interaction is a fetch answered
    with an error and the outcome is the fetch error for it. *)
Inductive run_shape (api : string -> list (string * value) -> response)
    {A} (r : outcome A) (evs : list event) : Prop :=
| shape_clean :
    Forall (fetch_ok api) evs ->
    run_shape api r evs
| shape_fetch_error evs' url params status statusText :
    evs = evs' ++ [EFetch url params] ->
    Forall (fetch_ok api) evs' ->
    api url params = HttpError status statusText ->
    r = Throw (GitLabApiError status statusText url) ->
    run_shape api r evs.

(** A computation that, on a connected store, does not depend on the
    world: its outcome and its interactions are a function of the remote
    alone, its writes are keyed upserts, and it changes the store only by
    those writes. *)
Definition remote_determined (api : string -> list (string * value) -> response)
    {A} (m : M A) : Prop :=
  exists (r : outcome A) (evs : list event),
    Forall keyed_event evs /\
    run_shape api r evs /\
    forall w s, db w = Some s ->
      m w = (r, World (Some (replay evs s)) (trace w ++ evs) (clock_reads w)).

(** *** Runs *)

(** A connected world with an empty store and no history: the outcome and
    the interactions of a computation determined by the remote are read
    off its run from there. *)
Definition fresh : world := World (Some ∅) [] 0.

Definition outcome_of {A} (m : M A) : outcome A := (m fresh).1.
Definition events_of {A} (m : M A) : list event := trace (m fresh).2.

(** The world in which [runSync] enters its [try] block: the clock has
    been read twice and the start line written. *)
Definition entered (now : nat -> Z) (w : world) : world :=
  World (db w) (trace w ++ [ELog (LogStart (now (S (clock_reads w))))])
    (S (S (clock_reads w))).

(** The per-partition lines of the summary for store [s]. *)
Definition summary_lines (s : store) : list event :=
  map (fun col => ELog (LogCollection col (countDocuments (coll s col))))
    summary_collections.

(** The partition a store call writes to. *)
Definition writes_to (e : event) : option string :=
  match e with
  | EUpdateOne col _ | EBulkWrite col _ => Some col
  | _ => None
  end.

(** The partition a store call writes to and the project of each of its
    operations, as its filter names it. *)
Definition write_target (e : event) : option (string * list (option value)) :=
  match e with
  | EUpdateOne col op => Some (col, [op_filter op !! "project_id"])
  | EBulkWrite col ops =>
      Some (col, map (fun op => op_filter op !! "project_id") ops)
  | _ => None
  end.


(** The states of the orchestrator (section 4.4), read off the console:
    a run is over when its last line is the completion line or the failure
    line. *)
Inductive run_state : Type := Idle | Running | Failed.

Definition state_after (t : list event) : run_state :=
  match last t with
  | Some (ELog (LogCompleted _ _)) => Idle
  | Some (ELog (LogFailed _)) => Failed
  | _ => Running
  end.

(** A computation in which a fetch answered with an error is the last
    interaction and makes the computation throw the fetch error that
    carries the URL, the status and the status text. *)
Definition raises_fetch_error (api : string -> list (string * value) -> response)
    {A} (m : M A) : Prop :=
  forall w s before after url params status statusText,
    db w = Some s ->
    trace (m w).2 = trace w ++ before ++ EFetch url params :: after ->
    api url params = HttpError status statusText ->
    after = [] /\ (m w).1 = Throw (GitLabApiError status statusText url).

(** *** Observations on the paginator, the syncers and whole runs *)


(** The world after the fetches of pages [first], ..., [first + n - 1] of a
    listing: nothing but the sequence of interactions has changed. *)
Definition fetched (url : string) (params : list (string * value))
    (first : Z) (n : nat) (w : world) : world :=
  World (db w) (trace w ++ page_fetches url params first n) (clock_reads w).

(** *** The paginator on the wire *)

(** The remote of the service's model, on the wire. *)
Definition on_wire (api : string -> list (string * value) -> response)
    (url : string) (params : list (string * value)) : Wire.answer :=
  match api url params with
  | HttpError status statusText => Wire.NotOk status statusText
  | HttpOk data => Wire.Json (VArr data)
  end.

Definition ending_of (r : outcome (list value)) : Wire.ending :=
  match r with
  | Ret results => Wire.Returned results
  | Throw e => Wire.Raised (Wire.Service e)
  | Diverge => Wire.Looping
  end.

(** An answer the loop goes on from, and the elements it pushes: a
    non-empty array, or a non-empty string. *)
Definition pushes (code_points : string -> list string) (a : Wire.answer)
    (items : list value) : Prop :=
  (a = Wire.Json (VArr items) /\ items <> []) \/
  (exists s, a = Wire.Json (VStr s) /\ s <> "" /\ items = map VStr (code_points s)).

(** An answer that ends the listing: a success whose body has no length
    or a falsy one (the empty array, but also the empty string, a number,
    a boolean, an object without a truthy [length]). *)
Definition ends (a : Wire.answer) : Prop :=
  a = Wire.Json (VArr []) \/ a = Wire.Json (VStr "") \/
  (exists b, a = Wire.Json (VBool b)) \/ (exists n, a = Wire.Json (VNum n)) \/
  (exists o, a = Wire.Json (VObj o) /\
             truthy (default VUndef (assoc "length" o)) = false).

(** An answer that makes the paginator throw, and what it throws. *)
Definition breaks (url : string) (a : Wire.answer) (t : Wire.thrown) : Prop :=
  (exists name message,
     (a = Wire.FetchRejected name message \/ a = Wire.JsonRejected name message) /\
     t = Wire.Host name message) \/
  (exists status statusText,
     a = Wire.NotOk status statusText /\
     t = Wire.Service (GitLabApiError status statusText url)) \/
  (exists msg,
     (a = Wire.Json VNull \/ a = Wire.Json VUndef \/
      exists o, a = Wire.Json (VObj o) /\
                truthy (default VUndef (assoc "length" o)) = true) /\
     t = Wire.Service (TypeError msg)).

(** A syncer call that either sends the whole listing in one bulk write and
    reports the number of its records, or leaves the store as it was and
    reports no record: in both cases after fetching pages 1, 2, ... of its
    listing and doing nothing else. *)
Definition all_or_nothing (api : string -> list (string * value) -> response)
    (fuel : nat) (url : string) (params : list (string * value)) (col : string)
    (to_op : value -> result update_op) (m : M nat) (w : world) : Prop :=
  exists n, (n <= fuel)%nat /\
    ((exists records ops,
        (paginatedGet api fuel url params w).1 = Ret records /\
        records <> [] /\
        array_map to_op records = Ok ops /\
        m w = (Ret (length records),
               World (on_collection col (bulkWrite ops) <$> db w)
                 (trace w ++ page_fetches url params 1 n ++ [EBulkWrite col ops])
                 (clock_reads w)))
     \/ ((m w).2 = fetched url params 1 n w /\
         forall k, (m w).1 <> Ret (S k))).

(** A syncer call that leaves every partition but [col] as it was. *)
Definition touches_only (col : string) (m : M nat) (w : world) : Prop :=
  match db w with
  | Some s =>
      exists s', db (m w).2 = Some s' /\
        forall col', col' <> col -> s' !! col' = s !! col'
  | None => db (m w).2 = None
  end.

(** A computation that, from any world, only appends interactions
    satisfying [P] to the sequence of interactions. *)
Definition emits (P : event -> Prop) {A} (m : M A) : Prop :=
  forall w, exists evs, trace (m w).2 = trace w ++ evs /\ Forall P evs.

(** What the service may do to the outside: read a page of 100 of a listing
    under the projects endpoint of the configured host, upsert a project,
    send a bulk write to one of the four entity partitions, or write a
    console line. *)
Definition footprint (GITLAB_URL : string) (e : event) : Prop :=
  match e with
  | EFetch url params =>
      (exists rest, url = GITLAB_URL +:+ "/api/v4/projects" +:+ rest) /\
      assoc "per_page" params = Some (VNum 100)
  | EUpdateOne col _ => col = "projects"
  | EBulkWrite col _ => col ∈ ["members"; "commits"; "merge_requests"; "issues"]
  | ELog _ => True
  end.

(** Partition [c'] holds every record of [c] at the place it had, with at
    least the fields it had. *)
Definition keeps (c c' : collection) : Prop :=
  forall (i : nat) (d : document), c !! i = Some d ->
    exists d' : document, c' !! i = Some d' /\ dom d ⊆ dom d'.

(** No operation of [ops] addresses record [d]. *)
Definition unaddressed (ops : list update_op) (d : document) : Prop :=
  Forall (fun op => matches (bson <$> op_filter op) d = false) ops.

(** The natural key an operation addresses, as the store receives it. *)
Definition op_key (ks : list string) (op : update_op) : list value :=
  key_of ks (bson <$> op_filter op).

(** The remote [api] during an outage: the requests [down] selects are
    answered with an error, the others as [api] answers them. *)
Definition outage (down : string -> list (string * value) -> option (Z * string))
    (api : string -> list (string * value) -> response)
    (url : string) (params : list (string * value)) : response :=
  match down url params with
  | Some (status, statusText) => HttpError status statusText
  | None => api url params
  end.

(** Computation [m1] does what [m2] does, or throws on the way: its writes
    are then the first of the writes of [m2]. *)
Definition ahead {A} (m1 m2 : M A) : Prop :=
  (outcome_of m1 = outcome_of m2 /\ events_of m1 = events_of m2) \/
  ((exists e, outcome_of m1 = Throw e) /\
   exists rest,
     filter is_write (events_of m2) = filter is_write (events_of m1) ++ rest).

(** The author fields of a mapped merge request or issue whose remote
    record has the own properties [o]: null without an author object,
    otherwise the author's non-empty username and name, null for one that
    is absent. *)
Definition author_mapped (o : list (string * value)) (op : update_op) : Prop :=
  ((forall a, assoc "author" o <> Some (VObj a)) ->
     op_set op !! "author_username" = Some VNull /\
     op_set op !! "author_name" = Some VNull) /\
  (forall a, assoc "author" o = Some (VObj a) ->
     (forall u, assoc "username" a = Some (VStr u) -> u <> "" ->
        op_set op !! "author_username" = Some (VStr u)) /\
     (forall n, assoc "name" a = Some (VStr n) -> n <> "" ->
        op_set op !! "author_name" = Some (VStr n)) /\
     (assoc "username" a = None -> op_set op !! "author_username" = Some VNull) /\
     (assoc "name" a = None -> op_set op !! "author_name" = Some VNull)).

(** An optional field [k] of a remote record mapped to the field [k'] of
    the stored one: null when absent, null or empty, the remote string
    otherwise. *)
Definition nullable (o : list (string * value)) (k : string) (doc : document)
    (k' : string) : Prop :=
  (assoc k o = None -> doc !! k' = Some VNull) /\
  (assoc k o = Some VNull -> doc !! k' = Some VNull) /\
  (assoc k o = Some (VStr "") -> doc !! k' = Some VNull) /\
  (forall s, assoc k o = Some (VStr s) -> s <> "" -> doc !! k' = Some (VStr s)).

(** An operation on a record of project [pid]: its filter names the
    project. *)
Definition of_project (pid : value) (op : update_op) : Prop :=
  op_filter op !! "project_id" = Some pid.

(** What a syncer that returned [n] did, [listing] being the paginator
    call it makes: the listing returned [n] records; the syncer did
    nothing but the fetches of the listing when [n] is 0, and otherwise
    followed them with one bulk write to its partition, of [n] operations,
    all on records of its project. *)
Definition syncer_wrote (listing : M (list value)) (col : string)
    (pid : value) (n : nat) (evs : list event) : Prop :=
  exists records,
    outcome_of listing = Ret records /\
    length records = n /\
    Forall (fun ev => writes_to ev = None) (events_of listing) /\
    match records with
    | [] => evs = events_of listing
    | _ :: _ =>
        exists ops,
          evs = events_of listing ++ [EBulkWrite col ops] /\
          length ops = n /\
          Forall (of_project pid) ops
    end.

(** An operation on a record of one of the projects of a listing. *)
Definition of_listed (projects : list value) (op : update_op) : Prop :=
  exists project pid,
    project ∈ projects /\ get_prop project "id" = Ok pid /\ of_project pid op.

(** A store call all of whose operations satisfy [P]. *)
Definition ops_satisfy (P : update_op -> Prop) (e : event) : Prop :=
  match e with
  | EUpdateOne _ op => P op
  | EBulkWrite _ ops => Forall P ops
  | _ => True
  end.

(** A stored record of another project than [pid]. *)
Definition foreign (pid : value) (d : document) : Prop :=
  field d "project_id" <> bson pid.

(** A syncer call for project [pid] that leaves the records of the other
    projects in partition [col] as they were. *)
Definition leaves_foreign (pid : value) (col : string) (m : M nat) (w : world)
  : Prop :=
  match db w with
  | Some s =>
      exists s', db (m w).2 = Some s' /\
        forall (i : nat) (d : document),
          coll s col !! i = Some d -> foreign pid d -> coll s' col !! i = Some d
  | None => db (m w).2 = None
  end.

(** ** The monad: evaluation lemmas *)

Lemma bind_run {A B} (m : M A) (f : A -> M B) (w : world) :
  (m ≫= f) w =
  match m w with
  | (Ret a, w') => f a w'
  | (Throw e, w') => (Throw e, w')
  | (Diverge, w') => (Diverge, w')
  end.
Proof. reflexivity. Qed.

Lemma bind_Ret {A B} (m : M A) (f : A -> M B) w a w' :
  m w = (Ret a, w') -> (m ≫= f) w = f a w'.
Proof. intros H. rewrite bind_run, H. reflexivity. Qed.

Lemma bind_Throw {A B} (m : M A) (f : A -> M B) w e w' :
  m w = (Throw e, w') -> (m ≫= f) w = (Throw e, w').
Proof. intros H. rewrite bind_run, H. reflexivity. Qed.

Lemma bind_Diverge {A B} (m : M A) (f : A -> M B) w w' :
  m w = (Diverge, w') -> (m ≫= f) w = (Diverge, w').
Proof. intros H. rewrite bind_run, H. reflexivity. Qed.

Lemma getDB_connected w s : db w = Some s -> getDB w = (Ret tt, w).
Proof. unfold getDB. intros ->. reflexivity. Qed.

(** ** Objects *)

Lemma obj_set_obj_set k v v' o : obj_set k v (obj_set k v' o) = obj_set k v o.
Proof.
  induction o as [|[k' x] o IH]; simpl.
  - rewrite String.eqb_refl. reflexivity.
  - destruct (String.eqb k k') eqn:E; simpl; rewrite ?String.eqb_refl, ?E; [reflexivity|].
    now rewrite IH.
Qed.

Lemma assoc_obj_set k v o : assoc k (obj_set k v o) = Some v.
Proof.
  induction o as [|[k' x] o IH]; simpl.
  - now rewrite String.eqb_refl.
  - destruct (String.eqb k k') eqn:E; simpl; [now rewrite String.eqb_refl|].
    now rewrite E.
Qed.

Lemma assoc_obj_set_ne k k' v o : k <> k' -> assoc k (obj_set k' v o) = assoc k o.
Proof.
  intros Hne. apply String.eqb_neq in Hne.
  induction o as [|[k2 x] o IH]; simpl.
  - now rewrite Hne.
  - destruct (String.eqb k' k2) eqn:E; simpl.
    + apply String.eqb_eq in E. subst k2. now rewrite Hne.
    + now rewrite IH.
Qed.

Lemma page_request_sets params k :
  assoc "per_page" (page_request params k) = Some (VNum 100) /\
  assoc "page" (page_request params k) = Some (VNum k).
Proof.
  unfold page_request. split.
  - rewrite assoc_obj_set_ne by discriminate. apply assoc_obj_set.
  - apply assoc_obj_set.
Qed.

(** ** The paginator *)

Section Paginator.
Context (api : string -> list (string * value) -> response).

Lemma paginate_request params page k :
  obj_set "page" (VNum k) (page_request params page) = page_request params k.
Proof. apply obj_set_obj_set. Qed.

Lemma page_fetches_S url params first n :
  page_fetches url params first (S n) =
  EFetch url (page_request params first) :: page_fetches url params (first + 1) n.
Proof.
  unfold page_fetches. simpl. rewrite Z.add_0_r. f_equal.
  rewrite <- seq_shift, map_map. apply map_ext. intros i.
  do 2 f_equal. lia.
Qed.

(** The loop on a listing of [pages] non-empty pages followed by an
    answer [last], with enough fuel to reach it. *)
Lemma paginate_reaches url params (pages : list (list value)) :
  forall fuel page results w,
  Forall (fun p => p <> []) pages ->
  (forall (i : nat) p, pages !! i = Some p ->
     api url (page_request params (page + Z.of_nat i)) = HttpOk p) ->
  (length pages < fuel)%nat ->
  paginate api fuel url (page_request params 1) page results w =
  paginate api (fuel - length pages) url (page_request params 1)
    (page + Z.of_nat (length pages)) (results ++ concat pages)
    (World (db w) (trace w ++ page_fetches url params page (length pages))
       (clock_reads w)).
Proof.
  induction pages as [|p pages IH]; intros fuel page results w Hne Hapi Hfuel.
  - simpl. rewrite Nat.sub_0_r, Z.add_0_r, !app_nil_r. now destruct w.
  - destruct fuel as [|fuel]; [simpl in Hfuel; lia|].
    simpl length. rewrite page_fetches_S.
    cbn [paginate]. rewrite bind_run. unfold fetch at 1.
    rewrite !paginate_request.
    pose proof (Hapi 0%nat p eq_refl) as H0. rewrite Z.add_0_r in H0. rewrite H0.
    inversion Hne as [|? ? Hp Hne']; subst.
    destruct p as [|x p]; [congruence|].
    rewrite IH; [| assumption | | simpl in Hfuel; lia].
    + simpl concat. unfold emit. cbn [db trace clock_reads].
      rewrite <- !app_assoc. cbn [app].
      replace (page + 1 + Z.of_nat (length pages))%Z
        with (page + Z.of_nat (S (length pages)))%Z by lia.
      reflexivity.
    + intros i q Hq. specialize (Hapi (S i) q Hq).
      replace (page + 1 + Z.of_nat i)%Z with (page + Z.of_nat (S i))%Z by lia.
      exact Hapi.
Qed.

Lemma paginate_last_empty fuel url params page results w :
  api url (page_request params page) = HttpOk [] ->
  paginate api (S fuel) url (page_request params 1) page results w =
  (Ret results, emit (EFetch url (page_request params page)) w).
Proof.
  intros H. cbn [paginate]. rewrite bind_run. unfold fetch.
  rewrite !paginate_request, H. reflexivity.
Qed.

Lemma paginate_last_error fuel url params page results w status statusText :
  api url (page_request params page) = HttpError status statusText ->
  paginate api (S fuel) url (page_request params 1) page results w =
  (Throw (GitLabApiError status statusText url),
   emit (EFetch url (page_request params page)) w).
Proof.
  intros H. cbn [paginate]. rewrite bind_run. unfold fetch.
  rewrite !paginate_request, H. reflexivity.
Qed.

Lemma page_fetches_snoc url params first n :
  (page_fetches url params first n
    ++ [EFetch url (page_request params (first + Z.of_nat n))])%list
  = page_fetches url params first (S n).
Proof.
  unfold page_fetches. rewrite seq_S, map_app. reflexivity.
Qed.

Lemma length_page_fetches url params first n :
  length (page_fetches url params first n) = n.
Proof. unfold page_fetches. now rewrite length_map, length_seq. Qed.

Lemma paginatedGet_pages url params (pages : list (list value)) fuel w :
  Forall (fun p => p <> []) pages ->
  (forall (i : nat) p, pages !! i = Some p ->
     api url (page_request params (1 + Z.of_nat i)) = HttpOk p) ->
  api url (page_request params (1 + Z.of_nat (length pages))) = HttpOk [] ->
  (length pages < fuel)%nat ->
  paginatedGet api fuel url params w =
    (Ret (concat pages),
     World (db w) (trace w ++ page_fetches url params 1 (S (length pages)))
       (clock_reads w)).
Proof.
  intros Hne Hapi Hlast Hfuel.
  unfold paginatedGet. fold (page_request params 1).
  rewrite (paginate_reaches url params pages) by assumption.
  destruct (fuel - length pages)%nat as [|fuel'] eqn:E; [lia|].
  rewrite paginate_last_empty by assumption.
  unfold emit. cbn [db trace clock_reads app].
  rewrite <- app_assoc, page_fetches_snoc. reflexivity.
Qed.

(** C2. The paginator asks for pages 1, 2, 3, ... of the listing with
    [per_page = 100], concatenates the non-empty pages whatever their
    size, and returns after the first empty page: on [n] non-empty pages
    followed by an empty one it returns their concatenation after exactly
    [n + 1] fetches; on pages of sizes 100, 100, 0 that is 200 records and
    3 fetches. *)
Theorem paginator_protocol url params (pages : list (list value)) fuel w :
  Forall (fun p => p <> []) pages ->
  (forall (i : nat) p, pages !! i = Some p ->
     api url (page_request params (1 + Z.of_nat i)) = HttpOk p) ->
  api url (page_request params (1 + Z.of_nat (length pages))) = HttpOk [] ->
  (length pages < fuel)%nat ->
  let fetches := page_fetches url params 1 (S (length pages)) in
  paginatedGet api fuel url params w =
    (Ret (concat pages), World (db w) (trace w ++ fetches) (clock_reads w))
  /\ length fetches = S (length pages)
  /\ (forall k, assoc "per_page" (page_request params k) = Some (VNum 100)
             /\ assoc "page" (page_request params k) = Some (VNum k))
  /\ (forall p1 p2, pages = [p1; p2] -> length p1 = 100%nat ->
       length p2 = 100%nat ->
       length (concat pages) = 200%nat /\ length fetches = 3%nat).
Proof.
  intros Hne Hapi Hlast Hfuel fetches. repeat split.
  - now apply paginatedGet_pages.
  - apply length_page_fetches.
  - apply page_request_sets.
  - apply page_request_sets.
  - subst pages. simpl. rewrite app_nil_r, length_app. lia.
  - subst pages. apply length_page_fetches.
Qed.

End Paginator.

(** Pages of sizes 100, 100 and 0: 200 records, 3 fetches. *)
Lemma paginator_protocol_witness :
  let url := Demo.base +:+ "/api/v4/projects" in
  let pages := [replicate 100 Demo.project_A; replicate 100 Demo.project_B] in
  let api := Demo.table_api [(url, map HttpOk pages)] in
  let r := paginatedGet api 3 url [("membership", VBool true)] Demo.connected in
  r.1 = Ret (concat pages)
  /\ length (concat pages) = 200%nat
  /\ length (filter is_fetch (trace r.2)) = 3%nat.
Proof.
  intros url pages api r.
  assert (Hne : Forall (fun p : list value => p <> []) pages)
    by (repeat constructor; discriminate).
  assert (Hapi : forall (i : nat) p, pages !! i = Some p ->
            api url (page_request [("membership", VBool true)] (1 + Z.of_nat i))
            = HttpOk p).
  { intros [|[|i]] p Hp; try discriminate Hp; injection Hp as <-;
      vm_compute; reflexivity. }
  assert (Hlast : api url (page_request [("membership", VBool true)]
                             (1 + Z.of_nat (length pages))) = HttpOk [])
    by (vm_compute; reflexivity).
  assert (Hfuel : (length pages < 3)%nat) by (vm_compute; lia).
  destruct (paginator_protocol api url [("membership", VBool true)] pages 3
              Demo.connected Hne Hapi Hlast Hfuel) as (Hrun & _ & _ & H200).
  destruct (H200 _ _ eq_refl eq_refl eq_refl) as [Hlen _].
  subst r. rewrite Hrun. split; [reflexivity|]. split; [exact Hlen|].
  vm_compute. reflexivity.
Defined.

(** ** The mapping of commits *)

Lemma get_prop_object o k : get_prop (VObj o) k = Ok (default VUndef (assoc k o)).
Proof. reflexivity. Qed.

Lemma classic_stats (v : value) : (exists st, v = VObj st) \/ (forall st, v <> VObj st).
Proof. destruct v; try (right; discriminate). left. now eexists. Qed.

Lemma get_prop_stats_default v k :
  (forall st, v <> VObj st) ->
  get_prop (or_else v (VObj [])) k = Ok VUndef.
Proof.
  intros Hv. destruct v as [| |b|n|s|l|o]; try reflexivity.
  - now destruct b.
  - unfold or_else. simpl. now destruct (Z.eqb n 0).
  - unfold or_else. simpl. now destruct (String.eqb s "").
  - now destruct (Hv o).
Qed.

(** C6. A remote commit record without a statistics object is mapped to
    [additions = 0], [deletions = 0] and [total = 0]; with a statistics
    object carrying the three counts, the mapped values are the remote
    ones. *)
Theorem commit_stats_defaulting (projectId : value) (o : list (string * value)) :
  exists op,
    commit_op projectId (VObj o) = Ok op /\
    ((forall st, assoc "stats" o <> Some (VObj st)) ->
       op_set op !! "additions" = Some (VNum 0) /\
       op_set op !! "deletions" = Some (VNum 0) /\
       op_set op !! "total" = Some (VNum 0)) /\
    (forall st a d t,
       assoc "stats" o = Some (VObj st) ->
       assoc "additions" st = Some (VNum a) ->
       assoc "deletions" st = Some (VNum d) ->
       assoc "total" st = Some (VNum t) ->
       op_set op !! "additions" = Some (VNum a) /\
       op_set op !! "deletions" = Some (VNum d) /\
       op_set op !! "total" = Some (VNum t)).
Proof.
  unfold commit_op. rewrite !get_prop_object. cbn [mbind result_bind].
  destruct (assoc "stats" o) as [v|] eqn:Hstats.
  - destruct (classic_stats v) as [[st ->]|Hno].
    + cbn [default from_option id or_else truthy]. rewrite !get_prop_object.
      cbn [mbind result_bind mret result_ret]. eexists. split; [reflexivity|].
      split.
      * intros H. now destruct (H st).
      * intros st' a d t [= <-] -> -> ->. cbn [default from_option id op_set].
        assert (Hz : forall n, or_else (VNum n) (VNum 0) = VNum n).
        { intros n. unfold or_else. simpl. destruct (Z.eqb_spec n 0); now subst. }
        rewrite !Hz. repeat split; now simplify_map_eq.
    + cbn [default from_option id]. rewrite !(get_prop_stats_default v) by assumption.
      cbn [mbind result_bind mret result_ret]. eexists. split; [reflexivity|].
      split.
      * intros _. cbn [op_set or_else truthy]. repeat split; now simplify_map_eq.
      * intros st a d t [= ->]. now destruct (Hno st).
  - cbn [default from_option id or_else truthy]. rewrite !get_prop_object.
    cbn [mbind result_bind mret result_ret]. eexists. split; [reflexivity|].
    split.
    + intros _. cbn [op_set assoc default from_option id or_else truthy].
      repeat split; now simplify_map_eq.
    + intros st a d t [=].
Qed.

Lemma commit_stats_defaulting_witness :
  (exists op, commit_op (VNum 1) Demo.commit_nostats = Ok op /\
     op_set op !! "additions" = Some (VNum 0) /\
     op_set op !! "deletions" = Some (VNum 0) /\
     op_set op !! "total" = Some (VNum 0)) /\
  (exists op, commit_op (VNum 1) Demo.commit_c1 = Ok op /\
     op_set op !! "additions" = Some (VNum 5) /\
     op_set op !! "deletions" = Some (VNum 0) /\
     op_set op !! "total" = Some (VNum 5)).
Proof.
  split.
  - destruct (commit_stats_defaulting (VNum 1)
      [("id", VStr "def456"); ("short_id", VStr "def4");
       ("author_name", VStr "Ana"); ("author_email", VStr "ana@x.test");
       ("committed_date", VStr "2024-03-02"); ("message", VStr "fix")])
      as (op & Hop & Hnone & _).
    exists op. split; [exact Hop|]. apply Hnone. intros st. vm_compute. discriminate.
  - destruct (commit_stats_defaulting (VNum 1)
      [("id", VStr "abc123"); ("short_id", VStr "abc1");
       ("author_name", VStr "Ana"); ("author_email", VStr "ana@x.test");
       ("committed_date", VStr "2024-03-01"); ("message", VStr "init");
       ("stats", VObj [("additions", VNum 5); ("deletions", VNum 0);
                       ("total", VNum 5)])])
      as (op & Hop & _ & Hsome).
    exists op. split; [exact Hop|].
    apply (Hsome [("additions", VNum 5); ("deletions", VNum 0); ("total", VNum 5)]);
      reflexivity.
Defined.

(** ** The entity syncers *)

Section Syncers.
Context (GITLAB_URL : string) (api : string -> list (string * value) -> response).

Lemma paginatedGet_empty fuel url params w :
  api url (page_request params 1) = HttpOk [] ->
  paginatedGet api (S fuel) url params w =
  (Ret [], emit (EFetch url (page_request params 1)) w).
Proof.
  intros H. unfold paginatedGet. fold (page_request params 1).
  now apply paginate_last_empty.
Qed.

Lemma filter_is_write_fetch (t : list event) url params :
  filter is_write (t ++ [EFetch url params]) = filter is_write t.
Proof. rewrite filter_app. cbn. apply app_nil_r. Qed.

Lemma sync_listing_empty fuel url params col to_op w s :
  db w = Some s ->
  api url (page_request params 1) = HttpOk [] ->
  sync_listing api (S fuel) url params col to_op w =
  (Ret 0%nat, emit (EFetch url (page_request params 1)) w).
Proof.
  intros Hdb Hapi. unfold sync_listing.
  rewrite (bind_Ret _ _ _ _ _ (getDB_connected w s Hdb)).
  rewrite (bind_Ret _ _ _ _ _ (paginatedGet_empty fuel url params w Hapi)).
  reflexivity.
Qed.

Lemma sync_listing_short_circuits fuel url params col to_op w s :
  db w = Some s ->
  api url (page_request params 1) = HttpOk [] ->
  short_circuits (sync_listing api (S fuel) url params col to_op) w /\
  trace (sync_listing api (S fuel) url params col to_op w).2
    = trace w ++ [EFetch url (page_request params 1)].
Proof.
  intros Hdb Hapi. unfold short_circuits.
  rewrite (sync_listing_empty fuel url params col to_op w s Hdb Hapi).
  cbn [fst snd emit db trace]. repeat split. apply filter_is_write_fetch.
Qed.

(** C5. When the remote listing of a project is empty, each of the four
    entity syncers returns 0 and calls no write: the store is left as it
    was and the only interaction is the fetch of the first page. *)
Theorem empty_listing_short_circuit fuel projectId w s :
  db w = Some s ->
  (0 < fuel)%nat ->
  let url := project_url GITLAB_URL projectId in
  (api (url "/members/all") (page_request [] 1) = HttpOk [] ->
     short_circuits (syncMembers GITLAB_URL api fuel projectId) w /\
     trace (syncMembers GITLAB_URL api fuel projectId w).2
       = trace w ++ [EFetch (url "/members/all") (page_request [] 1)]) /\
  (let params := [("all", VBool true); ("with_stats", VBool true)] in
   api (url "/repository/commits") (page_request params 1) = HttpOk [] ->
     short_circuits (syncCommits GITLAB_URL api fuel projectId) w /\
     trace (syncCommits GITLAB_URL api fuel projectId w).2
       = trace w ++ [EFetch (url "/repository/commits") (page_request params 1)]) /\
  (let params := [("state", VStr "all")] in
   api (url "/merge_requests") (page_request params 1) = HttpOk [] ->
     short_circuits (syncMergeRequests GITLAB_URL api fuel projectId) w /\
     trace (syncMergeRequests GITLAB_URL api fuel projectId w).2
       = trace w ++ [EFetch (url "/merge_requests") (page_request params 1)]) /\
  (let params := [("state", VStr "all")] in
   api (url "/issues") (page_request params 1) = HttpOk [] ->
     short_circuits (syncIssues GITLAB_URL api fuel projectId) w /\
     trace (syncIssues GITLAB_URL api fuel projectId w).2
       = trace w ++ [EFetch (url "/issues") (page_request params 1)]).
Proof.
  intros Hdb Hfuel url. destruct fuel as [|fuel]; [lia|].
  repeat split; intros; eapply sync_listing_short_circuits; eassumption.
Qed.

End Syncers.

(** The second project of the snapshot has no commits, merge requests or
    issues; a project absent from it has no members either (the member
    listing of project 3 is given empty). *)
Lemma empty_listing_short_circuit_witness :
  let api := Demo.table_api
               ((Demo.base +:+ "/api/v4/projects/3/members/all", [])
                  :: (Demo.base +:+ "/api/v4/projects/3/repository/commits", [])
                  :: (Demo.base +:+ "/api/v4/projects/3/merge_requests", [])
                  :: (Demo.base +:+ "/api/v4/projects/3/issues", [])
                  :: Demo.snapshot "opened") in
  short_circuits (syncMembers Demo.base api 1 (VNum 3)) Demo.connected /\
  short_circuits (syncCommits Demo.base api 1 (VNum 3)) Demo.connected /\
  short_circuits (syncMergeRequests Demo.base api 1 (VNum 3)) Demo.connected /\
  short_circuits (syncIssues Demo.base api 1 (VNum 3)) Demo.connected.
Proof.
  intros api.
  destruct (empty_listing_short_circuit Demo.base api 1 (VNum 3) Demo.connected ∅
              eq_refl (Nat.lt_0_succ 0)) as (Hm & Hc & Hmr & Hi).
  split; [|split; [|split]].
  - apply Hm. vm_compute. reflexivity.
  - apply Hc. vm_compute. reflexivity.
  - apply Hmr. vm_compute. reflexivity.
  - apply Hi. vm_compute. reflexivity.
Defined.

(** ** The store: keyed upserts *)


Section Upserts.
Context (ks : list string).

Lemma field_union_l (s d : document) k v :
  s !! k = Some v -> field (s ∪ d) k = v.
Proof.
  intros H. unfold field. now rewrite (lookup_union_Some_l s d k v H).
Qed.

Lemma matches_spec (q d : document) :
  matches q d = true <-> forall k v, q !! k = Some v -> field d k = v.
Proof.
  unfold matches. rewrite bool_decide_eq_true. reflexivity.
Qed.

(** A filter on the key fields matches the records that have its key. *)
Lemma matches_key (q d : document) :
  dom q = list_to_set ks ->
  matches q d = bool_decide (key_of ks d = key_of ks q).
Proof.
  intros Hdom. unfold matches. apply bool_decide_ext. unfold key_of. split.
  - intros H. apply map_ext_in. intros k Hk.
    assert (Hin : k ∈ dom q) by (rewrite Hdom; apply elem_of_list_to_set;
                                 now apply list_elem_of_In).
    apply elem_of_dom in Hin as [v Hv].
    rewrite (H k v Hv). unfold field. now rewrite Hv.
  - intros H k v Hv.
    assert (Hin : In k ks).
    { apply list_elem_of_In, (elem_of_list_to_set (C:=gset string)).
      rewrite <- Hdom. apply elem_of_dom. now exists v. }
    rewrite (proj1 map_ext_in_iff H k Hin).
    unfold field. now rewrite Hv.
Qed.

Section OneOp.
Context (op : update_op) (Hop : keyed_op ks op).

Lemma sent_dom : dom (bson <$> op_filter op) = list_to_set ks.
Proof. rewrite dom_fmap_L. apply Hop. Qed.

Lemma sent_subseteq : (bson <$> op_filter op) ⊆ (bson <$> op_set op).
Proof. apply map_fmap_mono, Hop. Qed.

Lemma sent_key (d : document) k :
  In k ks ->
  field ((bson <$> op_set op) ∪ d) k = field (bson <$> op_filter op) k.
Proof.
  intros Hin.
  assert (Hk : k ∈ dom (bson <$> op_filter op))
    by (rewrite sent_dom; apply elem_of_list_to_set; now apply list_elem_of_In).
  apply elem_of_dom in Hk as [v Hv].
  rewrite (field_union_l (bson <$> op_set op) d k v
             (lookup_weaken _ _ _ _ Hv sent_subseteq)).
  unfold field. now rewrite Hv.
Qed.

(** The inserted record has the key of the filter. *)
Lemma key_of_insert d :
  key_of ks ((bson <$> op_set op) ∪ d) = key_of ks (bson <$> op_filter op).
Proof. unfold key_of. apply map_ext_in. intros k Hk. now apply sent_key. Qed.

(** An updated record keeps its key. *)
Lemma key_of_update d :
  matches (bson <$> op_filter op) d = true ->
  key_of ks ((bson <$> op_set op) ∪ d) = key_of ks d.
Proof.
  intros Hm. rewrite key_of_insert.
  rewrite (matches_key (bson <$> op_filter op) d sent_dom) in Hm.
  now apply bool_decide_eq_true in Hm.
Qed.


Lemma keys_updateOne (c : collection) :
  map (key_of ks) (updateOne op c) =
  if existsb (matches (bson <$> op_filter op)) c then map (key_of ks) c
  else map (key_of ks) c ++ [key_of ks (bson <$> op_filter op)].
Proof.
  unfold updateOne.
  induction c as [|d c IH]; simpl.
  - now rewrite key_of_insert.
  - destruct (matches (bson <$> op_filter op) d) eqn:Hm; simpl.
    + now rewrite key_of_update.
    + rewrite IH. now destruct (existsb (matches (bson <$> op_filter op)) c).
Qed.


Lemma unique_keys_updateOne (c : collection) :
  unique_keys ks c -> unique_keys ks (updateOne op c).
Proof.
  unfold unique_keys. rewrite keys_updateOne.
  destruct (existsb (matches (bson <$> op_filter op)) c) eqn:Hex; [easy|].
  intros Hnd. apply NoDup_app. split; [assumption|]. split.
  - intros key Hin Hin'. apply list_elem_of_singleton in Hin'. subst key.
    apply list_elem_of_In, in_map_iff in Hin as (d & Hkey & Hd).
    assert (Hm : matches (bson <$> op_filter op) d = true)
      by (rewrite (matches_key _ _ sent_dom); now apply bool_decide_eq_true).
    assert (existsb (matches (bson <$> op_filter op)) c = true)
      by (apply existsb_exists; exists d; split; assumption).
    congruence.
  - apply NoDup_singleton.
Qed.


End OneOp.

Lemma unique_keys_bulkWrite ops (c : collection) :
  Forall (keyed_op ks) ops -> unique_keys ks c -> unique_keys ks (bulkWrite ops c).
Proof.
  unfold bulkWrite. revert c. induction ops as [|op ops IH]; intros c Hops Hc.
  - exact Hc.
  - inversion Hops; subst. simpl. apply IH; [assumption|].
    now apply unique_keys_updateOne.
Qed.

End Upserts.

(** ** A bulk write applied twice *)

Section BulkWrite.
Context (ks : list string).

Lemma bulkWrite_app ops1 ops2 (c : collection) :
  bulkWrite (ops1 ++ ops2) c = bulkWrite ops2 (bulkWrite ops1 c).
Proof. unfold bulkWrite. apply foldl_app. Qed.

Lemma key_of_update_doc ops d :
  Forall (keyed_op ks) ops -> key_of ks (update_doc ops d) = key_of ks d.
Proof.
  unfold update_doc. intros Hops. revert d.
  induction Hops as [|op ops Hop _ IH]; intros d; [reflexivity|].
  simpl. rewrite IH.
  destruct (matches (bson <$> op_filter op) d) eqn:Hm; [|reflexivity].
  now apply key_of_update.
Qed.

Lemma matches_same_key op d d' :
  keyed_op ks op -> key_of ks d = key_of ks d' ->
  matches (bson <$> op_filter op) d = matches (bson <$> op_filter op) d'.
Proof.
  intros Hop Hk.
  rewrite !(matches_key ks _ _ (sent_dom ks op Hop)), Hk. reflexivity.
Qed.

Lemma others_same_key ops d d' :
  Forall (keyed_op ks) ops -> key_of ks d = key_of ks d' ->
  others d ops = others d' ops.
Proof.
  unfold others. intros Hops Hk.
  induction Hops as [|op ops Hop _ IH]; [reflexivity|].
  rewrite !filter_cons, IH, (matches_same_key op d d' Hop Hk). reflexivity.
Qed.

Lemma Forall_others d ops :
  Forall (keyed_op ks) ops -> Forall (keyed_op ks) (others d ops).
Proof.
  unfold others. intros Hops.
  induction Hops as [|op ops Hop _ IH]; [constructor|].
  rewrite filter_cons. destruct (decide _); [constructor|]; assumption.
Qed.

(** A bulk write on a partition: its first record takes the operations
    that address it, the remaining records the other operations. *)
Lemma bulkWrite_cons ops : forall d (c : collection),
  Forall (keyed_op ks) ops ->
  bulkWrite ops (d :: c) = update_doc ops d :: bulkWrite (others d ops) c.
Proof.
  induction ops as [|op ops IH]; intros d c Hops; [reflexivity|].
  inversion Hops as [|? ? Hop Hops']; subst.
  change (bulkWrite (op :: ops) (d :: c))
    with (bulkWrite ops (updateOne op (d :: c))).
  unfold update_doc, others. rewrite filter_cons. cbn [foldl].
  unfold updateOne. cbn [upsert].
  destruct (matches (bson <$> op_filter op) d) eqn:Hm.
  - rewrite IH by assumption. rewrite decide_False by (simpl; exact id).
    fold (others d ops).
    rewrite (others_same_key ops _ d Hops' (key_of_update ks op Hop d Hm)).
    reflexivity.
  - rewrite IH by assumption. rewrite decide_True by exact I.
    reflexivity.
Qed.

Lemma update_doc_overwrites ops d0 : forall d,
  Forall (keyed_op ks) ops -> key_of ks d = key_of ks d0 ->
  update_doc ops d = overwrites d0 ops d.
Proof.
  unfold update_doc, overwrites. intros d Hops. revert d.
  induction Hops as [|op ops Hop _ IH]; intros d Hk; [reflexivity|].
  cbn [foldl]. rewrite (matches_same_key op d d0 Hop Hk).
  destruct (matches (bson <$> op_filter op) d0) eqn:Hm; [|now apply IH].
  apply IH. rewrite <- Hk. apply key_of_update; [assumption|].
  now rewrite (matches_same_key op d d0 Hop Hk).
Qed.

Lemma overwrites_union ops d0 : forall (u d : document),
  overwrites d0 ops (u ∪ d) = overwrites d0 ops u ∪ d.
Proof.
  unfold overwrites. induction ops as [|op ops IH]; intros u d; [reflexivity|].
  cbn [foldl]. destruct (matches (bson <$> op_filter op) d0); [|apply IH].
  rewrite (assoc_L (∪)). apply IH.
Qed.

Lemma overwrites_empty ops d0 (d : document) :
  overwrites d0 ops d = overwrites d0 ops ∅ ∪ d.
Proof. now rewrite <- overwrites_union, (left_id_L ∅ (∪)). Qed.

Lemma update_doc_idem ops d :
  Forall (keyed_op ks) ops ->
  update_doc ops (update_doc ops d) = update_doc ops d.
Proof.
  intros Hops.
  rewrite (update_doc_overwrites ops d (update_doc ops d) Hops
             (key_of_update_doc ops d Hops)).
  rewrite (update_doc_overwrites ops d d Hops eq_refl).
  rewrite (overwrites_empty ops d d).
  rewrite (overwrites_empty ops d (overwrites d ops ∅ ∪ d)).
  now rewrite (assoc_L (∪)), (idemp_L (∪)).
Qed.

Lemma matches_own_filter op :
  keyed_op ks op -> matches (bson <$> op_filter op) (bson <$> op_filter op) = true.
Proof.
  intros Hop. rewrite (matches_key ks _ _ (sent_dom ks op Hop)).
  now apply bool_decide_eq_true.
Qed.

Lemma bulkWrite_nil_head op ops :
  keyed_op ks op ->
  bulkWrite (op :: ops) [] = bulkWrite (op :: ops) [bson <$> op_filter op].
Proof.
  intros Hop. unfold bulkWrite. cbn [foldl]. f_equal.
  unfold updateOne. cbn [upsert]. now rewrite matches_own_filter.
Qed.

Lemma bulkWrite_idem_step ops d (c : collection) :
  Forall (keyed_op ks) ops ->
  bulkWrite (others d ops) (bulkWrite (others d ops) c)
    = bulkWrite (others d ops) c ->
  bulkWrite ops (bulkWrite ops (d :: c)) = bulkWrite ops (d :: c).
Proof.
  intros Hops IH. rewrite !bulkWrite_cons by assumption.
  rewrite update_doc_idem by assumption.
  rewrite (others_same_key ops _ d Hops (key_of_update_doc ops d Hops)).
  now rewrite IH.
Qed.

Lemma bulkWrite_idem_bounded (n : nat) : forall ops (c : collection),
  (length c + length ops <= n)%nat ->
  Forall (keyed_op ks) ops ->
  bulkWrite ops (bulkWrite ops c) = bulkWrite ops c.
Proof.
  induction n as [|n IH]; intros ops c Hn Hops.
  - destruct c, ops; simpl in Hn; try lia. reflexivity.
  - destruct c as [|d c].
    + destruct ops as [|op ops]; [reflexivity|].
      inversion Hops as [|? ? Hop Hops']; subst.
      rewrite (bulkWrite_nil_head op ops Hop).
      apply bulkWrite_idem_step; [assumption|].
      apply IH; [|now apply Forall_others].
      unfold others. rewrite filter_cons.
      rewrite decide_False
        by (rewrite (matches_own_filter op Hop); simpl; exact id).
      pose proof (length_filter
        (fun op' => negb (matches (bson <$> op_filter op')
                            (bson <$> op_filter op))) ops).
      simpl in Hn |- *. lia.
    + apply bulkWrite_idem_step; [assumption|].
      apply IH; [|now apply Forall_others].
      pose proof (length_filter
        (fun op' => negb (matches (bson <$> op_filter op') d)) ops).
      unfold others. simpl in Hn. lia.
Qed.

(** Sending the same keyed upserts a second time changes nothing. *)
Lemma bulkWrite_idem ops (c : collection) :
  Forall (keyed_op ks) ops ->
  bulkWrite ops (bulkWrite ops c) = bulkWrite ops c.
Proof. now apply (bulkWrite_idem_bounded (length c + length ops)). Qed.

End BulkWrite.

(** ** The store after a sequence of writes *)

Section Replay.

Lemma replay_app evs1 evs2 s :
  replay (evs1 ++ evs2) s = replay evs2 (replay evs1 s).
Proof. unfold replay. apply foldl_app. Qed.

Lemma coll_on_collection col col' f (s : store) :
  coll (on_collection col f s) col' =
  if String.eqb col col' then f (coll s col) else coll s col'.
Proof.
  unfold coll, on_collection. destruct (String.eqb_spec col col') as [->|Hne].
  - now rewrite lookup_insert_eq.
  - now rewrite lookup_insert_ne.
Qed.

Lemma written_false_ops_for col evs :
  written col evs = false -> ops_for col evs = [].
Proof.
  unfold written, ops_for. induction evs as [|e evs IH]; [reflexivity|].
  cbn [existsb flat_map]. intros H. apply orb_false_iff in H as [He Hevs].
  rewrite (IH Hevs), app_nil_r. destruct e; try reflexivity; now rewrite He.
Qed.

Lemma written_app col evs1 evs2 :
  written col (evs1 ++ evs2) = written col evs1 || written col evs2.
Proof. unfold written. apply existsb_app. Qed.

Lemma ops_for_app col evs1 evs2 :
  ops_for col (evs1 ++ evs2) = ops_for col evs1 ++ ops_for col evs2.
Proof. unfold ops_for. apply flat_map_app. Qed.

Lemma lookup_write_event e (s : store) col :
  write_event e s !! col =
  if written col [e] then Some (bulkWrite (ops_for col [e]) (coll s col))
  else s !! col.
Proof.
  unfold written, ops_for. cbn [existsb flat_map]. rewrite orb_false_r, app_nil_r.
  destruct e as [| c op | c ops |]; cbn [write_event]; try reflexivity.
  - unfold on_collection. destruct (String.eqb_spec c col) as [->|Hne].
    + now rewrite lookup_insert_eq.
    + now rewrite lookup_insert_ne.
  - unfold on_collection. destruct (String.eqb_spec c col) as [->|Hne].
    + now rewrite lookup_insert_eq.
    + now rewrite lookup_insert_ne.
Qed.

Lemma coll_write_event e (s : store) col :
  coll (write_event e s) col = bulkWrite (ops_for col [e]) (coll s col).
Proof.
  unfold coll at 1. rewrite lookup_write_event.
  destruct (written col [e]) eqn:Hw; [reflexivity|].
  now rewrite (written_false_ops_for _ _ Hw).
Qed.

(** A partition after a sequence of writes: the operations sent to it,
    applied in order. *)
Lemma coll_replay evs : forall (s : store) col,
  coll (replay evs s) col = bulkWrite (ops_for col evs) (coll s col).
Proof.
  induction evs as [|e evs IH]; intros s col; [reflexivity|].
  change (e :: evs) with ([e] ++ evs).
  rewrite replay_app, ops_for_app, bulkWrite_app, IH.
  f_equal. apply coll_write_event.
Qed.

Lemma lookup_replay evs : forall (s : store) col,
  replay evs s !! col =
  if written col evs then Some (coll (replay evs s) col) else s !! col.
Proof.
  induction evs as [|e evs IH]; intros s col; [reflexivity|].
  change (e :: evs) with ([e] ++ evs).
  rewrite replay_app, written_app.
  change (replay [e] s) with (write_event e s).
  unfold coll. rewrite !IH.
  destruct (written col evs); [now rewrite orb_true_r|].
  rewrite orb_false_r, lookup_write_event.
  destruct (written col [e]) eqn:Hw; reflexivity.
Qed.

Lemma keyed_ops_for col evs :
  Forall keyed_event evs -> Forall (keyed_op (key_fields col)) (ops_for col evs).
Proof.
  unfold ops_for. induction 1 as [|e evs He _ IH]; [constructor|].
  cbn [flat_map]. apply Forall_app. split; [|assumption].
  destruct e as [| c op | c ops |]; try constructor.
  - destruct (String.eqb_spec c col) as [->|]; constructor; [exact He | constructor].
  - destruct (String.eqb_spec c col) as [->|]; [exact He | constructor].
Qed.

(** The same keyed writes sent a second time leave the store as the first
    time left it. *)
Lemma replay_idem evs (s : store) :
  Forall keyed_event evs -> replay evs (replay evs s) = replay evs s.
Proof.
  intros Hevs. apply map_eq. intros col.
  rewrite (lookup_replay evs (replay evs s)), (lookup_replay evs s).
  destruct (written col evs); [|reflexivity].
  f_equal. rewrite (coll_replay evs (replay evs s)), (coll_replay evs s).
  apply (bulkWrite_idem (key_fields col)). now apply keyed_ops_for.
Qed.

Lemma replay_unique_keys evs (s : store) :
  Forall keyed_event evs -> store_unique_keys s ->
  store_unique_keys (replay evs s).
Proof.
  intros Hevs Hs col. rewrite coll_replay.
  apply unique_keys_bulkWrite; [now apply keyed_ops_for | apply Hs].
Qed.

End Replay.

(** ** Computations determined by the remote *)

Section RemoteDetermined.
Context (api : string -> list (string * value) -> response).

Lemma run_shape_Ret {A} (a : A) evs :
  run_shape api (Ret a) evs -> Forall (fetch_ok api) evs.
Proof. intros [H | ? ? ? ? ? _ _ _ H]; [assumption | discriminate]. Qed.

Lemma run_shape_Diverge {A} evs :
  run_shape api (@Diverge A) evs -> Forall (fetch_ok api) evs.
Proof. intros [H | ? ? ? ? ? _ _ _ H]; [assumption | discriminate]. Qed.

Lemma run_shape_Throw {A B} e evs :
  run_shape api (@Throw A e) evs -> run_shape api (@Throw B e) evs.
Proof.
  intros [H | evs' url params status statusText -> Hok Hapi [= ->]].
  - apply shape_clean. exact H.
  - eapply shape_fetch_error; [reflexivity | eassumption | eassumption | reflexivity].
Qed.

Lemma run_shape_app {A} (r : outcome A) evs1 evs2 :
  Forall (fetch_ok api) evs1 -> run_shape api r evs2 ->
  run_shape api r (evs1 ++ evs2).
Proof.
  intros H1 [H | evs' url params status statusText -> Hok Hapi ->].
  - apply shape_clean, Forall_app. now split.
  - eapply shape_fetch_error; [apply app_assoc | | eassumption | reflexivity].
    apply Forall_app. now split.
Qed.

Lemma rd_ext {A} (m m' : M A) :
  (forall w, m w = m' w) -> remote_determined api m' -> remote_determined api m.
Proof.
  intros Hext (r & evs & Hk & Hsh & Hrun). exists r, evs.
  repeat split; try assumption. intros w s Hdb. rewrite Hext. now apply Hrun.
Qed.

Lemma rd_pure {A} (r : outcome A) : remote_determined api (fun w => (r, w)).
Proof.
  exists r, []. repeat split; [constructor | now apply shape_clean |].
  intros [d t c] s Hdb. simpl in Hdb. subst d. simpl. now rewrite app_nil_r.
Qed.

Lemma rd_ret {A} (a : A) : remote_determined api (mret a).
Proof. apply (rd_pure (Ret a)). Qed.

Lemma rd_throw {A} e : remote_determined api (@throw A e).
Proof. apply (rd_pure (Throw e)). Qed.

Lemma rd_diverge {A} : remote_determined api (@diverge A).
Proof. apply (rd_pure Diverge). Qed.

Lemma rd_lift {A} (r : result A) : remote_determined api (lift r).
Proof. destruct r; [apply rd_ret | apply rd_throw]. Qed.

Lemma rd_bind {A B} (m : M A) (f : A -> M B) :
  remote_determined api m ->
  (forall a, remote_determined api (f a)) ->
  remote_determined api (m ≫= f).
Proof.
  intros (r1 & evs1 & Hk1 & Hsh1 & Hrun1) Hf.
  destruct r1 as [a | e |].
  - destruct (Hf a) as (r2 & evs2 & Hk2 & Hsh2 & Hrun2).
    exists r2, (evs1 ++ evs2). split; [|split].
    + apply Forall_app. now split.
    + apply run_shape_app; [now apply (run_shape_Ret a) | assumption].
    + intros w s Hdb. rewrite (bind_Ret _ _ _ _ _ (Hrun1 w s Hdb)).
      rewrite (Hrun2 (World (Some (replay evs1 s)) (trace w ++ evs1) (clock_reads w))
                 (replay evs1 s) eq_refl). cbn [trace clock_reads].
      now rewrite replay_app, app_assoc.
  - exists (Throw e), evs1. split; [|split]; [assumption | now apply (run_shape_Throw (A:=A)) |].
    intros w s Hdb. now rewrite (bind_Throw _ _ _ _ _ (Hrun1 w s Hdb)).
  - exists Diverge, evs1. split; [|split]; [assumption | |].
    + apply shape_clean. now apply (run_shape_Diverge (A:=A)).
    + intros w s Hdb. now rewrite (bind_Diverge _ _ _ _ (Hrun1 w s Hdb)).
Qed.

Lemma rd_getDB : remote_determined api getDB.
Proof.
  exists (Ret tt), []. repeat split; [constructor | apply shape_clean; constructor |].
  intros [d t c] s Hdb. simpl in Hdb. subst d. unfold getDB. simpl.
  now rewrite app_nil_r.
Qed.

Lemma rd_console_log l : remote_determined api (console_log l).
Proof.
  exists (Ret tt), [ELog l].
  repeat split; [repeat constructor | apply shape_clean; repeat constructor |].
  intros w s Hdb. unfold console_log, emit. now rewrite Hdb.
Qed.

Lemma rd_store_write e :
  is_write e = true -> keyed_event e -> remote_determined api (store_write e).
Proof.
  intros Hw Hk. exists (Ret tt), [e]. split; [|split].
  - now repeat constructor.
  - apply shape_clean. repeat constructor. now destruct e.
  - intros w s Hdb. unfold store_write. now rewrite Hdb.
Qed.

Lemma rd_paginate fuel url params : forall page results,
  remote_determined api (paginate api fuel url params page results).
Proof.
  induction fuel as [|fuel IH]; intros page results; [apply rd_diverge|].
  cbn [paginate].
  set (e0 := EFetch url (obj_set "page" (VNum page) params)).
  destruct (api url (obj_set "page" (VNum page) params))
    as [status statusText | [|x data]] eqn:Hapi.
  - exists (Throw (GitLabApiError status statusText url)), [e0].
    split; [|split]; [repeat constructor | |].
    + now apply (shape_fetch_error api _ _ [] url
                   (obj_set "page" (VNum page) params) status statusText).
    + intros w s Hdb. rewrite bind_run. unfold fetch. rewrite Hapi.
      unfold throw, emit. now rewrite Hdb.
  - exists (Ret results), [e0]. split; [|split]; [repeat constructor | |].
    + apply shape_clean. repeat constructor. now exists [].
    + intros w s Hdb. rewrite bind_run. unfold fetch. rewrite Hapi.
      unfold emit. cbn. now rewrite Hdb.
  - destruct (IH (page + 1)%Z (results ++ x :: data)) as (r & evs & Hk & Hsh & Hrun).
    exists r, (e0 :: evs). split; [|split].
    + constructor; [exact I | assumption].
    + apply (run_shape_app r [e0] evs); [|assumption].
      repeat constructor. now exists (x :: data).
    + intros w s Hdb. rewrite bind_run. unfold fetch. rewrite Hapi.
      cbv beta iota. fold e0.
      rewrite (Hrun (emit e0 w) s Hdb). unfold emit. cbn [trace clock_reads].
      rewrite <- app_assoc. reflexivity.
Qed.

Lemma rd_paginatedGet fuel url params :
  remote_determined api (paginatedGet api fuel url params).
Proof. apply rd_paginate. Qed.

Lemma rd_for_of {A} (xs : list A) (body : A -> M unit) :
  (forall x, remote_determined api (body x)) ->
  remote_determined api (for_of xs body).
Proof.
  intros Hbody. induction xs as [|x xs IH]; [apply rd_ret|].
  cbn [for_of]. apply rd_bind; [apply Hbody | intros _; apply IH].
Qed.

End RemoteDetermined.

(** ** The syncers send keyed upserts *)

(** Runs a mapping function in hypothesis [H] through its property
    reads: each either returns or ends the mapping with its exception. *)
Ltac run_result H :=
  cbn [mbind result_bind mret result_ret] in H;
  repeat match type of H with
         | context [get_prop ?v ?k] =>
             destruct (get_prop v k) as [?|?];
             cbn [mbind result_bind mret result_ret] in H;
             [|discriminate H]
         end.

Section KeyedOps.

Ltac keyed_tac :=
  split;
  [ cbn [op_filter]; rewrite ?dom_insert_L, ?dom_singleton_L;
    cbn [list_to_set foldr]; set_solver
  | cbn [op_filter op_set]; rewrite <- ?insert_empty;
    repeat apply insert_mono; apply map_empty_subseteq ].

Lemma array_map_Forall {A B} (f : A -> result B) (P : B -> Prop) xs : forall ys,
  (forall x y, f x = Ok y -> P y) ->
  array_map f xs = Ok ys -> Forall P ys.
Proof.
  induction xs as [|x xs IH]; intros ys Hf; cbn [array_map].
  - intros [= <-]. constructor.
  - destruct (f x) as [y|e] eqn:Hx; [|discriminate].
    destruct (array_map f xs) as [ys'|e]; [|discriminate].
    intros [= <-]. constructor; [now apply (Hf x) | now apply IH].
Qed.

Lemma length_array_map {A B} (f : A -> result B) xs : forall ys,
  array_map f xs = Ok ys -> length ys = length xs.
Proof.
  induction xs as [|x xs IH]; intros ys; cbn [array_map].
  - now intros [= <-].
  - destruct (f x); [|discriminate].
    destruct (array_map f xs) as [ys'|e]; [|discriminate].
    intros [= <-]. simpl. now rewrite (IH ys').
Qed.

Lemma project_op_keyed project doc :
  project_doc project = Ok doc -> keyed_op (key_fields "projects") (project_op doc).
Proof.
  unfold project_doc. intros H. run_result H. injection H as <-.
  unfold project_op. rewrite lookup_insert_eq. cbn [default from_option id].
  keyed_tac.
Qed.

Lemma member_op_keyed projectId m op :
  member_op projectId m = Ok op -> keyed_op (key_fields "members") op.
Proof.
  unfold member_op. intros H. run_result H. injection H as <-. keyed_tac.
Qed.

Lemma commit_op_keyed projectId c op :
  commit_op projectId c = Ok op -> keyed_op (key_fields "commits") op.
Proof.
  unfold commit_op. intros H. run_result H. injection H as <-. keyed_tac.
Qed.

Lemma merge_request_op_keyed projectId mr op :
  merge_request_op projectId mr = Ok op ->
  keyed_op (key_fields "merge_requests") op.
Proof.
  unfold merge_request_op. intros H. run_result H. injection H as <-. keyed_tac.
Qed.

Lemma issue_op_keyed projectId issue op :
  issue_op projectId issue = Ok op -> keyed_op (key_fields "issues") op.
Proof.
  unfold issue_op. intros H. run_result H.
  destruct (issue_assignees issue) as [?|?];
    cbn [mbind result_bind mret result_ret] in H; [|discriminate H].
  run_result H. injection H as <-. keyed_tac.
Qed.

End KeyedOps.

(** Every operation of a syncer names the project it was called for. *)

Section ProjectOps.

Lemma member_op_of_project projectId m op :
  member_op projectId m = Ok op -> of_project projectId op.
Proof.
  unfold member_op. intros H. run_result H. injection H as <-.
  unfold of_project. cbn [op_filter]. now simplify_map_eq.
Qed.

Lemma commit_op_of_project projectId c op :
  commit_op projectId c = Ok op -> of_project projectId op.
Proof.
  unfold commit_op. intros H. run_result H. injection H as <-.
  unfold of_project. cbn [op_filter]. now simplify_map_eq.
Qed.

Lemma merge_request_op_of_project projectId mr op :
  merge_request_op projectId mr = Ok op -> of_project projectId op.
Proof.
  unfold merge_request_op. intros H. run_result H. injection H as <-.
  unfold of_project. cbn [op_filter]. now simplify_map_eq.
Qed.

Lemma issue_op_of_project projectId issue op :
  issue_op projectId issue = Ok op -> of_project projectId op.
Proof.
  unfold issue_op. intros H. run_result H.
  destruct (issue_assignees issue) as [?|?];
    cbn [mbind result_bind mret result_ret] in H; [|discriminate H].
  run_result H. injection H as <-.
  unfold of_project. cbn [op_filter]. now simplify_map_eq.
Qed.

Lemma project_op_of_project project pid doc :
  get_prop project "id" = Ok pid -> project_doc project = Ok doc ->
  of_project pid (project_op doc).
Proof.
  unfold project_doc. intros Hid H. rewrite Hid in H. run_result H.
  injection H as <-. unfold of_project, project_op. cbn [op_filter].
  now simplify_map_eq.
Qed.

End ProjectOps.

Section ServiceDetermined.
Context (GITLAB_URL : string) (api : string -> list (string * value) -> response).

Lemma rd_sync_listing fuel url params col to_op :
  (forall x op, to_op x = Ok op -> keyed_op (key_fields col) op) ->
  remote_determined api (sync_listing api fuel url params col to_op).
Proof.
  intros Hkeyed. unfold sync_listing.
  apply rd_bind; [apply rd_getDB | intros _].
  apply rd_bind; [apply rd_paginatedGet | intros records].
  destruct records as [|x records]; [apply rd_ret|].
  destruct (array_map to_op (x :: records)) as [ops|e] eqn:Hops.
  - apply (rd_ext api _ (db_bulkWrite col ops;; mret (length ops)));
      [reflexivity|].
    apply rd_bind; [|intros _; apply rd_ret].
    apply rd_store_write; [reflexivity|].
    apply (array_map_Forall to_op _ _ ops Hkeyed Hops).
  - apply (rd_ext api _ (throw e)); [reflexivity | apply rd_throw].
Qed.

Lemma rd_syncMembers fuel projectId :
  remote_determined api (syncMembers GITLAB_URL api fuel projectId).
Proof. apply rd_sync_listing, member_op_keyed. Qed.

Lemma rd_syncCommits fuel projectId :
  remote_determined api (syncCommits GITLAB_URL api fuel projectId).
Proof. apply rd_sync_listing, commit_op_keyed. Qed.

Lemma rd_syncMergeRequests fuel projectId :
  remote_determined api (syncMergeRequests GITLAB_URL api fuel projectId).
Proof. apply rd_sync_listing, merge_request_op_keyed. Qed.

Lemma rd_syncIssues fuel projectId :
  remote_determined api (syncIssues GITLAB_URL api fuel projectId).
Proof. apply rd_sync_listing, issue_op_keyed. Qed.

Lemma rd_syncProject fuel project :
  remote_determined api (syncProject GITLAB_URL api fuel project).
Proof.
  unfold syncProject.
  apply rd_bind; [apply rd_lift | intros pid].
  apply rd_bind; [apply rd_lift | intros name].
  apply rd_bind; [apply rd_console_log | intros _].
  destruct (project_doc project) as [doc|e] eqn:Hdoc.
  - apply (rd_ext api _
      (db_updateOne "projects" (project_op doc);;
       console_log LogProjectSaved;;
       n ← syncMembers GITLAB_URL api fuel pid;
       console_log (LogMembers n);;
       n ← syncCommits GITLAB_URL api fuel pid;
       console_log (LogCommits n);;
       n ← syncMergeRequests GITLAB_URL api fuel pid;
       console_log (LogMergeRequests n);;
       n ← syncIssues GITLAB_URL api fuel pid;
       console_log (LogIssues n))); [reflexivity|].
    apply rd_bind;
      [apply rd_store_write; [reflexivity | now apply (project_op_keyed project)]
      | intros _].
    apply rd_bind; [apply rd_console_log | intros _].
    apply rd_bind; [apply rd_syncMembers | intros n1].
    apply rd_bind; [apply rd_console_log | intros _].
    apply rd_bind; [apply rd_syncCommits | intros n2].
    apply rd_bind; [apply rd_console_log | intros _].
    apply rd_bind; [apply rd_syncMergeRequests | intros n3].
    apply rd_bind; [apply rd_console_log | intros _].
    apply rd_bind; [apply rd_syncIssues | intros n4].
    apply rd_console_log.
  - apply (rd_ext api _ (throw e)); [reflexivity | apply rd_throw].
Qed.

Lemma rd_syncProjects fuel :
  remote_determined api (syncProjects GITLAB_URL api fuel).
Proof.
  unfold syncProjects.
  apply rd_bind; [apply rd_getDB | intros _].
  apply rd_bind; [apply rd_paginatedGet | intros projects].
  apply rd_bind; [apply rd_console_log | intros _].
  apply rd_bind; [|intros _; apply rd_ret].
  apply rd_for_of. intros project. apply rd_syncProject.
Qed.

(** Without a store, [syncProjects] throws at once. *)
Lemma syncProjects_disconnected fuel w :
  db w = None ->
  syncProjects GITLAB_URL api fuel w = (Throw DatabaseNotConnected, w).
Proof.
  intros Hdb. unfold syncProjects. rewrite bind_run. unfold getDB.
  now rewrite Hdb.
Qed.

End ServiceDetermined.

(** ** Runs of the orchestrator *)

Section Runs.
Context (GITLAB_URL : string) (api : string -> list (string * value) -> response)
        (now : nat -> Z).

(** A computation determined by the remote runs, from any connected
    world, as it runs from the fresh one. *)
Lemma rd_canonical {A} (m : M A) w s :
  remote_determined api m -> db w = Some s ->
  m w = (outcome_of m,
         World (Some (replay (events_of m) s)) (trace w ++ events_of m)
           (clock_reads w)).
Proof.
  intros (r & evs & _ & _ & Hrun) Hdb. unfold outcome_of, events_of.
  rewrite (Hrun fresh ∅ eq_refl), (Hrun w s Hdb). reflexivity.
Qed.

Lemma rd_events_keyed {A} (m : M A) :
  remote_determined api m -> Forall keyed_event (events_of m).
Proof.
  intros (r & evs & Hk & _ & Hrun). unfold events_of.
  now rewrite (Hrun fresh ∅ eq_refl).
Qed.

Lemma rd_shape {A} (m : M A) :
  remote_determined api m -> run_shape api (outcome_of m) (events_of m).
Proof.
  intros (r & evs & _ & Hsh & Hrun). unfold outcome_of, events_of.
  now rewrite (Hrun fresh ∅ eq_refl).
Qed.

Lemma runSync_entered fuel w :
  runSync GITLAB_URL api now fuel w =
  try_catch
    (projectCount ← syncProjects GITLAB_URL api fuel;
     getDB;;
     console_log LogSummaryHeader;;
     for_of summary_collections (fun col =>
       count ← db_countDocuments col;
       console_log (LogCollection col count));;
     endTime ← date_now now;
     console_log (LogCompleted projectCount
                    (endTime - now (clock_reads w))%Z))
    (fun err => console_log (LogFailed (message err)))
    (entered now w).
Proof. reflexivity. Qed.

Lemma runSync_thrown fuel w e w1 :
  syncProjects GITLAB_URL api fuel (entered now w) = (Throw e, w1) ->
  runSync GITLAB_URL api now fuel w =
  (Ret tt, emit (ELog (LogFailed (message e))) w1).
Proof.
  intros H. rewrite runSync_entered. unfold try_catch.
  rewrite bind_run, H. reflexivity.
Qed.

Lemma runSync_diverged fuel w w1 :
  syncProjects GITLAB_URL api fuel (entered now w) = (Diverge, w1) ->
  runSync GITLAB_URL api now fuel w = (Diverge, w1).
Proof.
  intros H. rewrite runSync_entered. unfold try_catch.
  rewrite bind_run, H. reflexivity.
Qed.

Lemma runSync_returned fuel w n w1 s1 :
  syncProjects GITLAB_URL api fuel (entered now w) = (Ret n, w1) ->
  db w1 = Some s1 ->
  runSync GITLAB_URL api now fuel w =
  (Ret tt,
   World (Some s1)
     (trace w1 ++ ELog LogSummaryHeader :: summary_lines s1
        ++ [ELog (LogCompleted n (now (clock_reads w1) - now (clock_reads w))%Z)])
     (S (clock_reads w1))).
Proof.
  intros H Hdb. rewrite runSync_entered. unfold try_catch.
  rewrite bind_run, H.
  destruct w1 as [d t c]. simpl in Hdb. subst d.
  cbn [for_of summary_collections].
  unfold mbind, M_bind, mret, M_ret, getDB, console_log, db_countDocuments,
    date_now, emit.
  cbn. rewrite <- !app_assoc. reflexivity.
Qed.

End Runs.

Section Orchestrator.
Context (GITLAB_URL : string) (api : string -> list (string * value) -> response)
        (now : nat -> Z).

Lemma bind_canonical {A B} (m : M A) (f : A -> M B) a w s :
  remote_determined api m -> outcome_of m = Ret a -> db w = Some s ->
  (m ≫= f) w =
  f a (World (Some (replay (events_of m) s)) (trace w ++ events_of m)
         (clock_reads w)).
Proof.
  intros Hrd Hout Hdb. apply bind_Ret.
  rewrite (rd_canonical api m w s Hrd Hdb), Hout. reflexivity.
Qed.

Lemma bind_mret {A B} (a : A) (f : A -> M B) w : (mret a ≫= f) w = f a w.
Proof. reflexivity. Qed.

Lemma syncProjects_canonical fuel w s :
  db w = Some s ->
  syncProjects GITLAB_URL api fuel (entered now w) =
  (outcome_of (syncProjects GITLAB_URL api fuel),
   World (Some (replay (events_of (syncProjects GITLAB_URL api fuel)) s))
     (trace (entered now w) ++ events_of (syncProjects GITLAB_URL api fuel))
     (S (S (clock_reads w)))).
Proof.
  intros Hdb.
  now rewrite (rd_canonical api _ (entered now w) s
                 (rd_syncProjects GITLAB_URL api fuel) Hdb).
Qed.

(** On a connected store a run changes the store by the writes of
    [syncProjects], which the remote determines. *)
Lemma runSync_db_connected fuel w s :
  db w = Some s ->
  db (runSync GITLAB_URL api now fuel w).2 =
  Some (replay (events_of (syncProjects GITLAB_URL api fuel)) s).
Proof.
  intros Hdb. pose proof (syncProjects_canonical fuel w s Hdb) as Hrun.
  destruct (outcome_of (syncProjects GITLAB_URL api fuel)) as [n|e|].
  - now rewrite (runSync_returned GITLAB_URL api now fuel w n _ _ Hrun eq_refl).
  - now rewrite (runSync_thrown GITLAB_URL api now fuel w e _ Hrun).
  - now rewrite (runSync_diverged GITLAB_URL api now fuel w _ Hrun).
Qed.

Lemma runSync_disconnected fuel w :
  db w = None ->
  runSync GITLAB_URL api now fuel w =
  (Ret tt,
   emit (ELog (LogFailed (message DatabaseNotConnected))) (entered now w)).
Proof.
  intros Hdb. apply runSync_thrown. now apply syncProjects_disconnected.
Qed.

(** C1. For a fixed remote snapshot, running the sync a second time
    leaves the store exactly as the first run left it: the same records in
    every partition, with the same fields, none added. *)
Theorem sync_idempotent fuel w :
  let once := (runSync GITLAB_URL api now fuel w).2 in
  let twice := (runSync GITLAB_URL api now fuel once).2 in
  db twice = db once /\
  (forall s1 s2 col, db once = Some s1 -> db twice = Some s2 ->
     coll s2 col = coll s1 col /\
     countDocuments (coll s2 col) = countDocuments (coll s1 col)).
Proof.
  intros once twice.
  assert (Heq : db twice = db once).
  { subst once twice. destruct (db w) as [s|] eqn:Hdb.
    - rewrite (runSync_db_connected fuel _ _
                 (runSync_db_connected fuel w s Hdb)).
      rewrite (runSync_db_connected fuel w s Hdb). f_equal.
      apply replay_idem, (rd_events_keyed api), rd_syncProjects.
    - rewrite (runSync_disconnected fuel w Hdb). cbn [snd].
      now rewrite runSync_disconnected by exact Hdb. }
  split; [exact Heq|].
  intros s1 s2 col H1 H2. rewrite H1 in Heq. rewrite H2 in Heq.
  injection Heq as ->. now split.
Qed.

Lemma syncProjects_count fuel n :
  outcome_of (syncProjects GITLAB_URL api fuel) = Ret n ->
  exists projects,
    outcome_of (paginatedGet api fuel (GITLAB_URL +:+ "/api/v4/projects")
                  [("membership", VBool true)]) = Ret projects /\
    n = length projects.
Proof.
  unfold outcome_of, syncProjects. rewrite bind_run. cbn [getDB fresh db].
  rewrite bind_run.
  destruct (paginatedGet api fuel _ _ fresh) as [[projects|e|] w1];
    [|discriminate..].
  intros H. exists projects. split; [reflexivity|].
  rewrite bind_run in H. unfold console_log in H. rewrite bind_run in H.
  destruct (for_of projects (syncProject GITLAB_URL api fuel) _)
    as [[[]|e|] w2]; [|discriminate..].
  now injection H as <-.
Qed.

(** C9. A run that completes writes, after the events of the sync, the
    summary: one line per entity kind with the number of documents in the
    whole partition of the store as the run left it, and the completion
    line with the number of projects listed and the wall-clock time
    elapsed since the run started. *)
Theorem run_summary fuel w s n :
  db w = Some s ->
  outcome_of (syncProjects GITLAB_URL api fuel) = Ret n ->
  let evs := events_of (syncProjects GITLAB_URL api fuel) in
  let s' := replay evs s in
  let elapsed := (now (S (S (clock_reads w))) - now (clock_reads w))%Z in
  runSync GITLAB_URL api now fuel w =
    (Ret tt,
     World (Some s')
       (trace w ++ ELog (LogStart (now (S (clock_reads w)))) :: evs
          ++ ELog LogSummaryHeader :: summary_lines s'
          ++ [ELog (LogCompleted n elapsed)])
       (S (S (S (clock_reads w)))))
  /\ summary_lines s' =
       [ELog (LogCollection "projects" (length (coll s' "projects")));
        ELog (LogCollection "members" (length (coll s' "members")));
        ELog (LogCollection "commits" (length (coll s' "commits")));
        ELog (LogCollection "merge_requests" (length (coll s' "merge_requests")));
        ELog (LogCollection "issues" (length (coll s' "issues")))]
  /\ (exists projects,
        outcome_of (paginatedGet api fuel (GITLAB_URL +:+ "/api/v4/projects")
                      [("membership", VBool true)]) = Ret projects /\
        n = length projects).
Proof.
  intros Hdb Hout evs s' elapsed. split; [|split].
  - pose proof (syncProjects_canonical fuel w s Hdb) as Hrun.
    rewrite Hout in Hrun.
    rewrite (runSync_returned GITLAB_URL api now fuel w n _ _ Hrun eq_refl).
    unfold entered. cbn [trace clock_reads].
    rewrite <- !app_assoc. reflexivity.
  - reflexivity.
  - now apply syncProjects_count.
Qed.

End Orchestrator.

(** ** Failures *)

Section Failures.
Context (GITLAB_URL : string) (api : string -> list (string * value) -> response)
        (now : nat -> Z).

Lemma bind_console_log {B} l (f : unit -> M B) w :
  (console_log l ≫= f) w = f tt (emit (ELog l) w).
Proof. reflexivity. Qed.

Lemma bind_getDB {B} (f : unit -> M B) w s :
  db w = Some s -> (getDB ≫= f) w = f tt w.
Proof. intros H. apply bind_Ret. now apply (getDB_connected w s). Qed.

Lemma bind_store_write {B} e (f : unit -> M B) w s :
  db w = Some s ->
  (store_write e ≫= f) w =
  f tt (World (Some (write_event e s)) (trace w ++ [e]) (clock_reads w)).
Proof. intros H. apply bind_Ret. unfold store_write. now rewrite H. Qed.

(** The loop stops at the first iteration that throws. *)
Lemma for_of_app_Ret {A} (xs ys : list A) (body : A -> M unit) w wA :
  for_of xs body w = (Ret tt, wA) ->
  for_of (xs ++ ys) body w = for_of ys body wA.
Proof.
  revert w. induction xs as [|x xs IH]; intros w; cbn [for_of app].
  - now intros [= <-].
  - rewrite !bind_run. destruct (body x w) as [[[]|e|] w1]; try discriminate.
    apply IH.
Qed.


(** A syncer whose listing cannot be drained throws what the paginator
    threw, in the world the paginator left. *)
Lemma sync_listing_paginator_throw fuel url params col to_op w s e w1 :
  db w = Some s ->
  paginatedGet api fuel url params w = (Throw e, w1) ->
  sync_listing api fuel url params col to_op w = (Throw e, w1).
Proof.
  intros Hdb H. unfold sync_listing. rewrite (bind_getDB _ w s Hdb).
  now apply bind_Throw.
Qed.


Lemma syncProjects_listing_throw fuel w s e w1 :
  db w = Some s ->
  paginatedGet api fuel (GITLAB_URL +:+ "/api/v4/projects")
    [("membership", VBool true)] w = (Throw e, w1) ->
  syncProjects GITLAB_URL api fuel w = (Throw e, w1).
Proof.
  intros Hdb H. unfold syncProjects. rewrite (bind_getDB _ w s Hdb).
  now apply bind_Throw.
Qed.


Lemma state_after_failed t msg : state_after (t ++ [ELog (LogFailed msg)]) = Failed.
Proof. unfold state_after. now rewrite last_snoc. Qed.



End Failures.

(** ** Fetch errors *)

Section FetchErrors.
Context (GITLAB_URL : string) (api : string -> list (string * value) -> response)
        (now : nat -> Z).

(** In a list all of whose elements but one satisfy [P], the one that does
    not is found at one place only. *)
Lemma locate_unique {A} (P : A -> Prop) (l1' : list A) : forall l1 x l2 x' l2',
  l1 ++ x :: l2 = l1' ++ x' :: l2' ->
  Forall P l1' -> Forall P l2' -> ~ P x ->
  l1 = l1' /\ x = x' /\ l2 = l2'.
Proof.
  induction l1' as [|y' l1' IH]; intros l1 x l2 x' l2' Heq H1 H2 Hx.
  - destruct l1 as [|y l1]; simpl in Heq.
    + now injection Heq as -> ->.
    + injection Heq as _ <-. apply Forall_app in H2 as [_ H2].
      inversion H2; subst. contradiction.
  - inversion H1 as [|? ? Hy' H1']; subst.
    destruct l1 as [|y l1]; simpl in Heq.
    + injection Heq as Hy _. subst y'. contradiction.
    + injection Heq as Hy Heq. subst y'.
      destruct (IH l1 x l2 x' l2' Heq H1' H2 Hx) as (-> & -> & ->). auto.
Qed.

Lemma fetch_error_not_ok url params status statusText :
  api url params = HttpError status statusText ->
  ~ fetch_ok api (EFetch url params).
Proof. intros H [data Hd]. congruence. Qed.

Lemma clean_no_fetch_error evs before after url params status statusText :
  Forall (fetch_ok api) evs ->
  evs = before ++ EFetch url params :: after ->
  api url params = HttpError status statusText -> False.
Proof.
  intros Hok -> Hapi. apply Forall_app in Hok as [_ Hok].
  inversion Hok; subst.
  now apply (fetch_error_not_ok url params status statusText).
Qed.

Lemma rd_raises {A} (m : M A) :
  remote_determined api m -> raises_fetch_error api m.
Proof.
  intros Hrd w s before after url params status statusText Hdb Htr Hapi.
  rewrite (rd_canonical api m w s Hrd Hdb) in Htr |- *. cbn [fst snd trace] in *.
  apply app_inv_head in Htr.
  destruct (rd_shape api m Hrd)
    as [Hok | evs' u p st txt Hevs Hok Hup Hout].
  - exfalso. eapply clean_no_fetch_error; eassumption.
  - rewrite Htr in Hevs.
    destruct (locate_unique (fetch_ok api) evs' before (EFetch url params) after
                (EFetch u p) [] Hevs Hok (Forall_nil_2 _)
                (fetch_error_not_ok _ _ _ _ Hapi)) as (_ & [= <- <-] & ->).
    split; [reflexivity|]. rewrite Hout. congruence.
Qed.

Lemma fetch_ok_log l : fetch_ok api (ELog l).
Proof. exact I. Qed.

Lemma Forall_fetch_ok_summary (s : store) : Forall (fetch_ok api) (summary_lines s).
Proof. unfold summary_lines. apply Forall_map, Forall_forall. now intros. Qed.

(** The run as a whole: a fetch answered with an error is followed by the
    failure line and by nothing else. *)
Lemma runSync_fetch_error fuel w before after url params status statusText :
  trace (runSync GITLAB_URL api now fuel w).2
    = trace w ++ before ++ EFetch url params :: after ->
  api url params = HttpError status statusText ->
  after = [ELog (LogFailed (message (GitLabApiError status statusText url)))]
  /\ (runSync GITLAB_URL api now fuel w).1 = Ret tt.
Proof.
  intros Htr Hapi. destruct (db w) as [s|] eqn:Hdb.
  - pose proof (syncProjects_canonical GITLAB_URL api now fuel w s Hdb) as Hrun.
    pose proof (rd_shape api _ (rd_syncProjects GITLAB_URL api fuel)) as Hsh.
    set (evs := events_of (syncProjects GITLAB_URL api fuel)) in *.
    destruct (outcome_of (syncProjects GITLAB_URL api fuel)) as [n|e|].
    + exfalso.
      rewrite (runSync_returned GITLAB_URL api now fuel w n _ _ Hrun eq_refl)
        in Htr.
      cbn [snd trace entered] in Htr. rewrite <- !app_assoc in Htr.
      apply app_inv_head in Htr.
      eapply (clean_no_fetch_error _ before after); [|exact Htr|exact Hapi].
      apply Forall_app; split; [repeat constructor|].
      apply Forall_app; split; [now apply (run_shape_Ret api n)|].
      constructor; [exact I|].
      apply Forall_app; split; [apply Forall_fetch_ok_summary|repeat constructor].
    + rewrite (runSync_thrown GITLAB_URL api now fuel w e _ Hrun) in Htr |- *.
      cbn [fst snd trace entered emit] in Htr |- *.
      rewrite <- !app_assoc in Htr. apply app_inv_head in Htr.
      destruct Hsh as [Hok | evs' u p st txt Hevs Hok Hup Hout].
      * exfalso.
        eapply (clean_no_fetch_error _ before after); [|exact Htr|exact Hapi].
        apply Forall_app; split; [repeat constructor|].
        apply Forall_app; split; [assumption|repeat constructor].
      * rewrite Hevs in Htr. cbn [app] in Htr. rewrite <- app_assoc in Htr.
        cbn [app] in Htr. rewrite app_comm_cons in Htr.
        destruct (locate_unique (fetch_ok api) _ before (EFetch url params) after
                    (EFetch u p) _ (eq_sym Htr)
                    (Forall_cons_2 _ _ _ (fetch_ok_log _) Hok)
                    (Forall_cons_2 _ _ _ (fetch_ok_log _) (Forall_nil_2 _))
                    (fetch_error_not_ok _ _ _ _ Hapi)) as (_ & [= <- <-] & ->).
        injection Hout as ->. split; [|reflexivity]. do 3 f_equal. congruence.
    + exfalso.
      rewrite (runSync_diverged GITLAB_URL api now fuel w _ Hrun) in Htr.
      cbn [snd trace entered] in Htr. rewrite <- !app_assoc in Htr.
      apply app_inv_head in Htr.
      eapply (clean_no_fetch_error _ before after); [|exact Htr|exact Hapi].
      apply Forall_app; split; [repeat constructor|].
      now apply (run_shape_Diverge api (A:=nat)).
  - exfalso. rewrite (runSync_disconnected GITLAB_URL api now fuel w Hdb) in Htr.
    cbn [snd trace entered emit] in Htr. rewrite <- !app_assoc in Htr.
    apply app_inv_head in Htr.
    eapply (clean_no_fetch_error _ before after); [|exact Htr|exact Hapi].
    repeat constructor.
Qed.

End FetchErrors.

Section FetchErrorTheorem.
Context (GITLAB_URL : string) (api : string -> list (string * value) -> response)
        (now : nat -> Z).

Lemma paginatedGet_error url params (pages : list (list value)) fuel w
    status statusText :
  Forall (fun p => p <> []) pages ->
  (forall (i : nat) p, pages !! i = Some p ->
     api url (page_request params (1 + Z.of_nat i)) = HttpOk p) ->
  api url (page_request params (1 + Z.of_nat (length pages)))
    = HttpError status statusText ->
  (length pages < fuel)%nat ->
  paginatedGet api fuel url params w =
  (Throw (GitLabApiError status statusText url),
   World (db w) (trace w ++ page_fetches url params 1 (S (length pages)))
     (clock_reads w)).
Proof.
  intros Hne Hapi Hlast Hfuel.
  unfold paginatedGet. fold (page_request params 1).
  rewrite (paginate_reaches api url params pages) by assumption.
  destruct (fuel - length pages)%nat as [|fuel'] eqn:E; [lia|].
  rewrite (paginate_last_error api fuel' url params _ _ _ status statusText)
    by assumption.
  unfold emit. cbn [db trace clock_reads].
  rewrite <- app_assoc, page_fetches_snoc. reflexivity.
Qed.

(** C7. A page fetch answered with a non-success response makes the
    paginator throw the fetch error carrying the URL, the status and the
    status text, after which it fetches nothing more; the four entity
    syncers and [syncProjects] do not catch it (the failing fetch is their
    last interaction and they throw the same error); and in a run it is
    followed by the failure line alone, the run ending in [Failed]. *)
Theorem fetch_error_fatal fuel :
  (forall url params (pages : list (list value)) status statusText w,
     Forall (fun p => p <> []) pages ->
     (forall (i : nat) p, pages !! i = Some p ->
        api url (page_request params (1 + Z.of_nat i)) = HttpOk p) ->
     api url (page_request params (1 + Z.of_nat (length pages)))
       = HttpError status statusText ->
     (length pages < fuel)%nat ->
     paginatedGet api fuel url params w =
     (Throw (GitLabApiError status statusText url),
      World (db w) (trace w ++ page_fetches url params 1 (S (length pages)))
        (clock_reads w)))
  /\ (forall url params, raises_fetch_error api (paginatedGet api fuel url params))
  /\ (forall projectId,
        raises_fetch_error api (syncMembers GITLAB_URL api fuel projectId) /\
        raises_fetch_error api (syncCommits GITLAB_URL api fuel projectId) /\
        raises_fetch_error api (syncMergeRequests GITLAB_URL api fuel projectId) /\
        raises_fetch_error api (syncIssues GITLAB_URL api fuel projectId))
  /\ raises_fetch_error api (syncProjects GITLAB_URL api fuel)
  /\ (forall w before after url params status statusText,
        trace (runSync GITLAB_URL api now fuel w).2
          = trace w ++ before ++ EFetch url params :: after ->
        api url params = HttpError status statusText ->
        after = [ELog (LogFailed (message (GitLabApiError status statusText url)))]
        /\ (runSync GITLAB_URL api now fuel w).1 = Ret tt
        /\ state_after (trace (runSync GITLAB_URL api now fuel w).2) = Failed).
Proof.
  split; [|split; [|split; [|split]]].
  - intros *. apply paginatedGet_error.
  - intros url params. apply rd_raises, rd_paginatedGet.
  - intros projectId. split; [|split; [|split]]; apply rd_raises.
    + apply rd_syncMembers.
    + apply rd_syncCommits.
    + apply rd_syncMergeRequests.
    + apply rd_syncIssues.
  - apply rd_raises, rd_syncProjects.
  - intros w before after url params status statusText Htr Hapi.
    destruct (runSync_fetch_error GITLAB_URL api now fuel w before after url
                params status statusText Htr Hapi) as [-> Hret].
    repeat split; [exact Hret|].
    rewrite Htr, !app_assoc.
    change (?t ++ [?a; ?b]) with (t ++ [a] ++ [b]).
    rewrite app_assoc. apply state_after_failed.
Qed.

End FetchErrorTheorem.

(** ** A run aborted in the middle of a project *)

Section FatalAbort.
Context (GITLAB_URL : string) (api : string -> list (string * value) -> response)
        (now : nat -> Z).

Lemma paginate_only_fetches fuel url params : forall page results w,
  exists evs,
    (paginate api fuel url params page results w).2
      = World (db w) (trace w ++ evs) (clock_reads w) /\
    Forall (fun e => writes_to e = None) evs.
Proof.
  induction fuel as [|fuel IH]; intros page results w.
  - exists []. split; [|constructor]. cbn. rewrite app_nil_r. now destruct w.
  - cbn [paginate]. rewrite bind_run. unfold fetch.
    destruct (api url (obj_set "page" (VNum page) params))
      as [status statusText | [|x data]].
    + eexists [_]. split; [reflexivity|]. now repeat constructor.
    + eexists [_]. split; [reflexivity|]. now repeat constructor.
    + destruct (IH (page + 1)%Z (results ++ x :: data)
                  (emit (EFetch url (obj_set "page" (VNum page) params)) w))
        as (evs & Hevs & Hw).
      eexists (_ :: evs). split.
      * rewrite Hevs. unfold emit. cbn [db trace clock_reads].
        now rewrite <- app_assoc.
      * constructor; [reflexivity | assumption].
Qed.

(** A syncer writes to its own partition only, and not at all when it
    throws. *)
Lemma sync_listing_writes fuel url params col to_op w :
  exists evs,
    trace (sync_listing api fuel url params col to_op w).2 = trace w ++ evs /\
    Forall (fun e => writes_to e = None \/ writes_to e = Some col) evs /\
    (forall e, (sync_listing api fuel url params col to_op w).1 = Throw e ->
               Forall (fun ev => writes_to ev = None) evs).
Proof.
  unfold sync_listing. rewrite bind_run. unfold getDB.
  destruct (db w) as [s|] eqn:Hdb.
  2:{ exists []. split; [now rewrite app_nil_r|]. split; constructor. }
  rewrite bind_run. unfold paginatedGet.
  destruct (paginate_only_fetches fuel url
              (obj_set "page" (VNum 1) (obj_set "per_page" (VNum 100) params))
              1%Z [] w) as (evs & Hevs & Hw).
  assert (Hw' : Forall (fun e => writes_to e = None \/ writes_to e = Some col) evs)
    by (eapply Forall_impl; [exact Hw | intros ? ?; now left]).
  destruct (paginate api fuel url _ 1%Z [] w) as [[records|e|] w1];
    cbn [snd] in Hevs; subst w1.
  - destruct records as [|x records].
    + exists evs. now repeat split.
    + destruct (array_map to_op (x :: records)) as [ops|e].
      * exists (evs ++ [EBulkWrite col ops]). split; [|split].
        -- cbn. unfold db_bulkWrite, store_write. cbn.
           rewrite Hdb. cbn. now rewrite app_assoc.
        -- apply Forall_app. split; [assumption|].
           apply Forall_cons_2; [now right | constructor].
        -- intros e. cbn. unfold db_bulkWrite, store_write. cbn.
           rewrite Hdb. discriminate.
      * exists evs. now repeat split.
  - exists evs. now repeat split.
  - exists evs. now repeat split.
Qed.

Lemma syncer_events fuel url params col to_op :
  let m := sync_listing api fuel url params col to_op in
  Forall (fun e => writes_to e = None \/ writes_to e = Some col) (events_of m) /\
  (forall e, outcome_of m = Throw e ->
             Forall (fun ev => writes_to ev = None) (events_of m)).
Proof.
  intros m. unfold events_of, outcome_of, m.
  destruct (sync_listing_writes fuel url params col to_op fresh)
    as (evs & -> & H1 & H2).
  now split.
Qed.

(** A listing whose first page cannot be fetched makes its syncer throw
    the fetch error. *)
Lemma syncer_first_page_error fuel url params col to_op status statusText :
  api url (page_request params 1) = HttpError status statusText ->
  outcome_of (sync_listing api (S fuel) url params col to_op)
  = Throw (GitLabApiError status statusText url).
Proof.
  intros Hapi. unfold outcome_of.
  erewrite sync_listing_paginator_throw; [reflexivity | reflexivity |].
  apply (paginatedGet_error api url params [] (S fuel) fresh status statusText).
  - constructor.
  - intros i p Hp. destruct i; discriminate Hp.
  - exact Hapi.
  - cbn. lia.
Qed.

(** The outcome and the interactions of a sequence of two computations. *)
Lemma oe_bind_Ret {A B} (m : M A) (f : A -> M B) a :
  remote_determined api m -> outcome_of m = Ret a ->
  remote_determined api (f a) ->
  outcome_of (m ≫= f) = outcome_of (f a) /\
  events_of (m ≫= f) = events_of m ++ events_of (f a).
Proof.
  intros Hm Hout Hf. unfold outcome_of at 1, events_of at 1.
  rewrite (bind_canonical api m f a fresh ∅ Hm Hout eq_refl).
  erewrite (rd_canonical api (f a)); [| exact Hf | reflexivity].
  split; reflexivity.
Qed.

Lemma oe_bind_Throw {A B} (m : M A) (f : A -> M B) e :
  remote_determined api m -> outcome_of m = Throw e ->
  outcome_of (m ≫= f) = Throw e /\ events_of (m ≫= f) = events_of m.
Proof.
  intros Hm Hout. unfold outcome_of at 1, events_of at 1.
  rewrite (bind_Throw m f fresh e _
             (eq_trans (rd_canonical api m fresh ∅ Hm eq_refl)
                (f_equal (fun r => (r, _)) Hout))).
  split; reflexivity.
Qed.

Ltac rd_auto :=
  cbv beta;
  repeat match goal with
         | |- remote_determined _ (_ ≫= _) => apply rd_bind; [|intros ?]
         | |- remote_determined _ (console_log _) => apply rd_console_log
         | |- remote_determined _ (syncMembers _ _ _ _) => apply rd_syncMembers
         | |- remote_determined _ (syncCommits _ _ _ _) => apply rd_syncCommits
         | |- remote_determined _ (syncMergeRequests _ _ _ _) =>
             apply rd_syncMergeRequests
         | |- remote_determined _ (syncIssues _ _ _ _) => apply rd_syncIssues
         | |- remote_determined _ (mret _) => apply rd_ret
         end.

Lemma rd_syncEntities fuel pid :
  remote_determined api (syncEntities GITLAB_URL api fuel pid).
Proof. unfold syncEntities. rd_auto. Qed.

Ltac oe_ret H :=
  match goal with
  | |- context [outcome_of (?m ≫= ?f)] =>
      let Ho := fresh in
      let He := fresh in
      destruct (oe_bind_Ret m f _ ltac:(rd_auto) H ltac:(rd_auto)) as [Ho He];
      rewrite ?Ho, ?He; clear Ho He; cbv beta
  end.

Ltac oe_log :=
  match goal with
  | |- context [outcome_of (console_log ?l ≫= ?f)] =>
      let Ho := fresh in
      let He := fresh in
      destruct (oe_bind_Ret (console_log l) f tt ltac:(rd_auto) eq_refl
                  ltac:(rd_auto)) as [Ho He];
      rewrite ?Ho, ?He; clear Ho He; cbv beta;
      change (events_of (console_log l)) with [ELog l]
  end.

Ltac oe_throw H :=
  match goal with
  | |- context [outcome_of (?m ≫= ?f)] =>
      let Ho := fresh in
      let He := fresh in
      destruct (oe_bind_Throw m f _ ltac:(rd_auto) H) as [Ho He];
      rewrite ?Ho, ?He; clear Ho He
  end.

Ltac writes_tac :=
  repeat first
    [ apply Forall_app; split
    | apply Forall_cons_2; [cbn; tauto|]
    | apply Forall_nil_2
    | match goal with
      | H : outcome_of ?m = Throw _ |- Forall _ (events_of ?m) =>
          eapply Forall_impl;
          [apply (proj2 (syncer_events _ _ _ _ _) _ H) | cbn beta; tauto]
      | |- Forall _ (events_of ?m) =>
          eapply Forall_impl;
          [apply (proj1 (syncer_events _ _ _ _ _)) | cbn beta; tauto]
      end ].

(** The syncers of a project up to the first that throws: what is written
    goes to the partitions of the syncers before it. *)
Lemma syncEntities_members_throw fuel pid e :
  outcome_of (syncMembers GITLAB_URL api fuel pid) = Throw e ->
  outcome_of (syncEntities GITLAB_URL api fuel pid) = Throw e /\
  Forall (fun ev => writes_to ev = None)
    (events_of (syncEntities GITLAB_URL api fuel pid)).
Proof.
  intros H1. unfold syncEntities. oe_throw H1. split; [reflexivity|].
  unfold syncMembers in *. writes_tac.
Qed.

Lemma syncEntities_commits_throw fuel pid n1 e :
  outcome_of (syncMembers GITLAB_URL api fuel pid) = Ret n1 ->
  outcome_of (syncCommits GITLAB_URL api fuel pid) = Throw e ->
  outcome_of (syncEntities GITLAB_URL api fuel pid) = Throw e /\
  Forall (fun ev => writes_to ev = None \/ writes_to ev = Some "members")
    (events_of (syncEntities GITLAB_URL api fuel pid)).
Proof.
  intros H1 H2. unfold syncEntities. oe_ret H1. oe_log. oe_throw H2.
  split; [reflexivity|].
  unfold syncMembers, syncCommits in *. writes_tac.
Qed.

Lemma syncEntities_merge_requests_throw fuel pid n1 n2 e :
  outcome_of (syncMembers GITLAB_URL api fuel pid) = Ret n1 ->
  outcome_of (syncCommits GITLAB_URL api fuel pid) = Ret n2 ->
  outcome_of (syncMergeRequests GITLAB_URL api fuel pid) = Throw e ->
  outcome_of (syncEntities GITLAB_URL api fuel pid) = Throw e /\
  Forall (fun ev => writes_to ev = None \/ writes_to ev = Some "members"
                    \/ writes_to ev = Some "commits")
    (events_of (syncEntities GITLAB_URL api fuel pid)).
Proof.
  intros H1 H2 H3. unfold syncEntities.
  oe_ret H1. oe_log. oe_ret H2. oe_log. oe_throw H3.
  split; [reflexivity|].
  unfold syncMembers, syncCommits, syncMergeRequests in *. writes_tac.
Qed.

Lemma syncEntities_issues_throw fuel pid n1 n2 n3 e :
  outcome_of (syncMembers GITLAB_URL api fuel pid) = Ret n1 ->
  outcome_of (syncCommits GITLAB_URL api fuel pid) = Ret n2 ->
  outcome_of (syncMergeRequests GITLAB_URL api fuel pid) = Ret n3 ->
  outcome_of (syncIssues GITLAB_URL api fuel pid) = Throw e ->
  outcome_of (syncEntities GITLAB_URL api fuel pid) = Throw e /\
  Forall (fun ev => writes_to ev = None \/ writes_to ev = Some "members"
                    \/ writes_to ev = Some "commits"
                    \/ writes_to ev = Some "merge_requests")
    (events_of (syncEntities GITLAB_URL api fuel pid)).
Proof.
  intros H1 H2 H3 H4. unfold syncEntities.
  oe_ret H1. oe_log. oe_ret H2. oe_log. oe_ret H3. oe_log. oe_throw H4.
  split; [reflexivity|].
  unfold syncMembers, syncCommits, syncMergeRequests, syncIssues in *.
  writes_tac.
Qed.

(** A syncer that returns the count [n] has fetched its listing, of [n]
    records, and, unless the listing is empty, sent all of it in one bulk
    write. *)
Lemma sync_listing_wrote fuel url params col to_op pid n :
  (forall x op, to_op x = Ok op -> of_project pid op) ->
  outcome_of (sync_listing api fuel url params col to_op) = Ret n ->
  syncer_wrote (paginatedGet api fuel url params) col pid n
    (events_of (sync_listing api fuel url params col to_op)).
Proof.
  intros Hscope. unfold syncer_wrote, outcome_of, events_of, sync_listing.
  rewrite bind_run. unfold getDB. cbn [db fresh].
  rewrite bind_run. unfold paginatedGet.
  destruct (paginate_only_fetches fuel url
              (obj_set "page" (VNum 1) (obj_set "per_page" (VNum 100) params))
              1%Z [] fresh) as (evs & Hevs & Hw).
  destruct (paginate api fuel url _ 1%Z [] fresh) as [[records|e|] w1];
    cbn [snd] in Hevs; subst w1; [|discriminate..].
  cbn [fst snd trace fresh app].
  destruct records as [|x records].
  - cbn. intros [= <-]. exists []. now repeat split.
  - destruct (array_map to_op (x :: records)) as [ops|e] eqn:Hops;
      [|discriminate].
    cbn. unfold db_bulkWrite, store_write. cbn. intros [= <-].
    pose proof (length_array_map _ _ _ Hops) as Hlen.
    exists (x :: records). split; [reflexivity|]. split; [now rewrite Hlen|].
    split; [exact Hw|].
    exists ops. split; [reflexivity|]. split; [reflexivity|].
    exact (array_map_Forall to_op _ _ ops Hscope Hops).
Qed.

Lemma syncMembers_wrote fuel pid n :
  outcome_of (syncMembers GITLAB_URL api fuel pid) = Ret n ->
  syncer_wrote
    (paginatedGet api fuel (project_url GITLAB_URL pid "/members/all") [])
    "members" pid n (events_of (syncMembers GITLAB_URL api fuel pid)).
Proof. apply sync_listing_wrote, member_op_of_project. Qed.

Lemma syncCommits_wrote fuel pid n :
  outcome_of (syncCommits GITLAB_URL api fuel pid) = Ret n ->
  syncer_wrote
    (paginatedGet api fuel (project_url GITLAB_URL pid "/repository/commits")
       [("all", VBool true); ("with_stats", VBool true)])
    "commits" pid n (events_of (syncCommits GITLAB_URL api fuel pid)).
Proof. apply sync_listing_wrote, commit_op_of_project. Qed.

Lemma syncMergeRequests_wrote fuel pid n :
  outcome_of (syncMergeRequests GITLAB_URL api fuel pid) = Ret n ->
  syncer_wrote
    (paginatedGet api fuel (project_url GITLAB_URL pid "/merge_requests")
       [("state", VStr "all")])
    "merge_requests" pid n
    (events_of (syncMergeRequests GITLAB_URL api fuel pid)).
Proof. apply sync_listing_wrote, merge_request_op_of_project. Qed.

(** A syncer that throws has written nothing. *)
Lemma syncer_throw_no_write fuel url params col to_op e :
  outcome_of (sync_listing api fuel url params col to_op) = Throw e ->
  Forall (fun ev => writes_to ev = None)
    (events_of (sync_listing api fuel url params col to_op)).
Proof. apply (proj2 (syncer_events fuel url params col to_op)). Qed.

(** The interactions of the syncers of a project up to the first that
    throws. *)
Lemma syncEntities_members_events fuel pid e :
  outcome_of (syncMembers GITLAB_URL api fuel pid) = Throw e ->
  events_of (syncEntities GITLAB_URL api fuel pid) =
    events_of (syncMembers GITLAB_URL api fuel pid).
Proof.
  intros H1.
  now destruct (oe_bind_Throw (syncMembers GITLAB_URL api fuel pid)
                  (fun n => console_log (LogMembers n);;
                            n2 ← syncCommits GITLAB_URL api fuel pid;
                            console_log (LogCommits n2);;
                            n3 ← syncMergeRequests GITLAB_URL api fuel pid;
                            console_log (LogMergeRequests n3);;
                            n4 ← syncIssues GITLAB_URL api fuel pid;
                            console_log (LogIssues n4)) e
                  ltac:(rd_auto) H1) as [_ He].
Qed.

Lemma syncEntities_commits_events fuel pid n1 e :
  outcome_of (syncMembers GITLAB_URL api fuel pid) = Ret n1 ->
  outcome_of (syncCommits GITLAB_URL api fuel pid) = Throw e ->
  events_of (syncEntities GITLAB_URL api fuel pid) =
    events_of (syncMembers GITLAB_URL api fuel pid)
      ++ [ELog (LogMembers n1)]
      ++ events_of (syncCommits GITLAB_URL api fuel pid).
Proof.
  intros H1 H2.
  enough (outcome_of (syncEntities GITLAB_URL api fuel pid) = Throw e /\
          events_of (syncEntities GITLAB_URL api fuel pid) =
            events_of (syncMembers GITLAB_URL api fuel pid)
              ++ [ELog (LogMembers n1)]
              ++ events_of (syncCommits GITLAB_URL api fuel pid)) by tauto.
  unfold syncEntities. oe_ret H1. oe_log. oe_throw H2. split; reflexivity.
Qed.

Lemma syncEntities_merge_requests_events fuel pid n1 n2 e :
  outcome_of (syncMembers GITLAB_URL api fuel pid) = Ret n1 ->
  outcome_of (syncCommits GITLAB_URL api fuel pid) = Ret n2 ->
  outcome_of (syncMergeRequests GITLAB_URL api fuel pid) = Throw e ->
  events_of (syncEntities GITLAB_URL api fuel pid) =
    events_of (syncMembers GITLAB_URL api fuel pid)
      ++ [ELog (LogMembers n1)]
      ++ events_of (syncCommits GITLAB_URL api fuel pid)
      ++ [ELog (LogCommits n2)]
      ++ events_of (syncMergeRequests GITLAB_URL api fuel pid).
Proof.
  intros H1 H2 H3.
  enough (outcome_of (syncEntities GITLAB_URL api fuel pid) = Throw e /\
          events_of (syncEntities GITLAB_URL api fuel pid) =
            events_of (syncMembers GITLAB_URL api fuel pid)
              ++ [ELog (LogMembers n1)]
              ++ events_of (syncCommits GITLAB_URL api fuel pid)
              ++ [ELog (LogCommits n2)]
              ++ events_of (syncMergeRequests GITLAB_URL api fuel pid))
    by tauto.
  unfold syncEntities. oe_ret H1. oe_log. oe_ret H2. oe_log. oe_throw H3.
  split; reflexivity.
Qed.

Lemma syncEntities_issues_events fuel pid n1 n2 n3 e :
  outcome_of (syncMembers GITLAB_URL api fuel pid) = Ret n1 ->
  outcome_of (syncCommits GITLAB_URL api fuel pid) = Ret n2 ->
  outcome_of (syncMergeRequests GITLAB_URL api fuel pid) = Ret n3 ->
  outcome_of (syncIssues GITLAB_URL api fuel pid) = Throw e ->
  events_of (syncEntities GITLAB_URL api fuel pid) =
    events_of (syncMembers GITLAB_URL api fuel pid)
      ++ [ELog (LogMembers n1)]
      ++ events_of (syncCommits GITLAB_URL api fuel pid)
      ++ [ELog (LogCommits n2)]
      ++ events_of (syncMergeRequests GITLAB_URL api fuel pid)
      ++ [ELog (LogMergeRequests n3)]
      ++ events_of (syncIssues GITLAB_URL api fuel pid).
Proof.
  intros H1 H2 H3 H4.
  enough (outcome_of (syncEntities GITLAB_URL api fuel pid) = Throw e /\
          events_of (syncEntities GITLAB_URL api fuel pid) =
            events_of (syncMembers GITLAB_URL api fuel pid)
              ++ [ELog (LogMembers n1)]
              ++ events_of (syncCommits GITLAB_URL api fuel pid)
              ++ [ELog (LogCommits n2)]
              ++ events_of (syncMergeRequests GITLAB_URL api fuel pid)
              ++ [ELog (LogMergeRequests n3)]
              ++ events_of (syncIssues GITLAB_URL api fuel pid))
    by tauto.
  unfold syncEntities.
  oe_ret H1. oe_log. oe_ret H2. oe_log. oe_ret H3. oe_log. oe_throw H4.
  split; reflexivity.
Qed.

(** An iteration of the loop in which every syncer returns: the record
    of the project is saved, then members, commits, merge requests and
    issues are synced, in that order. *)
Lemma syncEntities_order fuel pid n1 n2 n3 n4 :
  outcome_of (syncMembers GITLAB_URL api fuel pid) = Ret n1 ->
  outcome_of (syncCommits GITLAB_URL api fuel pid) = Ret n2 ->
  outcome_of (syncMergeRequests GITLAB_URL api fuel pid) = Ret n3 ->
  outcome_of (syncIssues GITLAB_URL api fuel pid) = Ret n4 ->
  outcome_of (syncEntities GITLAB_URL api fuel pid) = Ret tt /\
  events_of (syncEntities GITLAB_URL api fuel pid) =
    events_of (syncMembers GITLAB_URL api fuel pid)
      ++ [ELog (LogMembers n1)]
      ++ events_of (syncCommits GITLAB_URL api fuel pid)
      ++ [ELog (LogCommits n2)]
      ++ events_of (syncMergeRequests GITLAB_URL api fuel pid)
      ++ [ELog (LogMergeRequests n3)]
      ++ events_of (syncIssues GITLAB_URL api fuel pid)
      ++ [ELog (LogIssues n4)].
Proof.
  intros H1 H2 H3 H4. unfold syncEntities.
  oe_ret H1. oe_log. oe_ret H2. oe_log. oe_ret H3. oe_log. oe_ret H4.
  split; reflexivity.
Qed.

(** The loop body on a record: the project is saved, then its entities
    are synced. *)
Lemma syncProject_saved fuel project pid name doc w s :
  db w = Some s ->
  get_prop project "id" = Ok pid ->
  get_prop project "path_with_namespace" = Ok name ->
  project_doc project = Ok doc ->
  let saved :=
    [ELog (LogProject (to_string name) (to_string pid));
     EUpdateOne "projects" (project_op doc);
     ELog LogProjectSaved] in
  syncProject GITLAB_URL api fuel project w =
  syncEntities GITLAB_URL api fuel pid
    (World (Some (replay saved s)) (trace w ++ saved) (clock_reads w)).
Proof.
  intros Hdb Hid Hname Hdoc saved.
  destruct w as [d t c]. cbn in Hdb. subst d.
  unfold syncProject. rewrite Hid, Hname, Hdoc. cbn [lift].
  rewrite !bind_mret, bind_console_log, bind_mret. unfold db_updateOne.
  erewrite bind_store_write by reflexivity. rewrite bind_console_log.
  unfold emit, saved. cbn [db trace clock_reads]. rewrite <- !app_assoc.
  reflexivity.
Qed.

Lemma syncProject_order fuel project pid name doc n1 n2 n3 n4 :
  get_prop project "id" = Ok pid ->
  get_prop project "path_with_namespace" = Ok name ->
  project_doc project = Ok doc ->
  outcome_of (syncMembers GITLAB_URL api fuel pid) = Ret n1 ->
  outcome_of (syncCommits GITLAB_URL api fuel pid) = Ret n2 ->
  outcome_of (syncMergeRequests GITLAB_URL api fuel pid) = Ret n3 ->
  outcome_of (syncIssues GITLAB_URL api fuel pid) = Ret n4 ->
  outcome_of (syncProject GITLAB_URL api fuel project) = Ret tt /\
  events_of (syncProject GITLAB_URL api fuel project) =
    [ELog (LogProject (to_string name) (to_string pid));
     EUpdateOne "projects" (project_op doc);
     ELog LogProjectSaved]
      ++ events_of (syncMembers GITLAB_URL api fuel pid)
      ++ [ELog (LogMembers n1)]
      ++ events_of (syncCommits GITLAB_URL api fuel pid)
      ++ [ELog (LogCommits n2)]
      ++ events_of (syncMergeRequests GITLAB_URL api fuel pid)
      ++ [ELog (LogMergeRequests n3)]
      ++ events_of (syncIssues GITLAB_URL api fuel pid)
      ++ [ELog (LogIssues n4)].
Proof.
  intros Hid Hname Hdoc H1 H2 H3 H4.
  destruct (syncEntities_order fuel pid n1 n2 n3 n4 H1 H2 H3 H4) as [Ho He].
  unfold outcome_of at 1, events_of at 1.
  rewrite (syncProject_saved fuel project pid name doc fresh ∅ eq_refl
             Hid Hname Hdoc).
  erewrite (rd_canonical api (syncEntities GITLAB_URL api fuel pid));
    [| apply rd_syncEntities | reflexivity].
  rewrite Ho, He. split; reflexivity.
Qed.

(** The loop takes the projects one after the other. *)
Lemma for_of_sequential fuel project projects :
  outcome_of (syncProject GITLAB_URL api fuel project) = Ret tt ->
  events_of (for_of (project :: projects) (syncProject GITLAB_URL api fuel)) =
  events_of (syncProject GITLAB_URL api fuel project)
    ++ events_of (for_of projects (syncProject GITLAB_URL api fuel)).
Proof.
  intros Hout. unfold events_of at 1. cbn [for_of].
  erewrite (bind_canonical api _ _ tt);
    [| apply rd_syncProject | exact Hout | reflexivity].
  erewrite (rd_canonical api (for_of projects _));
    [| apply rd_for_of; intros; apply rd_syncProject | reflexivity].
  reflexivity.
Qed.

(** C3 (amended). The orchestrator takes the projects one after the other
    and, for each, saves the project and then syncs members, commits,
    merge requests and issues in that order.  When a syncer of project [B]
    throws (for instance because its listing answers HTTP 500) after the
    projects before it were synced, the run ends in [Failed] and the store
    holds every write issued so far, those of the earlier projects
    included.  No write is issued for the entity kind whose syncer threw
    nor for the kinds after it: when the member, commit or merge-request
    sync of [B] fails, nothing is written for its merge requests or
    issues; when its issue sync fails, nothing is written for its
    issues.  Each syncer of [B] that returned before the failing one has
    issued, after the fetches of its listing, one bulk write to its own
    partition with one operation on [B] for each record of the listing,
    or no write at all when the listing is empty: so when the issue sync
    of [B] fails, the merge requests of [B] have been written if its
    listing has any and nothing has been written for them otherwise. *)
Theorem fatal_abort fuel w s projectsA B rest pidB nameB docB e :
  db w = Some s ->
  let listing := paginatedGet api fuel (GITLAB_URL +:+ "/api/v4/projects")
                   [("membership", VBool true)] in
  let earlier := for_of projectsA (syncProject GITLAB_URL api fuel) in
  let entities := syncEntities GITLAB_URL api fuel pidB in
  outcome_of listing = Ret (projectsA ++ B :: rest) ->
  outcome_of earlier = Ret tt ->
  get_prop B "id" = Ok pidB ->
  get_prop B "path_with_namespace" = Ok nameB ->
  project_doc B = Ok docB ->
  outcome_of entities = Throw e ->
  let evsA :=
    [ELog (LogStart (now (S (clock_reads w))))]
      ++ events_of listing
      ++ [ELog (LogFound (length (projectsA ++ B :: rest)))]
      ++ events_of earlier in
  let evsB :=
    [ELog (LogProject (to_string nameB) (to_string pidB));
     EUpdateOne "projects" (project_op docB);
     ELog LogProjectSaved]
      ++ events_of entities
      ++ [ELog (LogFailed (message e))] in
  (runSync GITLAB_URL api now fuel w =
     (Ret tt,
      World (Some (replay (evsA ++ evsB) s)) (trace w ++ evsA ++ evsB)
        (S (S (clock_reads w))))
   /\ state_after (trace w ++ evsA ++ evsB) = Failed)
  /\ ((forall e1,
         outcome_of (syncMembers GITLAB_URL api fuel pidB) = Throw e1 ->
         outcome_of entities = Throw e1 /\
         Forall (fun ev => writes_to ev = None) (events_of entities))
      /\ (forall n1 e2,
            outcome_of (syncMembers GITLAB_URL api fuel pidB) = Ret n1 ->
            outcome_of (syncCommits GITLAB_URL api fuel pidB) = Throw e2 ->
            outcome_of entities = Throw e2 /\
            Forall (fun ev => writes_to ev = None
                              \/ writes_to ev = Some "members")
              (events_of entities))
      /\ (forall n1 n2 e3,
            outcome_of (syncMembers GITLAB_URL api fuel pidB) = Ret n1 ->
            outcome_of (syncCommits GITLAB_URL api fuel pidB) = Ret n2 ->
            outcome_of (syncMergeRequests GITLAB_URL api fuel pidB) = Throw e3 ->
            outcome_of entities = Throw e3 /\
            Forall (fun ev => writes_to ev = None
                              \/ writes_to ev = Some "members"
                              \/ writes_to ev = Some "commits")
              (events_of entities))
      /\ (forall n1 n2 n3 e4,
            outcome_of (syncMembers GITLAB_URL api fuel pidB) = Ret n1 ->
            outcome_of (syncCommits GITLAB_URL api fuel pidB) = Ret n2 ->
            outcome_of (syncMergeRequests GITLAB_URL api fuel pidB) = Ret n3 ->
            outcome_of (syncIssues GITLAB_URL api fuel pidB) = Throw e4 ->
            outcome_of entities = Throw e4 /\
            Forall (fun ev => writes_to ev = None
                              \/ writes_to ev = Some "members"
                              \/ writes_to ev = Some "commits"
                              \/ writes_to ev = Some "merge_requests")
              (events_of entities)))
  /\ (forall url params col to_op status statusText,
        (0 < fuel)%nat ->
        api url (page_request params 1) = HttpError status statusText ->
        outcome_of (sync_listing api fuel url params col to_op)
        = Throw (GitLabApiError status statusText url))
  /\ (forall project projects,
        outcome_of (syncProject GITLAB_URL api fuel project) = Ret tt ->
        events_of (for_of (project :: projects) (syncProject GITLAB_URL api fuel)) =
        events_of (syncProject GITLAB_URL api fuel project)
          ++ events_of (for_of projects (syncProject GITLAB_URL api fuel)))
  /\ (forall project pid name doc n1 n2 n3 n4,
        get_prop project "id" = Ok pid ->
        get_prop project "path_with_namespace" = Ok name ->
        project_doc project = Ok doc ->
        outcome_of (syncMembers GITLAB_URL api fuel pid) = Ret n1 ->
        outcome_of (syncCommits GITLAB_URL api fuel pid) = Ret n2 ->
        outcome_of (syncMergeRequests GITLAB_URL api fuel pid) = Ret n3 ->
        outcome_of (syncIssues GITLAB_URL api fuel pid) = Ret n4 ->
        outcome_of (syncProject GITLAB_URL api fuel project) = Ret tt /\
        events_of (syncProject GITLAB_URL api fuel project) =
          [ELog (LogProject (to_string name) (to_string pid));
           EUpdateOne "projects" (project_op doc);
           ELog LogProjectSaved]
            ++ events_of (syncMembers GITLAB_URL api fuel pid)
            ++ [ELog (LogMembers n1)]
            ++ events_of (syncCommits GITLAB_URL api fuel pid)
            ++ [ELog (LogCommits n2)]
            ++ events_of (syncMergeRequests GITLAB_URL api fuel pid)
            ++ [ELog (LogMergeRequests n3)]
            ++ events_of (syncIssues GITLAB_URL api fuel pid)
            ++ [ELog (LogIssues n4)])
  /\ ((forall e1,
         outcome_of (syncMembers GITLAB_URL api fuel pidB) = Throw e1 ->
         events_of entities = events_of (syncMembers GITLAB_URL api fuel pidB) /\
         Forall (fun ev => writes_to ev = None)
           (events_of (syncMembers GITLAB_URL api fuel pidB)))
      /\ (forall n1 e2,
            outcome_of (syncMembers GITLAB_URL api fuel pidB) = Ret n1 ->
            outcome_of (syncCommits GITLAB_URL api fuel pidB) = Throw e2 ->
            events_of entities =
              events_of (syncMembers GITLAB_URL api fuel pidB)
                ++ [ELog (LogMembers n1)]
                ++ events_of (syncCommits GITLAB_URL api fuel pidB) /\
            syncer_wrote
              (paginatedGet api fuel
                 (project_url GITLAB_URL pidB "/members/all") [])
              "members" pidB n1
              (events_of (syncMembers GITLAB_URL api fuel pidB)) /\
            Forall (fun ev => writes_to ev = None)
              (events_of (syncCommits GITLAB_URL api fuel pidB)))
      /\ (forall n1 n2 e3,
            outcome_of (syncMembers GITLAB_URL api fuel pidB) = Ret n1 ->
            outcome_of (syncCommits GITLAB_URL api fuel pidB) = Ret n2 ->
            outcome_of (syncMergeRequests GITLAB_URL api fuel pidB) = Throw e3 ->
            events_of entities =
              events_of (syncMembers GITLAB_URL api fuel pidB)
                ++ [ELog (LogMembers n1)]
                ++ events_of (syncCommits GITLAB_URL api fuel pidB)
                ++ [ELog (LogCommits n2)]
                ++ events_of (syncMergeRequests GITLAB_URL api fuel pidB) /\
            syncer_wrote
              (paginatedGet api fuel
                 (project_url GITLAB_URL pidB "/members/all") [])
              "members" pidB n1
              (events_of (syncMembers GITLAB_URL api fuel pidB)) /\
            syncer_wrote
              (paginatedGet api fuel
                 (project_url GITLAB_URL pidB "/repository/commits")
                 [("all", VBool true); ("with_stats", VBool true)])
              "commits" pidB n2
              (events_of (syncCommits GITLAB_URL api fuel pidB)) /\
            Forall (fun ev => writes_to ev = None)
              (events_of (syncMergeRequests GITLAB_URL api fuel pidB)))
      /\ (forall n1 n2 n3 e4,
            outcome_of (syncMembers GITLAB_URL api fuel pidB) = Ret n1 ->
            outcome_of (syncCommits GITLAB_URL api fuel pidB) = Ret n2 ->
            outcome_of (syncMergeRequests GITLAB_URL api fuel pidB) = Ret n3 ->
            outcome_of (syncIssues GITLAB_URL api fuel pidB) = Throw e4 ->
            events_of entities =
              events_of (syncMembers GITLAB_URL api fuel pidB)
                ++ [ELog (LogMembers n1)]
                ++ events_of (syncCommits GITLAB_URL api fuel pidB)
                ++ [ELog (LogCommits n2)]
                ++ events_of (syncMergeRequests GITLAB_URL api fuel pidB)
                ++ [ELog (LogMergeRequests n3)]
                ++ events_of (syncIssues GITLAB_URL api fuel pidB) /\
            syncer_wrote
              (paginatedGet api fuel
                 (project_url GITLAB_URL pidB "/members/all") [])
              "members" pidB n1
              (events_of (syncMembers GITLAB_URL api fuel pidB)) /\
            syncer_wrote
              (paginatedGet api fuel
                 (project_url GITLAB_URL pidB "/repository/commits")
                 [("all", VBool true); ("with_stats", VBool true)])
              "commits" pidB n2
              (events_of (syncCommits GITLAB_URL api fuel pidB)) /\
            syncer_wrote
              (paginatedGet api fuel
                 (project_url GITLAB_URL pidB "/merge_requests")
                 [("state", VStr "all")])
              "merge_requests" pidB n3
              (events_of (syncMergeRequests GITLAB_URL api fuel pidB)) /\
            Forall (fun ev => writes_to ev = None)
              (events_of (syncIssues GITLAB_URL api fuel pidB)))).
Proof.
  intros Hdb listing earlier entities HoutL HoutA Hid Hname Hdoc HoutB evsA evsB.
  split; [split|split; [|split; [|split; [|split]]]].
  - erewrite runSync_thrown.
    2:{ unfold syncProjects.
        erewrite bind_getDB by exact Hdb.
        erewrite (bind_canonical api _ _ (projectsA ++ B :: rest));
          [| apply rd_paginatedGet | exact HoutL | exact Hdb].
        rewrite bind_console_log. apply bind_Throw.
        erewrite for_of_app_Ret.
        2:{ erewrite (rd_canonical api (for_of projectsA _));
              [| apply rd_for_of; intros; apply rd_syncProject | reflexivity].
            fold earlier. rewrite HoutA. reflexivity. }
        cbn [for_of]. apply bind_Throw.
        erewrite syncProject_saved; [| reflexivity | eassumption..].
        erewrite (rd_canonical api (syncEntities GITLAB_URL api fuel pidB));
          [| apply rd_syncEntities | reflexivity].
        fold entities. rewrite HoutB. reflexivity. }
    subst evsA evsB. unfold emit, entered.
    cbn [db trace clock_reads].
    f_equal. f_equal.
    + rewrite !replay_app. reflexivity.
    + rewrite <- !app_assoc. reflexivity.
  - subst evsA evsB. rewrite !app_assoc. apply state_after_failed.
  - split; [|split; [|split]]; intros.
    + now apply syncEntities_members_throw.
    + now apply (syncEntities_commits_throw fuel pidB n1).
    + now apply (syncEntities_merge_requests_throw fuel pidB n1 n2).
    + now apply (syncEntities_issues_throw fuel pidB n1 n2 n3).
  - intros url params col to_op status statusText Hfuel Hapi.
    destruct fuel as [|fuel']; [lia|]. now apply syncer_first_page_error.
  - apply for_of_sequential.
  - apply syncProject_order.
  - split; [|split; [|split]].
    + intros e1 H1. split.
      * now apply syncEntities_members_events with e1.
      * exact (syncer_throw_no_write _ _ _ _ _ _ H1).
    + intros n1 e2 H1 H2. split; [|split].
      * now apply syncEntities_commits_events with e2.
      * now apply syncMembers_wrote.
      * exact (syncer_throw_no_write _ _ _ _ _ _ H2).
    + intros n1 n2 e3 H1 H2 H3. split; [|split; [|split]].
      * now apply syncEntities_merge_requests_events with e3.
      * now apply syncMembers_wrote.
      * now apply syncCommits_wrote.
      * exact (syncer_throw_no_write _ _ _ _ _ _ H3).
    + intros n1 n2 n3 e4 H1 H2 H3 H4. split; [|split; [|split; [|split]]].
      * now apply syncEntities_issues_events with e4.
      * now apply syncMembers_wrote.
      * now apply syncCommits_wrote.
      * now apply syncMergeRequests_wrote.
      * exact (syncer_throw_no_write _ _ _ _ _ _ H4).
Qed.

End FatalAbort.

(** ** Upserts in place *)

Section InPlace.

Lemma upsert_in_place (q s : document) (c : collection) :
  existsb (matches q) c = true ->
  exists i d,
    c !! i = Some d /\ matches q d = true /\
    (forall j d', (j < i)%nat -> c !! j = Some d' -> matches q d' = false) /\
    upsert q s c = <[i := s ∪ d]> c.
Proof.
  induction c as [|d c IH]; [discriminate|].
  cbn [existsb upsert]. destruct (matches q d) eqn:Hm.
  - intros _. exists 0%nat, d.
    split; [reflexivity|]. split; [assumption|]. split; [|reflexivity].
    intros j d' Hj. lia.
  - cbn [orb]. intros Hex. destruct (IH Hex) as (i & d' & Hi & Hmd & Hbefore & Hup).
    exists (S i), d'.
    split; [assumption|]. split; [assumption|]. split; [|now rewrite Hup].
    intros [|j] d'' Hj Hd''.
    + cbn in Hd''. now injection Hd'' as <-.
    + apply (Hbefore j); [lia | exact Hd''].
Qed.


Ltac dom_tac :=
  cbn [op_set]; rewrite ?dom_insert_L, ?dom_singleton_L;
  cbn [list_to_set foldr]; now rewrite (right_id_L ∅ (∪)).

(** C10. An upsert on a partition in which a record matches the filter
    changes that record only, in place: every field of the mapped set
    takes the new value and every other field of the record keeps the
    value it had ([$set] semantics); the partition keeps its length.  The
    mapped set of each of the five entity kinds is the list of fields of
    its syncer's [$set]. *)
Theorem partial_replace :
  (forall op (c : collection),
     existsb (matches (bson <$> op_filter op)) c = true ->
     exists i d,
       c !! i = Some d /\
       matches (bson <$> op_filter op) d = true /\
       updateOne op c = <[i := (bson <$> op_set op) ∪ d]> c /\
       length (updateOne op c) = length c /\
       (forall k v, op_set op !! k = Some v ->
          ((bson <$> op_set op) ∪ d) !! k = Some (bson v)) /\
       (forall k, op_set op !! k = None ->
          ((bson <$> op_set op) ∪ d) !! k = d !! k))
  /\ (forall project doc, project_doc project = Ok doc ->
        dom (op_set (project_op doc)) =
        list_to_set ["project_id"; "name"; "path_with_namespace"; "description";
                     "created_at"; "default_branch"; "web_url"])
  /\ (forall projectId m op, member_op projectId m = Ok op ->
        dom (op_set op) =
        list_to_set ["project_id"; "user_id"; "username"; "name"; "access_level"])
  /\ (forall projectId c op, commit_op projectId c = Ok op ->
        dom (op_set op) =
        list_to_set ["project_id"; "sha"; "short_id"; "author_name";
                     "author_email"; "committed_date"; "message"; "additions";
                     "deletions"; "total"])
  /\ (forall projectId mr op, merge_request_op projectId mr = Ok op ->
        dom (op_set op) =
        list_to_set ["project_id"; "iid"; "title"; "author_username";
                     "author_name"; "state"; "created_at"; "merged_at";
                     "closed_at"; "source_branch"; "target_branch";
                     "merge_commit_sha"])
  /\ (forall projectId issue op, issue_op projectId issue = Ok op ->
        dom (op_set op) =
        list_to_set ["project_id"; "iid"; "title"; "author_username";
                     "author_name"; "assignees"; "state"; "labels";
                     "created_at"; "closed_at"]).
Proof.
  split; [|split; [|split; [|split; [|split]]]].
  - intros op c Hex. unfold updateOne.
    destruct (upsert_in_place _ (bson <$> op_set op) c Hex)
      as (i & d & Hi & Hm & _ & Hup).
    exists i, d.
    split; [assumption|]. split; [assumption|]. split; [assumption|].
    split; [|split].
    + rewrite Hup. apply length_insert.
    + intros k v Hk. apply lookup_union_Some_l. now rewrite lookup_fmap, Hk.
    + intros k Hk. apply lookup_union_r. now rewrite lookup_fmap, Hk.
  - unfold project_doc. intros project doc H. run_result H. injection H as <-.
    unfold project_op. dom_tac.
  - unfold member_op. intros projectId m op H. run_result H. injection H as <-.
    dom_tac.
  - unfold commit_op. intros projectId c op H. run_result H. injection H as <-.
    dom_tac.
  - unfold merge_request_op. intros projectId mr op H. run_result H.
    injection H as <-. dom_tac.
  - unfold issue_op. intros projectId issue op H. run_result H.
    destruct (issue_assignees issue) as [?|?];
      cbn [mbind result_bind mret result_ret] in H; [|discriminate H].
    run_result H. injection H as <-. dom_tac.
Qed.

End InPlace.

(** ** Natural keys *)

Section NaturalKeys.




End NaturalKeys.


(** ** The statements on the fixture snapshots *)

(** Closes an equation between closed terms by evaluating both sides. *)
Ltac vm_refl :=
  match goal with
  | |- _ = ?c => vm_cast_no_check (@eq_refl _ c)
  end.

(** Two runs on the fixture snapshot: the second leaves the store as the
    first did. *)
Lemma sync_idempotent_witness :
  let api := Demo.table_api (Demo.snapshot "opened") in
  let once := (runSync Demo.base api Demo.clock 5 Demo.connected).2 in
  let twice := (runSync Demo.base api Demo.clock 5 once).2 in
  db twice = db once.
Proof.
  intros api once twice.
  apply (sync_idempotent Demo.base api Demo.clock 5 Demo.connected).
Defined.

(** A run on a store that already holds a commit of another project: the
    summary counts it (three commits, two of them written by the run). *)
Lemma run_summary_witness :
  let api := Demo.table_api (Demo.snapshot "opened") in
  let stale : document := {[ "project_id" := VNum 9; "sha" := VStr "old" ]} in
  let w := World (Some {[ "commits" := [stale] ]}) [] 0 in
  let r := runSync Demo.base api Demo.clock 5 w in
  r.1 = Ret tt /\
  drop 36 (trace r.2) =
    [ELog LogSummaryHeader;
     ELog (LogCollection "projects" 2);
     ELog (LogCollection "members" 2);
     ELog (LogCollection "commits" 3);
     ELog (LogCollection "merge_requests" 1);
     ELog (LogCollection "issues" 1);
     ELog (LogCompleted 2 2000)].
Proof.
  intros api stale w r.
  destruct (run_summary Demo.base api Demo.clock 5 w {[ "commits" := [stale] ]} 2
              eq_refl) as (Hrun & _ & _).
  - vm_refl.
  - split; [subst r; now rewrite Hrun | vm_refl].
Defined.

(** The commit listing of the second project answers 500 after the first
    project was synced: the run fails, the first project's records and the
    second project's record and member are in the store, and the writes of
    the second iteration are those two.  When it is the issue listing of
    the second project that answers 500, its one merge request has been
    written by then, in one bulk write. *)
Lemma fatal_abort_witness :
  let api := Demo.table_api Demo.snapshot_500 in
  let r := runSync Demo.base api Demo.clock 5 Demo.connected in
  let api' := Demo.table_api Demo.snapshot_issues_500 in
  r.1 = Ret tt /\
  state_after (trace r.2) = Failed /\
  (fun s => map (fun col => length (coll s col)) summary_collections) <$> db r.2
  = Some [2; 2; 1; 1; 1]%nat /\
  omap write_target (drop 23 (trace r.2))
  = [("projects", [Some (VNum 2)]); ("members", [Some (VNum 2)])] /\
  syncer_wrote
    (paginatedGet api 5 (project_url Demo.base (VNum 2) "/members/all") [])
    "members" (VNum 2) 1
    (events_of (syncMembers Demo.base api 5 (VNum 2))) /\
  syncer_wrote
    (paginatedGet api' 5 (project_url Demo.base (VNum 2) "/merge_requests")
       [("state", VStr "all")])
    "merge_requests" (VNum 2) 1
    (events_of (syncMergeRequests Demo.base api' 5 (VNum 2))) /\
  Forall (fun ev => writes_to ev = None)
    (events_of (syncIssues Demo.base api' 5 (VNum 2))).
Proof.
  intros api r api'.
  destruct (fatal_abort Demo.base api Demo.clock 5 Demo.connected ∅
              [Demo.project_A] Demo.project_B [] (VNum 2) (VStr "grp/beta")
              (match project_doc Demo.project_B with Ok d => d | Err _ => ∅ end)
              (GitLabApiError 500 "Internal Server Error"
                 (Demo.base +:+ "/api/v4/projects/2/repository/commits")))
    as ((Hrun & Hstate) & _ & _ & _ & _ & (_ & Hcommits & _)).
  - reflexivity.
  - vm_refl.
  - vm_refl.
  - reflexivity.
  - reflexivity.
  - reflexivity.
  - vm_refl.
  - destruct (fatal_abort Demo.base api' Demo.clock 5 Demo.connected ∅
                [Demo.project_A] Demo.project_B [] (VNum 2) (VStr "grp/beta")
                (match project_doc Demo.project_B with Ok d => d | Err _ => ∅ end)
                (GitLabApiError 500 "Internal Server Error"
                   (Demo.base +:+ "/api/v4/projects/2/issues")))
      as (_ & _ & _ & _ & _ & (_ & _ & _ & Hissues)).
    + reflexivity.
    + vm_refl.
    + vm_refl.
    + reflexivity.
    + reflexivity.
    + reflexivity.
    + vm_refl.
    + destruct (Hcommits 1%nat
                  (GitLabApiError 500 "Internal Server Error"
                     (Demo.base +:+ "/api/v4/projects/2/repository/commits")))
        as (_ & Hmembers & _); [vm_refl | vm_refl |].
      destruct (Hissues 1%nat 1%nat 1%nat
                  (GitLabApiError 500 "Internal Server Error"
                     (Demo.base +:+ "/api/v4/projects/2/issues")))
        as (_ & _ & _ & Hmrs & Hnone); [vm_refl | vm_refl | vm_refl | vm_refl |].
      split; [|split; [|split; [|split; [|split; [|split]]]]].
      * subst r. now rewrite Hrun.
      * subst r. rewrite Hrun. exact Hstate.
      * vm_refl.
      * vm_refl.
      * exact Hmembers.
      * exact Hmrs.
      * exact Hnone.
Defined.

(** C3, as stated, fails when the fetch that fails is the issue listing
    of the second project: its merge requests have been written by then. *)
Lemma merge_requests_written_before_issue_failure :
  let api := Demo.table_api Demo.snapshot_issues_500 in
  let r := runSync Demo.base api Demo.clock 5 Demo.connected in
  api (Demo.base +:+ "/api/v4/projects/2/issues")
      (page_request [("state", VStr "all")] 1)
    = HttpError 500 "Internal Server Error" /\
  r.1 = Ret tt /\
  state_after (trace r.2) = Failed /\
  omap write_target (drop 23 (trace r.2))
  = [("projects", [Some (VNum 2)]); ("members", [Some (VNum 2)]);
     ("commits", [Some (VNum 2)]); ("merge_requests", [Some (VNum 2)])].
Proof. vm_compute. repeat split. Qed.

(** The second page of the project listing answers 502: the page already
    fetched is dropped, nothing is written, the run fails. *)
Lemma fetch_error_fatal_witness :
  let api := Demo.table_api Demo.snapshot_502 in
  let r := runSync Demo.base api Demo.clock 5 Demo.connected in
  let url := Demo.base +:+ "/api/v4/projects" in
  r.1 = Ret tt /\
  state_after (trace r.2) = Failed /\
  db r.2 = Some ∅.
Proof.
  intros api r url.
  destruct (fetch_error_fatal Demo.base api Demo.clock 5) as (_ & _ & _ & _ & Hrun).
  destruct (Hrun Demo.connected
              [ELog (LogStart 1000);
               EFetch url (page_request [("membership", VBool true)] 1)]
              [ELog (LogFailed (message (GitLabApiError 502 "Bad Gateway" url)))]
              url (page_request [("membership", VBool true)] 2)
              502%Z "Bad Gateway") as (_ & Hret & Hstate).
  - vm_refl.
  - vm_refl.
  - split; [exact Hret|]. split; [exact Hstate|]. vm_refl.
Defined.




(** A stored member record with a field outside the mapped set: the sync
    overwrites the mapped fields and keeps the other. *)
Lemma partial_replace_witness :
  let stored : document :=
    {[ "project_id" := VNum 1; "user_id" := VNum 10;
       "username" := VStr "old"; "note" := VStr "kept" ]} in
  let other : document :=
    {[ "project_id" := VNum 1; "user_id" := VNum 11 ]} in
  let op := UpdateOne {[ "project_id" := VNum 1; "user_id" := VNum 10 ]}
              {[ "project_id" := VNum 1; "user_id" := VNum 10;
                 "username" := VStr "ana"; "name" := VStr "Ana";
                 "access_level" := VNum 30 ]} in
  exists i d,
    [other; stored] !! i = Some d /\
    updateOne op [other; stored] = <[i := (bson <$> op_set op) ∪ d]> [other; stored] /\
    length (updateOne op [other; stored]) = 2%nat /\
    ((bson <$> op_set op) ∪ d) !! "username" = Some (VStr "ana") /\
    ((bson <$> op_set op) ∪ d) !! "note" = d !! "note".
Proof.
  intros stored other op.
  destruct partial_replace as (Hop & _).
  destruct (Hop op [other; stored]) as (i & d & Hi & _ & Hup & Hlen & Hset & Hkeep).
  - vm_refl.
  - exists i, d. split; [exact Hi|]. split; [exact Hup|]. split; [exact Hlen|].
    split.
    + apply (Hset "username" (VStr "ana")). vm_refl.
    + apply Hkeep. vm_refl.
Defined.

(** ** The paginator, whatever the remote answers *)

Section PaginatorOutcomes.
Context (api : string -> list (string * value) -> response).

Lemma fetched_O url params first w : fetched url params first 0 w = w.
Proof. unfold fetched, page_fetches. cbn. rewrite app_nil_r. now destruct w. Qed.

Lemma fetched_S url params first n w :
  fetched url params (first + 1) n
    (emit (EFetch url (page_request params first)) w)
  = fetched url params first (S n) w.
Proof.
  unfold fetched, emit. cbn [db trace clock_reads].
  now rewrite page_fetches_S, <- app_assoc.
Qed.

Lemma paginate_step fuel url params page results w :
  paginate api (S fuel) url (page_request params 1) page results w =
  match api url (page_request params page) with
  | HttpError status statusText =>
      (Throw (GitLabApiError status statusText url),
       emit (EFetch url (page_request params page)) w)
  | HttpOk [] => (Ret results, emit (EFetch url (page_request params page)) w)
  | HttpOk (x :: data) =>
      paginate api fuel url (page_request params 1) (page + 1)
        (results ++ x :: data) (emit (EFetch url (page_request params page)) w)
  end.
Proof.
  cbn [paginate]. rewrite bind_run. unfold fetch. rewrite !paginate_request.
  now destruct (api url (page_request params page)) as [? ?|[|? ?]].
Qed.

(** The loop of the paginator, whatever the remote answers: it has read a
    run of non-empty pages and then either met an empty page and returned
    them all, or met an error and thrown, or is still reading. *)
Lemma paginate_outcomes url params fuel : forall page results w,
  exists pages : list (list value),
    Forall (fun p => p <> []) pages /\
    (forall (i : nat) p, pages !! i = Some p ->
       api url (page_request params (page + Z.of_nat i)) = HttpOk p) /\
    (((length pages < fuel)%nat /\
      api url (page_request params (page + Z.of_nat (length pages))) = HttpOk [] /\
      paginate api fuel url (page_request params 1) page results w =
      (Ret (results ++ concat pages),
       fetched url params page (S (length pages)) w))
     \/ ((length pages < fuel)%nat /\
         exists status statusText,
           api url (page_request params (page + Z.of_nat (length pages)))
             = HttpError status statusText /\
           paginate api fuel url (page_request params 1) page results w =
           (Throw (GitLabApiError status statusText url),
            fetched url params page (S (length pages)) w))
     \/ (length pages = fuel /\
         paginate api fuel url (page_request params 1) page results w =
         (Diverge, fetched url params page fuel w))).
Proof.
  induction fuel as [|fuel IH]; intros page results w.
  - exists []. split; [constructor|]. split; [intros i p Hp; destruct i; discriminate Hp|].
    right. right. split; [reflexivity|]. now rewrite fetched_O.
  - rewrite paginate_step.
    destruct (api url (page_request params page)) as [st txt|[|x data]] eqn:Hapi.
    + exists []. split; [constructor|].
      split; [intros i p Hp; destruct i; discriminate Hp|].
      right. left. split; [cbn; lia|]. exists st, txt.
      cbn [length]. rewrite Z.add_0_r. split; [exact Hapi|].
      now rewrite <- fetched_S, fetched_O.
    + exists []. split; [constructor|].
      split; [intros i p Hp; destruct i; discriminate Hp|].
      left. split; [cbn; lia|]. cbn [length concat]. rewrite Z.add_0_r, app_nil_r.
      split; [exact Hapi|]. now rewrite <- fetched_S, fetched_O.
    + destruct (IH (page + 1)%Z (results ++ x :: data)
                  (emit (EFetch url (page_request params page)) w))
        as (pages & Hne & Hpages & Hcases).
      exists ((x :: data) :: pages).
      split; [constructor; [discriminate | assumption]|].
      split.
      { intros [|i] p Hp.
        - injection Hp as <-. now rewrite Z.add_0_r.
        - specialize (Hpages i p Hp).
          now replace (page + Z.of_nat (S i))%Z with (page + 1 + Z.of_nat i)%Z by lia. }
      cbn [length concat].
      replace (page + Z.of_nat (S (length pages)))%Z
        with (page + 1 + Z.of_nat (length pages))%Z by lia.
      rewrite app_assoc.
      destruct Hcases as [(Hlen & Hlast & ->)|[(Hlen & st & txt & Hlast & ->)|(Hlen & ->)]].
      * left. split; [lia|]. split; [exact Hlast|]. now rewrite fetched_S.
      * right. left. split; [lia|]. exists st, txt. split; [exact Hlast|].
        now rewrite fetched_S.
      * right. right. split; [lia|]. now rewrite fetched_S.
Qed.

(** On a remote that answers a request with a non-success response or
    with an array, [paginatedGet] does one of three things: after a run of
    non-empty pages it meets an empty page and returns the concatenation
    of the pages read; or it meets a non-success answer and throws the
    fetch error for it; or it is still reading when the fuel runs out. *)
Lemma paginatedGet_cases fuel url params w :
  exists pages : list (list value),
    Forall (fun p => p <> []) pages /\
    (forall (i : nat) p, pages !! i = Some p ->
       api url (page_request params (1 + Z.of_nat i)) = HttpOk p) /\
    (((length pages < fuel)%nat /\
      api url (page_request params (1 + Z.of_nat (length pages))) = HttpOk [] /\
      paginatedGet api fuel url params w =
      (Ret (concat pages), fetched url params 1 (S (length pages)) w))
     \/ ((length pages < fuel)%nat /\
         exists status statusText,
           api url (page_request params (1 + Z.of_nat (length pages)))
             = HttpError status statusText /\
           paginatedGet api fuel url params w =
           (Throw (GitLabApiError status statusText url),
            fetched url params 1 (S (length pages)) w))
     \/ (length pages = fuel /\
         paginatedGet api fuel url params w =
         (Diverge, fetched url params 1 fuel w))).
Proof. exact (paginate_outcomes url params fuel 1 [] w). Qed.

(** X2. On a listing that never answers an empty page nor an error (a
    remote that ignores the page number, say) [paginatedGet] never
    returns: for every amount of fuel it is still in its loop, having
    fetched as many pages as the fuel allowed. *)
Theorem paginatedGet_never_returns url params :
  (forall k, (1 <= k)%Z ->
     exists x data, api url (page_request params k) = HttpOk (x :: data)) ->
  forall fuel w,
    paginatedGet api fuel url params w = (Diverge, fetched url params 1 fuel w).
Proof.
  intros Hall fuel w.
  destruct (paginate_outcomes url params fuel 1 [] w)
    as (pages & _ & _ & [(_ & Hlast & _)|[(_ & st & txt & Hlast & _)|(_ & Hrun)]]).
  - destruct (Hall (1 + Z.of_nat (length pages))%Z ltac:(lia)) as (x & data & H).
    congruence.
  - destruct (Hall (1 + Z.of_nat (length pages))%Z ltac:(lia)) as (x & data & H).
    congruence.
  - exact Hrun.
Qed.

End PaginatorOutcomes.

(** *** The paginator on the wire *)

Section WirePaginator.
Context (remote : string -> list (string * value) -> Wire.answer)
        (code_points : string -> list string).

(** One turn of the loop, by what the page request comes back with. *)
Lemma wire_paginate_step fuel url params page results w :
  let a := remote url (page_request params page) in
  let w1 := emit (EFetch url (page_request params page)) w in
  let turn := Wire.paginate remote code_points (S fuel) url (page_request params 1)
                page results w in
  (ends a /\ turn = (Wire.Returned results, w1)) \/
  (exists t, breaks url a t /\ turn = (Wire.Raised t, w1)) \/
  (exists items,
     pushes code_points a items /\
     turn = Wire.paginate remote code_points fuel url (page_request params 1)
              (page + 1) (results ++ items) w1).
Proof.
  intros a w1 turn. subst turn. cbn [Wire.paginate]. unfold Wire.fetch.
  rewrite !paginate_request. fold a w1.
  destruct a as [name message | status statusText | name message | data].
  - right. left. eexists. split; [|reflexivity].
    left. exists name, message. split; [now left | reflexivity].
  - right. left. eexists. split; [|reflexivity].
    right. left. now exists status, statusText.
  - right. left. eexists. split; [|reflexivity].
    left. exists name, message. split; [now right | reflexivity].
  - destruct data as [| |b|n|s|l|o].
    + right. left. eexists. split; [|reflexivity].
      right. right. eexists. split; [right; now left | reflexivity].
    + right. left. eexists. split; [|reflexivity].
      right. right. eexists. split; [now left | reflexivity].
    + left. split; [|reflexivity]. right. right. left. now exists b.
    + left. split; [|reflexivity]. right. right. right. left. now exists n.
    + destruct (String.eqb_spec s "") as [->|Hs].
      * left. split; [|reflexivity]. right. now left.
      * right. right. eexists. split; [|reflexivity]. right. now exists s.
    + destruct l as [|x l].
      * left. split; [|reflexivity]. now left.
      * right. right. exists (x :: l). split; [|reflexivity].
        left. split; [reflexivity | discriminate].
    + destruct (truthy (default VUndef (assoc "length" o))) eqn:Hlen.
      * right. left. eexists. split; [|reflexivity].
        right. right. eexists. split; [right; right; now exists o | reflexivity].
      * left. split; [|reflexivity]. right. right. right. right. now exists o.
Qed.

Lemma wire_paginate_outcomes url params fuel : forall page results w,
  exists pages : list (list value),
    (forall (i : nat) items, pages !! i = Some items ->
       pushes code_points (remote url (page_request params (page + Z.of_nat i)))
         items) /\
    (((length pages < fuel)%nat /\
      ends (remote url (page_request params (page + Z.of_nat (length pages)))) /\
      Wire.paginate remote code_points fuel url (page_request params 1) page
        results w =
      (Wire.Returned (results ++ concat pages),
       fetched url params page (S (length pages)) w))
     \/ ((length pages < fuel)%nat /\
         exists t,
           breaks url
             (remote url (page_request params (page + Z.of_nat (length pages)))) t /\
           Wire.paginate remote code_points fuel url (page_request params 1) page
             results w =
           (Wire.Raised t, fetched url params page (S (length pages)) w))
     \/ (length pages = fuel /\
         Wire.paginate remote code_points fuel url (page_request params 1) page
           results w =
         (Wire.Looping, fetched url params page fuel w))).
Proof.
  induction fuel as [|fuel IH]; intros page results w.
  - exists []. split; [intros i p Hp; destruct i; discriminate Hp|].
    right. right. split; [reflexivity|]. cbn. now rewrite fetched_O.
  - assert (Hw1 : emit (EFetch url (page_request params page)) w
                  = fetched url params page 1 w)
      by now rewrite <- fetched_S, fetched_O.
    destruct (wire_paginate_step fuel url params page results w)
      as [[Hends ->]|[(t & Hbreaks & ->)|(items & Hpush & ->)]].
    + exists []. split; [intros i p Hp; destruct i; discriminate Hp|].
      left. split; [cbn; lia|]. cbn [length concat]. rewrite Z.add_0_r, app_nil_r.
      split; [exact Hends|]. now rewrite Hw1.
    + exists []. split; [intros i p Hp; destruct i; discriminate Hp|].
      right. left. split; [cbn; lia|]. exists t. cbn [length].
      rewrite Z.add_0_r. split; [exact Hbreaks|]. now rewrite Hw1.
    + destruct (IH (page + 1)%Z (results ++ items)
                  (emit (EFetch url (page_request params page)) w))
        as (pages & Hpages & Hcases).
      exists (items :: pages). split.
      { intros [|i] its Hi.
        - injection Hi as <-. now rewrite Z.add_0_r.
        - specialize (Hpages i its Hi).
          now replace (page + Z.of_nat (S i))%Z
            with (page + 1 + Z.of_nat i)%Z by lia. }
      cbn [length concat].
      replace (page + Z.of_nat (S (length pages)))%Z
        with (page + 1 + Z.of_nat (length pages))%Z by lia.
      rewrite app_assoc.
      destruct Hcases
        as [(Hlen & Hlast & ->)|[(Hlen & t & Hlast & ->)|(Hlen & ->)]].
      * left. split; [lia|]. split; [exact Hlast|]. now rewrite fetched_S.
      * right. left. split; [lia|]. exists t. split; [exact Hlast|].
        now rewrite fetched_S.
      * right. right. split; [lia|]. now rewrite fetched_S.
Qed.

(** On a remote that answers a non-success response or an array, the
    paginator on the wire is the paginator of the service's model. *)
Lemma wire_paginate_model api fuel url params : forall page results w,
  Wire.paginate (on_wire api) code_points fuel url params page results w =
  (ending_of (paginate api fuel url params page results w).1,
   (paginate api fuel url params page results w).2).
Proof.
  induction fuel as [|fuel IH]; intros page results w; [reflexivity|].
  cbn [Wire.paginate paginate]. unfold Wire.fetch. rewrite bind_run.
  unfold fetch, on_wire.
  destruct (api url (obj_set "page" (VNum page) params)) as [st txt|[|x data]];
    [reflexivity.. |].
  apply IH.
Qed.

(** X1. [paginatedGet] with everything its two awaits can come back
    with.  It requests pages 1, 2, ... in order, one request per page,
    pushes every body that has a truthy length (a non-empty array, or a
    non-empty string, by code points) and does nothing else.  It ends in
    one of these ways: on a body without a truthy length (the empty array,
    but also the empty string, a number, a boolean, an object such as an
    error message sent with a success status) it returns what it has
    pushed so far, which can then be a part of the listing only; when
    [fetch] or [res.json()] rejects it throws the error of the host; on a
    non-success response it throws the fetch error with the status, the
    status text and the URL; on a null body, or on an object with a
    truthy length, it throws a [TypeError]; or it is still reading when
    the fuel runs out.  On a remote that answers only non-success
    responses or arrays it is the paginator of the service's model. *)
Theorem paginatedGet_outcomes fuel url params w :
  (exists pages : list (list value),
     (forall (i : nat) items, pages !! i = Some items ->
        pushes code_points (remote url (page_request params (1 + Z.of_nat i)))
          items) /\
     (((length pages < fuel)%nat /\
       ends (remote url (page_request params (1 + Z.of_nat (length pages)))) /\
       Wire.paginatedGet remote code_points fuel url params w =
       (Wire.Returned (concat pages),
        fetched url params 1 (S (length pages)) w))
      \/ ((length pages < fuel)%nat /\
          exists t,
            breaks url
              (remote url (page_request params (1 + Z.of_nat (length pages)))) t /\
            Wire.paginatedGet remote code_points fuel url params w =
            (Wire.Raised t, fetched url params 1 (S (length pages)) w))
      \/ (length pages = fuel /\
          Wire.paginatedGet remote code_points fuel url params w =
          (Wire.Looping, fetched url params 1 fuel w))))
  /\ (forall api,
        Wire.paginatedGet (on_wire api) code_points fuel url params w =
        (ending_of (paginatedGet api fuel url params w).1,
         (paginatedGet api fuel url params w).2)).
Proof.
  split.
  - exact (wire_paginate_outcomes url params fuel 1 [] w).
  - intros api. apply wire_paginate_model.
Qed.

End WirePaginator.

(** ** A syncer writes the whole of its listing or nothing *)

Section AllOrNothing.
Context (GITLAB_URL : string) (api : string -> list (string * value) -> response).

Lemma paginatedGet_fetched fuel url params w :
  exists n, (n <= fuel)%nat /\
    (paginatedGet api fuel url params w).2 = fetched url params 1 n w.
Proof.
  destruct (paginate_outcomes api url params fuel 1 [] w)
    as (pages & _ & _ & [(Hlen & _ & H)|[(Hlen & st & txt & _ & H)|(Hlen & H)]]).
  - exists (S (length pages)). split; [lia|]. unfold paginatedGet.
    fold (page_request params 1). now rewrite H.
  - exists (S (length pages)). split; [lia|]. unfold paginatedGet.
    fold (page_request params 1). now rewrite H.
  - exists fuel. split; [lia|]. unfold paginatedGet.
    fold (page_request params 1). now rewrite H.
Qed.

Lemma sync_listing_disconnected fuel url params col to_op w :
  db w = None ->
  sync_listing api fuel url params col to_op w = (Throw DatabaseNotConnected, w).
Proof.
  intros Hdb. unfold sync_listing. rewrite bind_run. unfold getDB.
  now rewrite Hdb.
Qed.

Lemma sync_listing_all_or_nothing fuel url params col to_op s t c :
  all_or_nothing api fuel url params col to_op
    (sync_listing api fuel url params col to_op) (World (Some s) t c).
Proof.
  set (w := World (Some s) t c).
  destruct (paginatedGet_fetched fuel url params w) as (n & Hn & Hw).
  exists n. split; [exact Hn|].
  unfold sync_listing. rewrite (bind_getDB _ w s eq_refl), bind_run.
  destruct (paginatedGet api fuel url params w) as [[records|e|] w1] eqn:Hget;
    cbn [snd] in Hw; subst w1.
  - destruct records as [|x records].
    + right. split; [reflexivity|]. discriminate.
    + destruct (array_map to_op (x :: records)) as [ops|e] eqn:Hops.
      * left. exists (x :: records), ops.
        split; [reflexivity|]. split; [discriminate|]. split; [exact Hops|].
        cbn [lift]. rewrite bind_mret. unfold db_bulkWrite.
        erewrite bind_store_write by reflexivity.
        rewrite (length_array_map _ _ _ Hops).
        unfold fetched. cbn [db trace clock_reads write_event fmap option_fmap option_map w].
        now rewrite <- app_assoc.
      * right. split; [reflexivity|]. discriminate.
  - right. split; [reflexivity|]. discriminate.
  - right. split; [reflexivity|]. discriminate.
Qed.

(** X3. Each of the four entity syncers, on a connected store, writes the
    whole of its listing or nothing: either every page was read and every
    record mapped, one bulk write carries them all and the count returned
    is the number of remote records; or the store is as it was and no
    positive count is returned (the listing was empty, a page failed after
    others had been read, a record could not be mapped, or the loop is
    still running). *)
Theorem syncer_all_or_nothing fuel projectId s t c :
  let w := World (Some s) t c in
  let url := project_url GITLAB_URL projectId in
  all_or_nothing api fuel (url "/members/all") [] "members"
    (member_op projectId) (syncMembers GITLAB_URL api fuel projectId) w /\
  all_or_nothing api fuel (url "/repository/commits")
    [("all", VBool true); ("with_stats", VBool true)] "commits"
    (commit_op projectId) (syncCommits GITLAB_URL api fuel projectId) w /\
  all_or_nothing api fuel (url "/merge_requests") [("state", VStr "all")]
    "merge_requests" (merge_request_op projectId)
    (syncMergeRequests GITLAB_URL api fuel projectId) w /\
  all_or_nothing api fuel (url "/issues") [("state", VStr "all")] "issues"
    (issue_op projectId) (syncIssues GITLAB_URL api fuel projectId) w.
Proof.
  intros w url. repeat split; apply sync_listing_all_or_nothing.
Qed.

End AllOrNothing.

Section Isolation.
Context (GITLAB_URL : string) (api : string -> list (string * value) -> response).

Lemma sync_listing_touches_only fuel url params col to_op w :
  touches_only col (sync_listing api fuel url params col to_op) w.
Proof.
  destruct w as [[s|] t c]; unfold touches_only; cbn [db].
  - destruct (sync_listing_all_or_nothing api fuel url params col to_op s t c)
      as (n & _ & [(records & ops & _ & _ & _ & ->)|[-> _]]).
    + cbn [snd db fmap option_fmap option_map]. eexists. split; [reflexivity|].
      intros col' Hne. unfold on_collection. now rewrite lookup_insert_ne.
    + cbn [fetched db]. now exists s.
  - now rewrite sync_listing_disconnected.
Qed.

(** X4. Each entity syncer changes its own partition of the store and no
    other: whatever it fetched and however it ended, every other partition
    is as it was. *)
Theorem syncer_isolation fuel projectId w :
  touches_only "members" (syncMembers GITLAB_URL api fuel projectId) w /\
  touches_only "commits" (syncCommits GITLAB_URL api fuel projectId) w /\
  touches_only "merge_requests"
    (syncMergeRequests GITLAB_URL api fuel projectId) w /\
  touches_only "issues" (syncIssues GITLAB_URL api fuel projectId) w.
Proof. repeat split; apply sync_listing_touches_only. Qed.

End Isolation.

(** ** The footprint of a run *)

Section Emits.
Context (P : event -> Prop).

Lemma emits_pure {A} (r : outcome A) : emits P (fun w => (r, w)).
Proof. intros w. exists []. split; [now rewrite app_nil_r | constructor]. Qed.

Lemma emits_ret {A} (a : A) : emits P (mret a).
Proof. apply (emits_pure (Ret a)). Qed.

Lemma emits_lift {A} (r : result A) : emits P (lift r).
Proof. destruct r; [apply emits_ret | apply (emits_pure (Throw e))]. Qed.

Lemma emits_bind {A B} (m : M A) (f : A -> M B) :
  emits P m -> (forall a, emits P (f a)) -> emits P (m ≫= f).
Proof.
  intros Hm Hf w. rewrite bind_run.
  destruct (Hm w) as (evs1 & Ht1 & H1).
  destruct (m w) as [[a|e|] w1]; cbn [snd] in Ht1.
  - destruct (Hf a w1) as (evs2 & Ht2 & H2). exists (evs1 ++ evs2).
    split; [now rewrite Ht2, Ht1, app_assoc | now apply Forall_app].
  - now exists evs1.
  - now exists evs1.
Qed.

Lemma emits_getDB : emits P getDB.
Proof.
  intros w. exists []. split; [|constructor]. unfold getDB.
  destruct (db w); now rewrite app_nil_r.
Qed.

Lemma emits_console_log l : P (ELog l) -> emits P (console_log l).
Proof. intros Hl w. exists [ELog l]. split; [reflexivity | now repeat constructor]. Qed.

Lemma emits_store_write e : P e -> emits P (store_write e).
Proof.
  intros He w. unfold store_write. destruct (db w).
  - exists [e]. split; [reflexivity | now repeat constructor].
  - exists []. split; [now rewrite app_nil_r | constructor].
Qed.

Lemma emits_countDocuments col : emits P (db_countDocuments col).
Proof.
  intros w. exists []. split; [|constructor]. unfold db_countDocuments.
  destruct (db w); now rewrite app_nil_r.
Qed.

Lemma emits_date_now now : emits P (date_now now).
Proof. intros w. exists []. split; [now rewrite app_nil_r | constructor]. Qed.

Lemma emits_for_of {A} (xs : list A) (body : A -> M unit) :
  (forall x, emits P (body x)) -> emits P (for_of xs body).
Proof.
  intros Hbody. induction xs as [|x xs IH]; [apply emits_ret|].
  cbn [for_of]. apply emits_bind; [apply Hbody | intros _; apply IH].
Qed.

Lemma emits_try_catch {A} (body : M A) (handler : exn -> M A) :
  emits P body -> (forall e, emits P (handler e)) ->
  emits P (try_catch body handler).
Proof.
  intros Hb Hh w. unfold try_catch.
  destruct (Hb w) as (evs1 & Ht1 & H1).
  destruct (body w) as [[a|e|] w1]; cbn [snd] in Ht1.
  - now exists evs1.
  - destruct (Hh e w1) as (evs2 & Ht2 & H2). exists (evs1 ++ evs2).
    split; [now rewrite Ht2, Ht1, app_assoc | now apply Forall_app].
  - now exists evs1.
Qed.

Lemma emits_paginate api fuel url params : forall page results,
  (forall k, P (EFetch url (obj_set "page" (VNum k) params))) ->
  emits P (paginate api fuel url params page results).
Proof.
  induction fuel as [|fuel IH]; intros page results Hreq;
    [apply (emits_pure Diverge)|].
  cbn [paginate]. apply emits_bind.
  - intros w. eexists [_]. split; [reflexivity|]. repeat constructor. apply Hreq.
  - intros [status statusText|[|x data]].
    + apply (emits_pure (Throw _)).
    + apply emits_ret.
    + now apply IH.
Qed.

End Emits.

Section Footprint.
Context (GITLAB_URL : string) (api : string -> list (string * value) -> response).

Lemma footprint_paginatedGet fuel rest params :
  emits (footprint GITLAB_URL)
    (paginatedGet api fuel (GITLAB_URL +:+ "/api/v4/projects" +:+ rest) params).
Proof.
  apply emits_paginate. intros k. split; [now exists rest|].
  rewrite assoc_obj_set_ne by discriminate.
  rewrite assoc_obj_set_ne by discriminate. apply assoc_obj_set.
Qed.

Lemma footprint_sync_listing fuel rest params col to_op :
  col ∈ ["members"; "commits"; "merge_requests"; "issues"] ->
  emits (footprint GITLAB_URL)
    (sync_listing api fuel (GITLAB_URL +:+ "/api/v4/projects" +:+ rest) params
       col to_op).
Proof.
  intros Hcol. unfold sync_listing.
  apply emits_bind; [apply emits_getDB | intros _].
  apply emits_bind; [apply footprint_paginatedGet | intros [|x records]].
  - apply emits_ret.
  - apply emits_bind; [apply emits_lift | intros ops].
    apply emits_bind; [now apply emits_store_write | intros _; apply emits_ret].
Qed.

Lemma footprint_syncMembers fuel pid :
  emits (footprint GITLAB_URL) (syncMembers GITLAB_URL api fuel pid).
Proof.
  apply (footprint_sync_listing fuel ("/" +:+ to_string pid +:+ "/members/all")).
  set_solver.
Qed.

Lemma footprint_syncCommits fuel pid :
  emits (footprint GITLAB_URL) (syncCommits GITLAB_URL api fuel pid).
Proof.
  apply (footprint_sync_listing fuel
           ("/" +:+ to_string pid +:+ "/repository/commits")).
  set_solver.
Qed.

Lemma footprint_syncMergeRequests fuel pid :
  emits (footprint GITLAB_URL) (syncMergeRequests GITLAB_URL api fuel pid).
Proof.
  apply (footprint_sync_listing fuel
           ("/" +:+ to_string pid +:+ "/merge_requests")).
  set_solver.
Qed.

Lemma footprint_syncIssues fuel pid :
  emits (footprint GITLAB_URL) (syncIssues GITLAB_URL api fuel pid).
Proof.
  apply (footprint_sync_listing fuel ("/" +:+ to_string pid +:+ "/issues")).
  set_solver.
Qed.

Lemma footprint_syncProject fuel project :
  emits (footprint GITLAB_URL) (syncProject GITLAB_URL api fuel project).
Proof.
  unfold syncProject.
  apply emits_bind; [apply emits_lift | intros pid].
  apply emits_bind; [apply emits_lift | intros name].
  apply emits_bind; [now apply emits_console_log | intros _].
  apply emits_bind; [apply emits_lift | intros doc].
  apply emits_bind; [now apply emits_store_write | intros _].
  apply emits_bind; [now apply emits_console_log | intros _].
  apply emits_bind; [apply footprint_syncMembers | intros n1].
  apply emits_bind; [now apply emits_console_log | intros _].
  apply emits_bind; [apply footprint_syncCommits | intros n2].
  apply emits_bind; [now apply emits_console_log | intros _].
  apply emits_bind; [apply footprint_syncMergeRequests | intros n3].
  apply emits_bind; [now apply emits_console_log | intros _].
  apply emits_bind; [apply footprint_syncIssues | intros n4].
  now apply emits_console_log.
Qed.

Lemma footprint_syncProjects fuel :
  emits (footprint GITLAB_URL) (syncProjects GITLAB_URL api fuel).
Proof.
  unfold syncProjects.
  apply emits_bind; [apply emits_getDB | intros _].
  apply emits_bind; [apply (footprint_paginatedGet fuel "") | intros projects].
  apply emits_bind; [now apply emits_console_log | intros _].
  apply emits_bind; [|intros _; apply emits_ret].
  apply emits_for_of. intros project. apply footprint_syncProject.
Qed.

End Footprint.

Section RunFootprint.
Context (GITLAB_URL : string) (api : string -> list (string * value) -> response)
        (now : nat -> Z).

(** X5. A run touches the outside in four ways only, whatever the remote
    answers and however the run ends: it reads pages of 100 of listings
    under [GITLAB_URL/api/v4/projects], upserts into the project
    partition, sends bulk writes to the member, commit, merge-request and
    issue partitions, and writes console lines; what was recorded before
    the run is left in place. *)
Theorem run_footprint fuel w :
  exists evs,
    trace (runSync GITLAB_URL api now fuel w).2 = trace w ++ evs /\
    Forall (footprint GITLAB_URL) evs.
Proof.
  revert w. change (emits (footprint GITLAB_URL) (runSync GITLAB_URL api now fuel)).
  unfold runSync.
  apply emits_bind; [apply emits_date_now | intros startTime].
  apply emits_bind; [apply emits_date_now | intros date].
  apply emits_bind; [now apply emits_console_log | intros _].
  apply emits_try_catch; [|intros e; now apply emits_console_log].
  apply emits_bind; [apply footprint_syncProjects | intros n].
  apply emits_bind; [apply emits_getDB | intros _].
  apply emits_bind; [now apply emits_console_log | intros _].
  apply emits_bind.
  - apply emits_for_of. intros col.
    apply emits_bind; [apply emits_countDocuments | intros count].
    now apply emits_console_log.
  - intros _. apply emits_bind; [apply emits_date_now | intros endTime].
    now apply emits_console_log.
Qed.

End RunFootprint.

(** ** Nothing is deleted *)

Section NeverDeletes.

Lemma keeps_refl (c : collection) : keeps c c.
Proof. intros i d Hd. now exists d. Qed.

Lemma keeps_trans (c1 c2 c3 : collection) : keeps c1 c2 -> keeps c2 c3 -> keeps c1 c3.
Proof.
  intros H12 H23 i d Hd. destruct (H12 i d Hd) as (d' & Hd' & Hdom).
  destruct (H23 i d' Hd') as (d'' & Hd'' & Hdom'). exists d''. split; [assumption|].
  set_solver.
Qed.

Lemma keeps_length (c c' : collection) : keeps c c' -> (length c <= length c')%nat.
Proof.
  intros H. destruct (decide (length c = 0)%nat) as [->|Hne]; [lia|].
  destruct (lookup_lt_is_Some_2 c (length c - 1)) as [d Hd]; [lia|].
  destruct (H _ _ Hd) as (d' & Hd' & _). apply lookup_lt_Some in Hd'. lia.
Qed.

Lemma keeps_upsert (q s : document) (c : collection) : keeps c (upsert q s c).
Proof.
  induction c as [|d0 c IH]; intros i d Hd; [destruct i; discriminate Hd|].
  cbn [upsert]. destruct (matches q d0).
  - destruct i as [|i]; cbn in Hd |- *.
    + injection Hd as <-. eexists. split; [reflexivity|].
      rewrite dom_union. set_solver.
    + now exists d.
  - destruct i as [|i]; cbn in Hd |- *.
    + now exists d.
    + now apply IH.
Qed.

Lemma keeps_bulkWrite ops : forall c : collection, keeps c (bulkWrite ops c).
Proof.
  induction ops as [|op ops IH]; intros c; [apply keeps_refl|].
  cbn [bulkWrite foldl]. eapply keeps_trans; [|apply IH]. apply keeps_upsert.
Qed.

Lemma upsert_unaddressed (q s : document) (c : collection) i d :
  c !! i = Some d -> matches q d = false -> upsert q s c !! i = Some d.
Proof.
  revert i. induction c as [|d0 c IH]; intros i Hd Hm; [destruct i; discriminate Hd|].
  cbn [upsert]. destruct (matches q d0) eqn:Hm0.
  - destruct i as [|i]; cbn in Hd |- *; [|exact Hd].
    injection Hd as ->. congruence.
  - destruct i as [|i]; cbn in Hd |- *; [exact Hd|]. now apply IH.
Qed.

Lemma bulkWrite_unaddressed ops : forall (c : collection) i d,
  c !! i = Some d -> unaddressed ops d -> bulkWrite ops c !! i = Some d.
Proof.
  induction ops as [|op ops IH]; intros c i d Hd Hops; [exact Hd|].
  inversion Hops as [|? ? Hop Hops']; subst.
  cbn [bulkWrite foldl]. apply IH; [|assumption].
  now apply upsert_unaddressed.
Qed.

Lemma footprint_not_written GITLAB_URL col evs :
  Forall (footprint GITLAB_URL) evs -> col ∉ summary_collections ->
  written col evs = false.
Proof.
  intros Hevs Hcol. unfold written. apply not_true_is_false. intros Hex.
  apply existsb_exists in Hex as (e & He & Hw).
  apply list_elem_of_In in He.
  rewrite Forall_forall in Hevs. specialize (Hevs e He).
  apply Hcol. unfold summary_collections.
  destruct e as [| c0 op | c0 ops |]; try discriminate Hw;
    apply String.eqb_eq in Hw; subst c0; cbn [footprint] in Hevs.
  - subst col. apply list_elem_of_here.
  - now apply list_elem_of_further.
Qed.

Context (GITLAB_URL : string) (api : string -> list (string * value) -> response)
        (now : nat -> Z).

Lemma footprint_events_of_syncProjects fuel :
  Forall (footprint GITLAB_URL) (events_of (syncProjects GITLAB_URL api fuel)).
Proof.
  destruct (footprint_syncProjects GITLAB_URL api fuel fresh) as (evs & Ht & Hevs).
  unfold events_of. now rewrite Ht.
Qed.

(** X6. A run deletes nothing: partitions other than the five of the
    service are untouched; in every partition each record stays at its
    place with at least the fields it had, so that no count decreases; and
    a record that no operation of the run addresses (one the remote no
    longer lists, say) is left exactly as it was. *)
Theorem run_never_deletes fuel s t c :
  let ran := runSync GITLAB_URL api now fuel (World (Some s) t c) in
  let evs := events_of (syncProjects GITLAB_URL api fuel) in
  exists s',
    db ran.2 = Some s' /\
    (forall col, col ∉ summary_collections -> s' !! col = s !! col) /\
    (forall col, length (coll s col) <= length (coll s' col))%nat /\
    (forall col, keeps (coll s col) (coll s' col)) /\
    (forall col i d,
       coll s col !! i = Some d -> unaddressed (ops_for col evs) d ->
       coll s' col !! i = Some d).
Proof.
  intros ran evs. exists (replay evs s).
  split; [apply (runSync_db_connected GITLAB_URL api now fuel (World (Some s) t c) s
                    eq_refl)|].
  split; [|split; [|split]].
  - intros col Hcol. rewrite lookup_replay.
    now rewrite (footprint_not_written GITLAB_URL col evs
                   (footprint_events_of_syncProjects fuel) Hcol).
  - intros col. apply keeps_length. rewrite coll_replay. apply keeps_bulkWrite.
  - intros col. rewrite coll_replay. apply keeps_bulkWrite.
  - intros col i d Hd Hun. rewrite coll_replay. now apply bulkWrite_unaddressed.
Qed.

End NeverDeletes.

(** ** A run after a failed run *)

Section Sequencing.
Context (api : string -> list (string * value) -> response).

(** The outcome and the interactions of [m ≫= f], from those of [m] and
    of [f]. *)
Lemma oe_bind {A B} (m : M A) (f : A -> M B) :
  remote_determined api m -> (forall a, remote_determined api (f a)) ->
  outcome_of (m ≫= f) =
    match outcome_of m with
    | Ret a => outcome_of (f a)
    | Throw e => Throw e
    | Diverge => Diverge
    end /\
  events_of (m ≫= f) =
    events_of m ++ match outcome_of m with
                   | Ret a => events_of (f a)
                   | _ => []
                   end.
Proof.
  intros Hm Hf.
  pose proof (rd_canonical api m fresh ∅ Hm eq_refl) as Hrun.
  destruct (outcome_of m) as [a|e|] eqn:Hout.
  - apply (oe_bind_Ret api m f a Hm Hout (Hf a)).
  - rewrite app_nil_r. apply (oe_bind_Throw api m f e Hm Hout).
  - unfold outcome_of at 1, events_of at 1.
    rewrite (bind_Diverge m f fresh _ Hrun). now rewrite app_nil_r.
Qed.

End Sequencing.

Section Ahead.
Context (api1 api2 : string -> list (string * value) -> response).

Lemma ahead_refl {A} (m : M A) : ahead m m.
Proof. now left. Qed.

Lemma ahead_ext {A} (m1 m1' m2 m2' : M A) :
  (forall w, m1 w = m1' w) -> (forall w, m2 w = m2' w) ->
  ahead m1' m2' -> ahead m1 m2.
Proof.
  intros H1 H2. unfold ahead, outcome_of, events_of. now rewrite H1, H2.
Qed.

Lemma ahead_bind {A B} (m1 m2 : M A) (f1 f2 : A -> M B) :
  remote_determined api1 m1 -> remote_determined api2 m2 ->
  (forall a, remote_determined api1 (f1 a)) ->
  (forall a, remote_determined api2 (f2 a)) ->
  ahead m1 m2 -> (forall a, ahead (f1 a) (f2 a)) ->
  ahead (m1 ≫= f1) (m2 ≫= f2).
Proof.
  intros Hm1 Hm2 Hf1 Hf2 Hm Hf. unfold ahead.
  destruct (oe_bind api1 m1 f1 Hm1 Hf1) as [-> ->].
  destruct (oe_bind api2 m2 f2 Hm2 Hf2) as [-> ->].
  destruct Hm as [[Ho He]|[[e Ho] [rest Hrest]]].
  - rewrite <- Ho, <- He. destruct (outcome_of m1) as [a|e|]; [|now left..].
    destruct (Hf a) as [[Ho' He']|[Hthrow [rest Hrest]]].
    + left. now rewrite Ho', He'.
    + right. split; [exact Hthrow|]. exists rest.
      now rewrite !filter_app, Hrest, app_assoc.
  - right. rewrite Ho. split; [now exists e|].
    rewrite app_nil_r, filter_app, Hrest, <- app_assoc. now eexists.
Qed.

End Ahead.

Section Recovery.
Context (GITLAB_URL : string) (api : string -> list (string * value) -> response)
        (down : string -> list (string * value) -> option (Z * string)).

Lemma oe_paginate_S api' fuel url params page results :
  let req := obj_set "page" (VNum page) params in
  outcome_of (paginate api' (S fuel) url params page results) =
    match api' url req with
    | HttpError status statusText => Throw (GitLabApiError status statusText url)
    | HttpOk [] => Ret results
    | HttpOk (x :: data) =>
        outcome_of (paginate api' fuel url params (page + 1) (results ++ x :: data))
    end /\
  events_of (paginate api' (S fuel) url params page results) =
    EFetch url req ::
      match api' url req with
      | HttpOk (x :: data) =>
          events_of (paginate api' fuel url params (page + 1) (results ++ x :: data))
      | _ => []
      end.
Proof.
  intros req. unfold outcome_of at 1, events_of at 1.
  cbn [paginate]. rewrite bind_run. unfold fetch. fold req.
  destruct (api' url req) as [st txt|[|x data]]; [now split..|].
  erewrite (rd_canonical api' (paginate api' fuel url params _ _));
    [| apply rd_paginate | reflexivity].
  now split.
Qed.

Lemma ahead_paginate fuel url params : forall page results,
  ahead (paginate (outage down api) fuel url params page results)
        (paginate api fuel url params page results).
Proof.
  induction fuel as [|fuel IH]; intros page results; [apply ahead_refl|].
  destruct (oe_paginate_S (outage down api) fuel url params page results)
    as [Ho1 He1].
  destruct (oe_paginate_S api fuel url params page results) as [Ho2 He2].
  unfold ahead. rewrite Ho1, He1, Ho2, He2. clear Ho1 He1 Ho2 He2.
  destruct (down url (obj_set "page" (VNum page) params)) as [[st txt]|] eqn:Hdown.
  - assert (Hreq : outage down api url (obj_set "page" (VNum page) params)
                   = HttpError st txt) by (unfold outage; now rewrite Hdown).
    rewrite Hreq. right. split; [eexists; reflexivity|]. eexists. reflexivity.
  - assert (Hreq : outage down api url (obj_set "page" (VNum page) params)
                   = api url (obj_set "page" (VNum page) params))
      by (unfold outage; now rewrite Hdown).
    rewrite Hreq. destruct (api url (obj_set "page" (VNum page) params)) as [st txt|[|x data]];
      [now left..|].
    destruct (IH (page + 1)%Z (results ++ x :: data))
      as [[Ho He]|[Hthrow [rest Hrest]]].
    + left. now rewrite Ho, He.
    + right. split; [exact Hthrow|]. exists rest.
      rewrite !filter_cons. cbn [is_write]. exact Hrest.
Qed.

Ltac rd_tac :=
  cbv beta;
  repeat match goal with
         | |- forall _, _ => intros ?
         | |- remote_determined _ (_ ≫= _) => apply rd_bind; [|intros ?]
         | |- remote_determined _ (console_log _) => apply rd_console_log
         | |- remote_determined _ getDB => apply rd_getDB
         | |- remote_determined _ (paginatedGet _ _ _ _) => apply rd_paginatedGet
         | |- remote_determined _ (syncMembers _ _ _ _) => apply rd_syncMembers
         | |- remote_determined _ (syncCommits _ _ _ _) => apply rd_syncCommits
         | |- remote_determined _ (syncMergeRequests _ _ _ _) =>
             apply rd_syncMergeRequests
         | |- remote_determined _ (syncIssues _ _ _ _) => apply rd_syncIssues
         | |- remote_determined _ (syncProject _ _ _ _) => apply rd_syncProject
         | |- remote_determined _ (for_of _ _) => apply rd_for_of
         | |- remote_determined _ (mret _) => apply rd_ret
         end.

Ltac ahead_step :=
  apply ahead_bind with (api1 := outage down api) (api2 := api);
  [rd_tac | rd_tac | rd_tac | rd_tac | | intros ?].

(** What a syncer does with the records of its listing. *)
Lemma rd_sync_batch api' col (to_op : value -> result update_op)
    (records : list value) :
  (forall x op, to_op x = Ok op -> keyed_op (key_fields col) op) ->
  remote_determined api'
    (match records with
     | [] => mret 0%nat
     | _ :: _ =>
         ops ← lift (array_map to_op records);
         db_bulkWrite col ops;;
         mret (length ops)
     end).
Proof.
  intros Hkeyed. destruct records as [|x records]; [apply rd_ret|].
  destruct (array_map to_op (x :: records)) as [ops|e] eqn:Hops.
  - apply (rd_ext api' _ (db_bulkWrite col ops;; mret (length ops)));
      [reflexivity|].
    apply rd_bind; [|intros _; apply rd_ret].
    apply rd_store_write; [reflexivity|].
    apply (array_map_Forall to_op _ _ ops Hkeyed Hops).
  - apply (rd_ext api' _ (throw e)); [reflexivity | apply rd_throw].
Qed.

Lemma ahead_sync_listing fuel url params col to_op :
  (forall x op, to_op x = Ok op -> keyed_op (key_fields col) op) ->
  ahead (sync_listing (outage down api) fuel url params col to_op)
        (sync_listing api fuel url params col to_op).
Proof.
  intros Hkeyed. unfold sync_listing.
  apply ahead_bind with (api1 := outage down api) (api2 := api);
    [apply rd_getDB | apply rd_getDB | | | apply ahead_refl | intros _].
  - intros _. apply rd_bind; [apply rd_paginatedGet|].
    intros records. now apply rd_sync_batch.
  - intros _. apply rd_bind; [apply rd_paginatedGet|].
    intros records. now apply rd_sync_batch.
  - apply ahead_bind with (api1 := outage down api) (api2 := api);
      [apply rd_paginatedGet | apply rd_paginatedGet | | | | ].
    + intros records. now apply rd_sync_batch.
    + intros records. now apply rd_sync_batch.
    + apply ahead_paginate.
    + intros records. apply ahead_refl.
Qed.

Lemma ahead_syncEntities fuel pid :
  ahead (syncEntities GITLAB_URL (outage down api) fuel pid)
        (syncEntities GITLAB_URL api fuel pid).
Proof.
  unfold syncEntities.
  ahead_step; [apply ahead_sync_listing, member_op_keyed|].
  ahead_step; [apply ahead_refl|].
  ahead_step; [apply ahead_sync_listing, commit_op_keyed|].
  ahead_step; [apply ahead_refl|].
  ahead_step; [apply ahead_sync_listing, merge_request_op_keyed|].
  ahead_step; [apply ahead_refl|].
  ahead_step; [apply ahead_sync_listing, issue_op_keyed|].
  apply ahead_refl.
Qed.

(** The loop body on a record it can read: the project is saved, then its
    entities are synced. *)
Lemma oe_syncProject api' fuel project pid name doc :
  get_prop project "id" = Ok pid ->
  get_prop project "path_with_namespace" = Ok name ->
  project_doc project = Ok doc ->
  let saved :=
    [ELog (LogProject (to_string name) (to_string pid));
     EUpdateOne "projects" (project_op doc);
     ELog LogProjectSaved] in
  outcome_of (syncProject GITLAB_URL api' fuel project)
    = outcome_of (syncEntities GITLAB_URL api' fuel pid) /\
  events_of (syncProject GITLAB_URL api' fuel project)
    = saved ++ events_of (syncEntities GITLAB_URL api' fuel pid).
Proof.
  intros Hid Hname Hdoc saved. unfold outcome_of at 1, events_of at 1.
  rewrite (syncProject_saved GITLAB_URL api' fuel project pid name doc fresh ∅
             eq_refl Hid Hname Hdoc).
  erewrite (rd_canonical api' (syncEntities GITLAB_URL api' fuel pid));
    [| apply rd_syncEntities | reflexivity].
  split; reflexivity.
Qed.

Lemma ahead_syncProject fuel project :
  ahead (syncProject GITLAB_URL (outage down api) fuel project)
        (syncProject GITLAB_URL api fuel project).
Proof.
  destruct (get_prop project "id") as [pid|e] eqn:Hid.
  2:{ left. unfold outcome_of, events_of, syncProject. rewrite Hid.
      split; reflexivity. }
  destruct (get_prop project "path_with_namespace") as [name|e] eqn:Hname.
  2:{ left. unfold outcome_of, events_of, syncProject. rewrite Hid, Hname.
      split; reflexivity. }
  destruct (project_doc project) as [doc|e] eqn:Hdoc.
  2:{ left. unfold outcome_of, events_of, syncProject. rewrite Hid, Hname, Hdoc.
      split; reflexivity. }
  destruct (oe_syncProject (outage down api) fuel project pid name doc
              Hid Hname Hdoc) as [Ho1 He1].
  destruct (oe_syncProject api fuel project pid name doc Hid Hname Hdoc)
    as [Ho2 He2].
  unfold ahead. rewrite Ho1, He1, Ho2, He2.
  destruct (ahead_syncEntities fuel pid) as [[Ho He]|[Hthrow [rest Hrest]]].
  - left. now rewrite Ho, He.
  - right. split; [exact Hthrow|]. exists rest.
    now rewrite !filter_app, Hrest, app_assoc.
Qed.

Lemma ahead_for_of fuel projects :
  ahead (for_of projects (syncProject GITLAB_URL (outage down api) fuel))
        (for_of projects (syncProject GITLAB_URL api fuel)).
Proof.
  induction projects as [|project projects IH]; [apply ahead_refl|].
  cbn [for_of]. ahead_step; [apply ahead_syncProject | exact IH].
Qed.

Lemma ahead_syncProjects fuel :
  ahead (syncProjects GITLAB_URL (outage down api) fuel)
        (syncProjects GITLAB_URL api fuel).
Proof.
  unfold syncProjects.
  ahead_step; [apply ahead_refl|].
  ahead_step; [apply ahead_paginate|].
  ahead_step; [apply ahead_refl|].
  ahead_step; [apply ahead_for_of | apply ahead_refl].
Qed.

Lemma replay_filter_is_write evs : forall s : store,
  replay (filter is_write evs) s = replay evs s.
Proof.
  induction evs as [|e evs IH]; intros s; [reflexivity|].
  rewrite filter_cons. destruct e as [| col op | col ops |]; apply IH.
Qed.

(** Writes replayed after a first part of them leave the store as they
    leave it without. *)
Lemma replay_after_prefix evs1 evs2 rest (s : store) :
  Forall keyed_event evs1 ->
  filter is_write evs2 = filter is_write evs1 ++ rest ->
  replay evs2 (replay evs1 s) = replay evs2 s.
Proof.
  intros Hk Hrest.
  rewrite <- (replay_filter_is_write evs2), <- (replay_filter_is_write evs1).
  rewrite <- (replay_filter_is_write evs2 s), Hrest, !replay_app.
  f_equal. apply replay_idem. rewrite Forall_forall in Hk |- *.
  intros e He. apply list_elem_of_filter in He as [_ He]. now apply Hk.
Qed.

End Recovery.

Section RunRecovers.
Context (GITLAB_URL : string) (api : string -> list (string * value) -> response)
        (down : string -> list (string * value) -> option (Z * string))
        (clock clock' : nat -> Z).

Lemma runSync_outcome_connected clock0 fuel w s :
  db w = Some s ->
  (runSync GITLAB_URL api clock0 fuel w).1 =
  match outcome_of (syncProjects GITLAB_URL api fuel) with
  | Diverge => Diverge
  | _ => Ret tt
  end.
Proof.
  intros Hdb. pose proof (syncProjects_canonical GITLAB_URL api clock0 fuel w s Hdb)
    as Hrun.
  destruct (outcome_of (syncProjects GITLAB_URL api fuel)) as [n|e|].
  - now rewrite (runSync_returned GITLAB_URL api clock0 fuel w n _ _ Hrun eq_refl).
  - now rewrite (runSync_thrown GITLAB_URL api clock0 fuel w e _ Hrun).
  - now rewrite (runSync_diverged GITLAB_URL api clock0 fuel w _ Hrun).
Qed.

(** X7. A run that follows a run cut short by an outage of the remote
    (any set of requests answered with an error, [syncProjects] throwing
    at the first of them it meets) ends as, and leaves the store that, the
    same run leaves when nothing ran before it: what the failed run wrote
    is written again, with the same content, by the run that follows. *)
Theorem run_recovers fuel w :
  let failed := (runSync GITLAB_URL (outage down api) clock fuel w).2 in
  db (runSync GITLAB_URL api clock' fuel failed).2
  = db (runSync GITLAB_URL api clock' fuel w).2 /\
  (runSync GITLAB_URL api clock' fuel failed).1
  = (runSync GITLAB_URL api clock' fuel w).1.
Proof.
  intros failed. subst failed. destruct (db w) as [s|] eqn:Hdb.
  - pose proof (runSync_db_connected GITLAB_URL (outage down api) clock fuel w s Hdb)
      as Hfailed.
    split.
    + rewrite (runSync_db_connected GITLAB_URL api clock' fuel _ _ Hfailed).
      rewrite (runSync_db_connected GITLAB_URL api clock' fuel w s Hdb). f_equal.
      destruct (ahead_syncProjects GITLAB_URL api down fuel)
        as [[_ He]|[_ [rest Hrest]]].
      * rewrite He. apply replay_idem, (rd_events_keyed api), rd_syncProjects.
      * apply (replay_after_prefix _ _ rest); [|exact Hrest].
        apply (rd_events_keyed (outage down api)), rd_syncProjects.
    + rewrite (runSync_outcome_connected clock' fuel _ _ Hfailed).
      now rewrite (runSync_outcome_connected clock' fuel w s Hdb).
  - rewrite (runSync_disconnected GITLAB_URL (outage down api) clock fuel w Hdb).
    cbn [snd]. rewrite !runSync_disconnected by exact Hdb. split; reflexivity.
Qed.

End RunRecovers.

(** ** What the store holds after a run *)

Section Mirror.
Context (ks : list string).

Lemma matches_op_key op (d : document) :
  keyed_op ks op ->
  matches (bson <$> op_filter op) d = bool_decide (key_of ks d = op_key ks op).
Proof. intros Hop. apply (matches_key ks), (sent_dom ks op Hop). Qed.

(** An upsert leaves a record under its key. *)
Lemma updateOne_stores op (c : collection) :
  keyed_op ks op ->
  exists (i : nat) (d : document),
    updateOne op c !! i = Some ((bson <$> op_set op) ∪ d).
Proof.
  intros Hop. unfold updateOne. induction c as [|d0 c (i & d & Hi)]; cbn [upsert].
  - now exists 0%nat, (bson <$> op_filter op).
  - destruct (matches (bson <$> op_filter op) d0).
    + now exists 0%nat, d0.
    + now exists (S i), d.
Qed.

(** What a bulk write leaves of its last operation on a key. *)
Lemma bulkWrite_latest ops1 op ops2 (c : collection) :
  Forall (keyed_op ks) (ops1 ++ op :: ops2) ->
  Forall (fun op' => op_key ks op' <> op_key ks op) ops2 ->
  exists (i : nat) (d : document),
    bulkWrite (ops1 ++ op :: ops2) c !! i = Some ((bson <$> op_set op) ∪ d).
Proof.
  intros Hops Hlater. apply Forall_app in Hops as [_ Hops].
  inversion Hops as [|? ? Hop Hops2]; subst.
  rewrite bulkWrite_app.
  change (bulkWrite (op :: ops2) ?c') with (bulkWrite ops2 (updateOne op c')).
  destruct (updateOne_stores op (bulkWrite ops1 c) Hop) as (i & d & Hi).
  exists i, d. apply bulkWrite_unaddressed; [exact Hi|].
  unfold unaddressed. rewrite Forall_forall in Hops2, Hlater |- *.
  intros op' Hin. rewrite (matches_op_key op' _ (Hops2 op' Hin)).
  apply bool_decide_eq_false. rewrite (key_of_insert ks op Hop).
  intros Heq. now apply (Hlater op' Hin).
Qed.

(** The keys of a partition after a bulk write: those it had and those
    the operations address. *)
Lemma keys_bulkWrite ops : forall (c : collection) k,
  Forall (keyed_op ks) ops ->
  k ∈ map (key_of ks) (bulkWrite ops c) <->
  k ∈ map (key_of ks) c \/ k ∈ map (op_key ks) ops.
Proof.
  induction ops as [|op ops IH]; intros c k Hops.
  - cbn. split; [now left | intros [H|H]; [exact H | inversion H]].
  - inversion Hops as [|? ? Hop Hops']; subst.
    change (bulkWrite (op :: ops) c) with (bulkWrite ops (updateOne op c)).
    rewrite (IH _ k Hops'), (keys_updateOne ks op Hop). cbn [map].
    rewrite elem_of_cons.
    destruct (existsb (matches (bson <$> op_filter op)) c) eqn:Hex.
    + assert (Hin : op_key ks op ∈ map (key_of ks) c).
      { apply existsb_exists in Hex as (d & Hd & Hm).
        rewrite (matches_op_key op d Hop) in Hm.
        apply bool_decide_eq_true in Hm. rewrite <- Hm.
        apply list_elem_of_In, in_map, Hd. }
      split; [tauto|]. intros [H|[->|H]]; tauto.
    + rewrite elem_of_app, list_elem_of_singleton. tauto.
Qed.

End Mirror.

Section RunMirrors.
Context (GITLAB_URL : string) (api : string -> list (string * value) -> response)
        (now : nat -> Z).

(** X8. After a run the natural keys in each partition of the store are
    those it held before and those of the operations the run sent, no
    other; and for the last operation sent on a key, the store holds a
    record carrying every field of its set with the value sent. *)
Theorem run_mirrors fuel s t c :
  let ran := runSync GITLAB_URL api now fuel (World (Some s) t c) in
  let evs := events_of (syncProjects GITLAB_URL api fuel) in
  exists s',
    db ran.2 = Some s' /\
    (forall col k,
       k ∈ map (key_of (key_fields col)) (coll s' col) <->
       k ∈ map (key_of (key_fields col)) (coll s col) \/
       k ∈ map (op_key (key_fields col)) (ops_for col evs)) /\
    (forall col ops1 op ops2,
       ops_for col evs = ops1 ++ op :: ops2 ->
       Forall (fun op' => op_key (key_fields col) op' <> op_key (key_fields col) op)
         ops2 ->
       exists d : document, (bson <$> op_set op) ∪ d ∈ coll s' col).
Proof.
  intros ran evs. exists (replay evs s).
  split; [apply (runSync_db_connected GITLAB_URL api now fuel (World (Some s) t c) s
                    eq_refl)|].
  assert (Hk : forall col, Forall (keyed_op (key_fields col)) (ops_for col evs)).
  { intros col. apply keyed_ops_for, (rd_events_keyed api), rd_syncProjects. }
  split.
  - intros col k. rewrite coll_replay. apply keys_bulkWrite, Hk.
  - intros col ops1 op ops2 Hops Hlater. rewrite coll_replay, Hops.
    specialize (Hk col). rewrite Hops in Hk.
    destruct (bulkWrite_latest (key_fields col) ops1 op ops2 (coll s col) Hk Hlater)
      as (i & d & Hi).
    exists d. now apply list_elem_of_lookup_2 in Hi.
Qed.

End RunMirrors.

Section Counts.
Context (GITLAB_URL : string) (api : string -> list (string * value) -> response)
        (now : nat -> Z).

Lemma store_unique_keys_empty : store_unique_keys ∅.
Proof. intros col. unfold unique_keys, coll. rewrite lookup_empty. constructor. Qed.

(** X18. On a store with at most one record per natural key, the number
    of records of each partition after a run is the number of distinct
    natural keys among those it held and those of the operations the run
    sent to it. *)
Theorem run_counts_keys fuel s t c :
  store_unique_keys s ->
  let ran := runSync GITLAB_URL api now fuel (World (Some s) t c) in
  let evs := events_of (syncProjects GITLAB_URL api fuel) in
  exists s',
    db ran.2 = Some s' /\
    forall col,
      countDocuments (coll s' col) =
      length (remove_dups (map (key_of (key_fields col)) (coll s col)
                             ++ map (op_key (key_fields col)) (ops_for col evs))).
Proof.
  intros Hs ran evs. exists (replay evs s).
  split; [apply (runSync_db_connected GITLAB_URL api now fuel (World (Some s) t c) s
                    eq_refl)|].
  intros col. unfold countDocuments.
  assert (Hk : Forall keyed_event evs)
    by apply (rd_events_keyed api), rd_syncProjects.
  rewrite <- (length_map (key_of (key_fields col))).
  apply Permutation_length, NoDup_Permutation.
  - apply (replay_unique_keys evs s Hk Hs col).
  - apply NoDup_remove_dups.
  - intros k. rewrite elem_of_remove_dups, elem_of_app, coll_replay.
    apply keys_bulkWrite, keyed_ops_for, Hk.
Qed.

End Counts.

(** ** Without a store; the end of a run *)

Section WithoutStore.
Context (GITLAB_URL : string) (api : string -> list (string * value) -> response)
        (now : nat -> Z).

(** X9. Before the store is connected nothing is fetched: each syncer and
    [syncProjects] throw "Database not connected" at their first
    statement, leaving the world as it was, and a run writes its start
    line and the failure line and ends [Failed]. *)
Theorem run_without_store fuel projectId t c :
  let w := World None t c in
  syncMembers GITLAB_URL api fuel projectId w = (Throw DatabaseNotConnected, w) /\
  syncCommits GITLAB_URL api fuel projectId w = (Throw DatabaseNotConnected, w) /\
  syncMergeRequests GITLAB_URL api fuel projectId w
    = (Throw DatabaseNotConnected, w) /\
  syncIssues GITLAB_URL api fuel projectId w = (Throw DatabaseNotConnected, w) /\
  syncProjects GITLAB_URL api fuel w = (Throw DatabaseNotConnected, w) /\
  runSync GITLAB_URL api now fuel w =
    (Ret tt,
     World None
       (t ++ [ELog (LogStart (now (S c))); ELog (LogFailed "Database not connected")])
       (S (S c))) /\
  state_after (trace (runSync GITLAB_URL api now fuel w).2) = Failed.
Proof.
  intros w.
  repeat (split; [now apply sync_listing_disconnected|]).
  split; [now apply syncProjects_disconnected|].
  rewrite (runSync_disconnected GITLAB_URL api now fuel w eq_refl).
  unfold entered, emit. cbn [db trace clock_reads w snd message].
  rewrite <- app_assoc. split; [reflexivity|].
  rewrite app_assoc. apply state_after_failed.
Qed.

Lemma state_after_completed t n elapsed :
  state_after (t ++ [ELog (LogCompleted n elapsed)]) = Idle.
Proof. unfold state_after. now rewrite last_snoc. Qed.

(** X10. A run never throws.  It returns having written the completion
    line if [syncProjects] returned, and the failure line if
    [syncProjects] threw; it is still running only if [syncProjects]
    is. *)
Theorem run_never_throws fuel w :
  let ran := runSync GITLAB_URL api now fuel w in
  (forall e, ran.1 <> Throw e) /\
  match (syncProjects GITLAB_URL api fuel (entered now w)).1 with
  | Ret n => ran.1 = Ret tt /\ state_after (trace ran.2) = Idle
  | Throw e => ran.1 = Ret tt /\ state_after (trace ran.2) = Failed
  | Diverge => ran.1 = Diverge
  end.
Proof.
  intros ran. subst ran.
  destruct (syncProjects GITLAB_URL api fuel (entered now w)) as [[n|e|] w1] eqn:Hrun;
    cbn [fst].
  - assert (Hdb : exists s1, db w1 = Some s1).
    { destruct (db w) as [s|] eqn:Hdb.
      - rewrite (syncProjects_canonical GITLAB_URL api now fuel w s Hdb) in Hrun.
        injection Hrun as _ <-. now eexists.
      - rewrite (syncProjects_disconnected GITLAB_URL api fuel (entered now w) Hdb)
          in Hrun. discriminate Hrun. }
    destruct Hdb as [s1 Hdb].
    rewrite (runSync_returned GITLAB_URL api now fuel w n w1 s1 Hrun Hdb).
    cbn [fst snd trace]. split; [discriminate|]. split; [reflexivity|].
    change (?a :: ?l ++ [?b]) with ((a :: l) ++ [b]).
    rewrite app_assoc. apply state_after_completed.
  - rewrite (runSync_thrown GITLAB_URL api now fuel w e w1 Hrun).
    cbn [fst snd trace emit]. split; [discriminate|]. split; [reflexivity|].
    apply state_after_failed.
  - rewrite (runSync_diverged GITLAB_URL api now fuel w w1 Hrun).
    cbn [fst]. split; [discriminate | reflexivity].
Qed.

End WithoutStore.

(** ** The mapping of authors, optional fields and collections *)

Section Mapping.

Lemma get_prop_or_else_object v k :
  get_prop (or_else v (VObj [])) k =
  Ok (match v with VObj a => default VUndef (assoc k a) | _ => VUndef end).
Proof.
  unfold or_else. destruct v as [| |b|n|s|l|o]; cbn; try reflexivity.
  - now destruct b.
  - now destruct (Z.eqb n 0).
  - now destruct (String.eqb s "").
Qed.

Lemma or_else_string s v : s <> "" -> or_else (VStr s) v = VStr s.
Proof.
  intros Hs. unfold or_else. cbn [truthy].
  destruct (String.eqb_spec s ""); [contradiction | reflexivity].
Qed.

Lemma author_mapped_intro (o : list (string * value)) (op : update_op) :
  op_set op !! "author_username" =
    Some (or_else (match default VUndef (assoc "author" o) with
                   | VObj a => default VUndef (assoc "username" a)
                   | _ => VUndef
                   end) VNull) ->
  op_set op !! "author_name" =
    Some (or_else (match default VUndef (assoc "author" o) with
                   | VObj a => default VUndef (assoc "name" a)
                   | _ => VUndef
                   end) VNull) ->
  author_mapped o op.
Proof.
  intros Hu Hn. split.
  - intros Hno. rewrite Hu, Hn.
    destruct (assoc "author" o) as [[| | | | | |a]|]; try (now split).
    now destruct (Hno a).
  - intros a Ha. rewrite Ha in Hu, Hn. cbn [default from_option id] in Hu, Hn.
    rewrite Hu, Hn. split; [|split; [|split]].
    + intros u -> Hne. cbn [default from_option id]. now rewrite or_else_string.
    + intros n -> Hne. cbn [default from_option id]. now rewrite or_else_string.
    + now intros ->.
    + now intros ->.
Qed.

Lemma nullable_intro o k (doc : document) k' :
  doc !! k' = Some (or_else (default VUndef (assoc k o)) VNull) ->
  nullable o k doc k'.
Proof.
  intros H. unfold nullable. rewrite H. split; [|split; [|split]].
  - now intros ->.
  - now intros ->.
  - now intros ->.
  - intros s -> Hs. cbn [default from_option id]. now rewrite or_else_string.
Qed.

Lemma merge_request_op_fields projectId o :
  merge_request_op projectId (VObj o) =
  Ok (UpdateOne
        {[ "project_id" := projectId; "iid" := default VUndef (assoc "iid" o) ]}
        {[ "project_id" := projectId;
           "iid" := default VUndef (assoc "iid" o);
           "title" := default VUndef (assoc "title" o);
           "author_username" :=
             or_else (match default VUndef (assoc "author" o) with
                      | VObj a => default VUndef (assoc "username" a)
                      | _ => VUndef
                      end) VNull;
           "author_name" :=
             or_else (match default VUndef (assoc "author" o) with
                      | VObj a => default VUndef (assoc "name" a)
                      | _ => VUndef
                      end) VNull;
           "state" := default VUndef (assoc "state" o);
           "created_at" := default VUndef (assoc "created_at" o);
           "merged_at" := or_else (default VUndef (assoc "merged_at" o)) VNull;
           "closed_at" := or_else (default VUndef (assoc "closed_at" o)) VNull;
           "source_branch" := default VUndef (assoc "source_branch" o);
           "target_branch" := default VUndef (assoc "target_branch" o);
           "merge_commit_sha" :=
             or_else (default VUndef (assoc "merge_commit_sha" o)) VNull ]}).
Proof.
  unfold merge_request_op. rewrite !get_prop_object.
  cbn [mbind result_bind mret result_ret].
  rewrite !get_prop_or_else_object. reflexivity.
Qed.

Lemma issue_op_fields projectId o :
  issue_op projectId (VObj o) =
  match issue_assignees (VObj o) with
  | Ok assignees =>
      Ok (UpdateOne
        {[ "project_id" := projectId; "iid" := default VUndef (assoc "iid" o) ]}
        {[ "project_id" := projectId;
           "iid" := default VUndef (assoc "iid" o);
           "title" := default VUndef (assoc "title" o);
           "author_username" :=
             or_else (match default VUndef (assoc "author" o) with
                      | VObj a => default VUndef (assoc "username" a)
                      | _ => VUndef
                      end) VNull;
           "author_name" :=
             or_else (match default VUndef (assoc "author" o) with
                      | VObj a => default VUndef (assoc "name" a)
                      | _ => VUndef
                      end) VNull;
           "assignees" := assignees;
           "state" := default VUndef (assoc "state" o);
           "labels" := or_else (default VUndef (assoc "labels" o)) (VArr []);
           "created_at" := default VUndef (assoc "created_at" o);
           "closed_at" := or_else (default VUndef (assoc "closed_at" o)) VNull ]})
  | Err e => Err e
  end.
Proof.
  unfold issue_op. rewrite !get_prop_object.
  cbn [mbind result_bind mret result_ret].
  destruct (issue_assignees (VObj o)) as [assignees|e];
    cbn [mbind result_bind mret result_ret]; [|reflexivity].
  rewrite !get_prop_or_else_object. reflexivity.
Qed.

Lemma issue_op_Ok projectId o op :
  issue_op projectId (VObj o) = Ok op ->
  exists assignees,
    issue_assignees (VObj o) = Ok assignees /\
    op_set op !! "assignees" = Some assignees /\
    op_set op !! "labels"
      = Some (or_else (default VUndef (assoc "labels" o)) (VArr [])) /\
    op_set op !! "closed_at"
      = Some (or_else (default VUndef (assoc "closed_at" o)) VNull) /\
    op_set op !! "author_username" =
      Some (or_else (match default VUndef (assoc "author" o) with
                     | VObj a => default VUndef (assoc "username" a)
                     | _ => VUndef
                     end) VNull) /\
    op_set op !! "author_name" =
      Some (or_else (match default VUndef (assoc "author" o) with
                     | VObj a => default VUndef (assoc "name" a)
                     | _ => VUndef
                     end) VNull).
Proof.
  rewrite issue_op_fields.
  destruct (issue_assignees (VObj o)) as [assignees|e]; [|discriminate].
  intros [= <-]. exists assignees. cbn [op_set].
  repeat (split; [now simplify_map_eq|]). now simplify_map_eq.
Qed.

Lemma project_doc_fields o :
  project_doc (VObj o) =
  Ok ({[ "project_id" := default VUndef (assoc "id" o);
         "name" := default VUndef (assoc "name" o);
         "path_with_namespace" := default VUndef (assoc "path_with_namespace" o);
         "description" := or_else (default VUndef (assoc "description" o)) VNull;
         "created_at" := default VUndef (assoc "created_at" o);
         "default_branch" :=
           or_else (default VUndef (assoc "default_branch" o)) VNull;
         "web_url" := default VUndef (assoc "web_url" o) ]} : document).
Proof. reflexivity. Qed.

(** X11. The author of a merge request or an issue: without an author
    object in the remote record both author fields are null; with one,
    each field is the author's non-empty string, and null when the author
    has none. *)
Theorem author_defaulting projectId o :
  (exists op, merge_request_op projectId (VObj o) = Ok op /\ author_mapped o op) /\
  (forall op, issue_op projectId (VObj o) = Ok op -> author_mapped o op).
Proof.
  split.
  - eexists. split; [apply merge_request_op_fields|].
    apply author_mapped_intro; cbn [op_set]; now simplify_map_eq.
  - intros op Hop.
    destruct (issue_op_Ok projectId o op Hop) as (l & _ & _ & _ & _ & Hu & Hn).
    now apply author_mapped_intro.
Qed.

(** X12. The optional fields (the description and the default branch of
    a project, the merge and close times and the merge commit of a merge
    request, the close time of an issue) are stored as null when the
    remote record has none, has null or has the empty string, and as the
    remote string otherwise. *)
Theorem optional_fields_null projectId o :
  (exists doc, project_doc (VObj o) = Ok doc /\
     nullable o "description" doc "description" /\
     nullable o "default_branch" doc "default_branch") /\
  (exists op, merge_request_op projectId (VObj o) = Ok op /\
     nullable o "merged_at" (op_set op) "merged_at" /\
     nullable o "closed_at" (op_set op) "closed_at" /\
     nullable o "merge_commit_sha" (op_set op) "merge_commit_sha") /\
  (forall op, issue_op projectId (VObj o) = Ok op ->
     nullable o "closed_at" (op_set op) "closed_at").
Proof.
  split; [|split].
  - eexists. split; [apply project_doc_fields|].
    split; apply nullable_intro; now simplify_map_eq.
  - eexists. split; [apply merge_request_op_fields|].
    split; [|split]; apply nullable_intro; cbn [op_set]; now simplify_map_eq.
  - intros op Hop.
    destruct (issue_op_Ok projectId o op Hop) as (l & _ & _ & _ & Hc & _).
    now apply nullable_intro.
Qed.

(** The reduction of one assignee to its username and name. *)
Lemma assignees_mapped (l : list value) :
  Forall (fun a => a <> VNull /\ a <> VUndef) l ->
  exists l',
    array_map (fun a =>
                 username ← get_prop a "username";
                 name ← get_prop a "name";
                 mret (VObj [("username", username); ("name", name)])) l = Ok l' /\
    length l' = length l /\
    forall (i : nat) oa, l !! i = Some (VObj oa) ->
      l' !! i = Some (VObj [("username", default VUndef (assoc "username" oa));
                            ("name", default VUndef (assoc "name" oa))]).
Proof.
  induction 1 as [|a l [Hnull Hundef] _ (l' & Hl' & Hlen & Hat)].
  - exists []. split; [reflexivity|]. split; [reflexivity|].
    intros i oa Hi. destruct i; discriminate Hi.
  - cbn [array_map]. rewrite Hl'.
    destruct a as [| |b|n|s|la|oa]; try contradiction;
      cbn [get_prop mbind result_bind mret result_ret];
      eexists; (split; [reflexivity|]); (split; [cbn; now rewrite Hlen|]);
      intros [|i] oa' Hi; try discriminate Hi; try (now apply Hat).
    now injection Hi as <-.
Qed.

Lemma assignees_unreadable (l : list value) :
  Exists (fun a => a = VNull \/ a = VUndef) l ->
  exists msg,
    array_map (fun a =>
                 username ← get_prop a "username";
                 name ← get_prop a "name";
                 mret (VObj [("username", username); ("name", name)])) l
    = Err (TypeError msg).
Proof.
  induction l as [|a l IH]; intros Hex; [inversion Hex|].
  cbn [array_map].
  destruct a as [| |b|n|s|la|oa];
    cbn [get_prop mbind result_bind mret result_ret]; try (now eexists);
    (assert (Hl : Exists (fun a => a = VNull \/ a = VUndef) l)
       by (inversion Hex as [? ? [H|H]|]; [discriminate H..|assumption]));
    destruct (IH Hl) as [msg ->]; now exists msg.
Qed.

(** X13. The assignees and the labels of an issue: absent, null or
    otherwise falsy assignees are stored as the empty list; a list of
    assignees is stored in order, each reduced to its username and name; a
    null assignee, or assignees that are neither falsy nor a list, make
    the mapping throw a [TypeError]; absent labels are stored as the empty
    list and a list of labels as it is. *)
Theorem issue_collections projectId o :
  let assignees := default VUndef (assoc "assignees" o) in
  (truthy assignees = false ->
     exists op, issue_op projectId (VObj o) = Ok op /\
                op_set op !! "assignees" = Some (VArr [])) /\
  (forall l, assignees = VArr l ->
     Forall (fun a => a <> VNull /\ a <> VUndef) l ->
     exists op l',
       issue_op projectId (VObj o) = Ok op /\
       op_set op !! "assignees" = Some (VArr l') /\
       length l' = length l /\
       forall (i : nat) oa, l !! i = Some (VObj oa) ->
         l' !! i = Some (VObj [("username", default VUndef (assoc "username" oa));
                               ("name", default VUndef (assoc "name" oa))])) /\
  (forall l, assignees = VArr l ->
     Exists (fun a => a = VNull \/ a = VUndef) l ->
     exists msg, issue_op projectId (VObj o) = Err (TypeError msg)) /\
  (truthy assignees = true -> (forall l, assignees <> VArr l) ->
     exists msg, issue_op projectId (VObj o) = Err (TypeError msg)) /\
  (forall op, issue_op projectId (VObj o) = Ok op ->
     (truthy (default VUndef (assoc "labels" o)) = false ->
        op_set op !! "labels" = Some (VArr [])) /\
     (forall l, assoc "labels" o = Some (VArr l) ->
        op_set op !! "labels" = Some (VArr l))).
Proof.
  intros assignees. rewrite issue_op_fields.
  unfold issue_assignees. rewrite get_prop_object.
  cbn [mbind result_bind mret result_ret]. fold assignees.
  split; [|split; [|split; [|split]]].
  - intros Hf. unfold or_else. rewrite Hf. cbn [array_map mbind result_bind mret result_ret].
    eexists. split; [reflexivity|]. cbn [op_set]. now simplify_map_eq.
  - intros l -> Hl. unfold or_else. cbn [truthy].
    destruct (assignees_mapped l Hl) as (l' & -> & Hlen & Hat).
    cbn [mbind result_bind mret result_ret].
    eexists _, l'. split; [reflexivity|]. split; [|now split].
    cbn [op_set]. now simplify_map_eq.
  - intros l -> Hl. unfold or_else. cbn [truthy].
    destruct (assignees_unreadable l Hl) as (msg & ->).
    cbn [mbind result_bind]. now exists msg.
  - intros Ht Hno. unfold or_else. rewrite Ht.
    destruct assignees as [| |b|n|s|l|oa]; try (now eexists).
    now destruct (Hno l).
  - intros op Hop. unfold or_else in Hop.
    destruct (if truthy assignees then assignees else VArr [])
      as [| |b|n|s|l|oa]; try discriminate Hop.
    destruct (array_map _ l) as [l'|e]; [|discriminate Hop].
    cbn [mbind result_bind mret result_ret] in Hop. injection Hop as <-.
    cbn [op_set]. split.
    + intros Hf. unfold or_else. rewrite Hf. now simplify_map_eq.
    + intros ls Hls. rewrite Hls. cbn [default from_option id or_else truthy].
      now simplify_map_eq.
Qed.

End Mapping.

Section Readable.

Lemma commit_op_object projectId o :
  exists op, commit_op projectId (VObj o) = Ok op.
Proof.
  unfold commit_op. rewrite !get_prop_object.
  cbn [mbind result_bind mret result_ret].
  rewrite !get_prop_or_else_object. now eexists.
Qed.

(** X14. A remote record that is [null] or [undefined] cannot be read:
    every mapping throws a [TypeError] on it.  Any other record can: the
    mappings of projects, members, commits and merge requests return on
    it, whatever fields it has or lacks. *)
Theorem records_readable projectId r :
  ((r = VNull \/ r = VUndef) ->
     (exists msg, project_doc r = Err (TypeError msg)) /\
     (exists msg, member_op projectId r = Err (TypeError msg)) /\
     (exists msg, commit_op projectId r = Err (TypeError msg)) /\
     (exists msg, merge_request_op projectId r = Err (TypeError msg)) /\
     (exists msg, issue_op projectId r = Err (TypeError msg))) /\
  (r <> VNull -> r <> VUndef ->
     (exists doc, project_doc r = Ok doc) /\
     (exists op, member_op projectId r = Ok op) /\
     (exists op, commit_op projectId r = Ok op) /\
     (exists op, merge_request_op projectId r = Ok op)).
Proof.
  split.
  - intros [-> | ->]; repeat split; now eexists.
  - intros Hnull Hundef.
    destruct r as [| |b|n|s|l|o]; try contradiction;
      try (repeat split; now eexists).
    split; [now eexists|]. split; [now eexists|].
    split; [apply commit_op_object|].
    eexists. apply merge_request_op_fields.
Qed.

End Readable.

(** ** The records of other projects *)

Section ProjectScope.

Lemma of_project_unaddressed pid ops (d : document) :
  Forall (of_project pid) ops -> foreign pid d -> unaddressed ops d.
Proof.
  intros Hops Hd. unfold unaddressed. eapply Forall_impl; [exact Hops|].
  intros op Hop. apply not_true_is_false. intros Hm.
  apply Hd, (proj1 (matches_spec _ _) Hm).
  now rewrite lookup_fmap, Hop.
Qed.

Context (GITLAB_URL : string) (api : string -> list (string * value) -> response).

Lemma sync_listing_leaves_foreign fuel url params col to_op pid w :
  (forall x op, to_op x = Ok op -> of_project pid op) ->
  leaves_foreign pid col (sync_listing api fuel url params col to_op) w.
Proof.
  intros Hscope. destruct w as [[s|] t c]; unfold leaves_foreign; cbn [db].
  - destruct (sync_listing_all_or_nothing api fuel url params col to_op s t c)
      as (n & _ & [(records & ops & _ & _ & Hops & ->)|[-> _]]).
    + cbn [snd db fmap option_fmap option_map]. eexists. split; [reflexivity|].
      intros i d Hd Hforeign. rewrite coll_on_collection, String.eqb_refl.
      apply bulkWrite_unaddressed; [exact Hd|].
      apply (of_project_unaddressed pid); [|exact Hforeign].
      apply (array_map_Forall to_op _ records ops Hscope Hops).
    + cbn [fetched db]. exists s. now split.
  - now rewrite sync_listing_disconnected.
Qed.

(** X15. A syncer called for a project leaves the records of every other
    project as they were: in its partition, a record whose [project_id] is
    not the one the syncer was called with keeps its place and its
    fields. *)
Theorem syncer_project_scope fuel projectId w :
  leaves_foreign projectId "members"
    (syncMembers GITLAB_URL api fuel projectId) w /\
  leaves_foreign projectId "commits"
    (syncCommits GITLAB_URL api fuel projectId) w /\
  leaves_foreign projectId "merge_requests"
    (syncMergeRequests GITLAB_URL api fuel projectId) w /\
  leaves_foreign projectId "issues"
    (syncIssues GITLAB_URL api fuel projectId) w.
Proof.
  split; [|split; [|split]]; apply sync_listing_leaves_foreign.
  - apply member_op_of_project.
  - apply commit_op_of_project.
  - apply merge_request_op_of_project.
  - apply issue_op_of_project.
Qed.

End ProjectScope.

Section OpsSatisfy.
Context (P : update_op -> Prop).

Lemma ops_satisfy_impl (Q : update_op -> Prop) e :
  (forall op, P op -> Q op) -> ops_satisfy P e -> ops_satisfy Q e.
Proof.
  intros HPQ. destruct e as [| col op | col ops |]; cbn; auto.
  intros H. eapply Forall_impl; [exact H | exact HPQ].
Qed.

Lemma ops_for_satisfy col evs :
  Forall (ops_satisfy P) evs -> Forall P (ops_for col evs).
Proof.
  unfold ops_for. induction 1 as [|e evs He _ IH]; [constructor|].
  cbn [flat_map]. apply Forall_app. split; [|assumption].
  destruct e as [| c op | c ops |]; try constructor.
  - destruct (String.eqb c col); constructor; [exact He | constructor].
  - destruct (String.eqb c col); [exact He | constructor].
Qed.

Lemma ops_satisfy_page_fetches url params first n :
  Forall (ops_satisfy P) (page_fetches url params first n).
Proof. unfold page_fetches. apply Forall_map, Forall_forall. now intros. Qed.

End OpsSatisfy.

Section RunScope.
Context (GITLAB_URL : string) (api : string -> list (string * value) -> response).

Lemma Forall_events_bind {A B} (P : event -> Prop) (m : M A) (f : A -> M B) :
  remote_determined api m -> (forall a, remote_determined api (f a)) ->
  Forall P (events_of m) ->
  (forall a, outcome_of m = Ret a -> Forall P (events_of (f a))) ->
  Forall P (events_of (m ≫= f)).
Proof.
  intros Hm Hf HPm HPf. destruct (oe_bind api m f Hm Hf) as [_ ->].
  apply Forall_app. split; [assumption|].
  destruct (outcome_of m) as [a|e|]; [now apply HPf | constructor..].
Qed.

Lemma events_of_paginatedGet fuel url params :
  exists n, events_of (paginatedGet api fuel url params)
            = page_fetches url params 1 n.
Proof.
  destruct (paginatedGet_fetched api fuel url params fresh) as (n & _ & H).
  exists n. unfold events_of. now rewrite H.
Qed.

Lemma scoped_sync_listing (P : update_op -> Prop) fuel url params col to_op :
  (forall x op, to_op x = Ok op -> P op) ->
  Forall (ops_satisfy P) (events_of (sync_listing api fuel url params col to_op)).
Proof.
  intros Hscope. unfold events_of, fresh.
  destruct (sync_listing_all_or_nothing api fuel url params col to_op ∅ [] 0%nat)
    as (n & _ & [(records & ops & _ & _ & Hops & ->)|[-> _]]);
    cbn [snd trace fetched app].
  - apply Forall_app. split; [apply ops_satisfy_page_fetches|].
    repeat constructor. apply (array_map_Forall to_op _ records ops Hscope Hops).
  - apply ops_satisfy_page_fetches.
Qed.

Ltac rd_tac :=
  cbv beta;
  repeat match goal with
         | |- forall _, _ => intros ?
         | |- remote_determined _ (_ ≫= _) => apply rd_bind; [|intros ?]
         | |- remote_determined _ (console_log _) => apply rd_console_log
         | |- remote_determined _ getDB => apply rd_getDB
         | |- remote_determined _ (paginatedGet _ _ _ _) => apply rd_paginatedGet
         | |- remote_determined _ (syncMembers _ _ _ _) => apply rd_syncMembers
         | |- remote_determined _ (syncCommits _ _ _ _) => apply rd_syncCommits
         | |- remote_determined _ (syncMergeRequests _ _ _ _) =>
             apply rd_syncMergeRequests
         | |- remote_determined _ (syncIssues _ _ _ _) => apply rd_syncIssues
         | |- remote_determined _ (syncProject _ _ _ _) => apply rd_syncProject
         | |- remote_determined _ (for_of _ _) => apply rd_for_of
         | |- remote_determined _ (mret _) => apply rd_ret
         end.

Ltac scoped_step :=
  apply Forall_events_bind; [rd_tac | rd_tac | | intros ? _].

Ltac scoped_log := repeat constructor.

Lemma scoped_syncEntities (P : update_op -> Prop) fuel pid :
  (forall op, of_project pid op -> P op) ->
  Forall (ops_satisfy P) (events_of (syncEntities GITLAB_URL api fuel pid)).
Proof.
  intros HP. unfold syncEntities.
  scoped_step.
  { apply scoped_sync_listing. intros x op H. eapply HP, member_op_of_project, H. }
  scoped_step; [scoped_log|].
  scoped_step.
  { apply scoped_sync_listing. intros x op H. eapply HP, commit_op_of_project, H. }
  scoped_step; [scoped_log|].
  scoped_step.
  { apply scoped_sync_listing. intros x op H.
    eapply HP, merge_request_op_of_project, H. }
  scoped_step; [scoped_log|].
  scoped_step.
  { apply scoped_sync_listing. intros x op H. eapply HP, issue_op_of_project, H. }
  scoped_log.
Qed.

Lemma scoped_syncProject projects fuel project :
  project ∈ projects ->
  Forall (ops_satisfy (of_listed projects))
    (events_of (syncProject GITLAB_URL api fuel project)).
Proof.
  intros Hin.
  destruct (get_prop project "id") as [pid|e] eqn:Hid.
  2:{ unfold events_of, syncProject. rewrite Hid. constructor. }
  destruct (get_prop project "path_with_namespace") as [name|e] eqn:Hname.
  2:{ unfold events_of, syncProject. rewrite Hid, Hname. constructor. }
  destruct (project_doc project) as [doc|e] eqn:Hdoc.
  2:{ unfold events_of, syncProject. rewrite Hid, Hname, Hdoc.
      repeat constructor. }
  destruct (oe_syncProject GITLAB_URL api fuel project pid name doc Hid Hname Hdoc)
    as [_ ->].
  assert (HP : forall op, of_project pid op -> of_listed projects op)
    by (intros op Hop; now exists project, pid).
  apply Forall_app. split.
  - repeat constructor. cbn [ops_satisfy].
    apply HP, (project_op_of_project project pid doc Hid Hdoc).
  - now apply scoped_syncEntities.
Qed.

Lemma scoped_for_of projects fuel ps :
  (forall p, p ∈ ps -> p ∈ projects) ->
  Forall (ops_satisfy (of_listed projects))
    (events_of (for_of ps (syncProject GITLAB_URL api fuel))).
Proof.
  induction ps as [|p ps IH]; intros Hsub; [constructor|].
  cbn [for_of]. scoped_step.
  - apply scoped_syncProject, Hsub. now left.
  - apply IH. intros q Hq. apply Hsub. now right.
Qed.

Lemma scoped_syncProjects fuel projects :
  outcome_of (paginatedGet api fuel (GITLAB_URL +:+ "/api/v4/projects")
                [("membership", VBool true)]) = Ret projects ->
  Forall (ops_satisfy (of_listed projects))
    (events_of (syncProjects GITLAB_URL api fuel)).
Proof.
  intros Hlisting. unfold syncProjects.
  scoped_step; [constructor|].
  apply Forall_events_bind; [rd_tac | rd_tac | | intros listed Hlisted].
  { destruct (events_of_paginatedGet fuel (GITLAB_URL +:+ "/api/v4/projects")
                [("membership", VBool true)]) as [n ->].
    apply ops_satisfy_page_fetches. }
  rewrite Hlisting in Hlisted. injection Hlisted as <-.
  scoped_step; [scoped_log|].
  scoped_step; [now apply scoped_for_of | constructor].
Qed.

Lemma replay_no_writes evs : forall s : store,
  Forall (fun e => is_write e = false) evs -> replay evs s = s.
Proof.
  induction evs as [|e evs IH]; intros s Hevs; [reflexivity|].
  inversion Hevs as [|? ? He Hevs']; subst.
  change (replay (e :: evs) s) with (replay evs (write_event e s)).
  rewrite IH by assumption. now destruct e.
Qed.

Lemma syncProjects_unlisted fuel :
  (forall projects,
     outcome_of (paginatedGet api fuel (GITLAB_URL +:+ "/api/v4/projects")
                   [("membership", VBool true)]) <> Ret projects) ->
  Forall (fun e => is_write e = false)
    (events_of (syncProjects GITLAB_URL api fuel)).
Proof.
  intros Hno. unfold syncProjects.
  apply Forall_events_bind; [rd_tac | rd_tac | constructor | intros _ _].
  apply Forall_events_bind; [rd_tac | rd_tac | | intros listed Hlisted].
  - destruct (events_of_paginatedGet fuel (GITLAB_URL +:+ "/api/v4/projects")
                [("membership", VBool true)]) as [n ->].
    unfold page_fetches. apply Forall_map, Forall_forall. now intros.
  - now destruct (Hno listed).
Qed.

Lemma of_listed_unaddressed projects ops (d : document) :
  Forall (of_listed projects) ops ->
  (forall project pid, project ∈ projects -> get_prop project "id" = Ok pid ->
     foreign pid d) ->
  unaddressed ops d.
Proof.
  intros Hops Hd. unfold unaddressed. eapply Forall_impl; [exact Hops|].
  intros op (project & pid & Hin & Hid & Hop).
  pose proof (of_project_unaddressed pid [op] d
                (Forall_cons_2 _ _ _ Hop (Forall_nil_2 _)) (Hd project pid Hin Hid))
    as Hun.
  now inversion Hun.
Qed.

End RunScope.

Section RunProjectScope.
Context (GITLAB_URL : string) (api : string -> list (string * value) -> response)
        (now : nat -> Z).

(** X16. A run changes the records of the projects it lists and no
    other: when the project listing returns, a stored record whose
    [project_id] is the id of none of the listed projects (a project
    removed upstream, say) is left exactly as it was, in every partition;
    and when the project listing does not return, the store is left as it
    was. *)
Theorem run_project_scope fuel s t c :
  let ran := runSync GITLAB_URL api now fuel (World (Some s) t c) in
  let listing := outcome_of (paginatedGet api fuel (GITLAB_URL +:+ "/api/v4/projects")
                               [("membership", VBool true)]) in
  exists s',
    db ran.2 = Some s' /\
    (forall projects, listing = Ret projects ->
       forall col (i : nat) (d : document),
         coll s col !! i = Some d ->
         (forall project pid, project ∈ projects ->
            get_prop project "id" = Ok pid -> foreign pid d) ->
         coll s' col !! i = Some d) /\
    ((forall projects, listing <> Ret projects) -> s' = s).
Proof.
  intros ran listing.
  exists (replay (events_of (syncProjects GITLAB_URL api fuel)) s).
  split; [apply (runSync_db_connected GITLAB_URL api now fuel (World (Some s) t c) s
                    eq_refl)|].
  split.
  - intros projects Hlisting col i d Hd Hforeign. rewrite coll_replay.
    apply bulkWrite_unaddressed; [exact Hd|].
    apply (of_listed_unaddressed projects); [|exact Hforeign].
    apply ops_for_satisfy, scoped_syncProjects, Hlisting.
  - intros Hno. apply replay_no_writes, syncProjects_unlisted, Hno.
Qed.

End RunProjectScope.

(** ** A run on an empty project listing *)

Section NoProjects.
Context (GITLAB_URL : string) (api : string -> list (string * value) -> response)
        (now : nat -> Z).

(** X17. When the project listing is empty a run completes and changes
    nothing: after the start line it fetches the first page, reports 0
    projects found, writes the summary of the store as it was and the
    completion line for 0 projects. *)
Theorem run_no_projects fuel s t c :
  let url := GITLAB_URL +:+ "/api/v4/projects" in
  let params := [("membership", VBool true)] in
  api url (page_request params 1) = HttpOk [] ->
  runSync GITLAB_URL api now (S fuel) (World (Some s) t c) =
  (Ret tt,
   World (Some s)
     (t ++ [ELog (LogStart (now (S c)));
            EFetch url (page_request params 1);
            ELog (LogFound 0);
            ELog LogSummaryHeader]
        ++ summary_lines s
        ++ [ELog (LogCompleted 0 (now (S (S c)) - now c))])
     (S (S (S c)))).
Proof.
  intros url params Hapi.
  assert (Hrun : syncProjects GITLAB_URL api (S fuel)
                   (entered now (World (Some s) t c)) =
                 (Ret 0%nat,
                  World (Some s)
                    (t ++ [ELog (LogStart (now (S c)));
                           EFetch url (page_request params 1);
                           ELog (LogFound 0)])
                    (S (S c)))).
  { unfold syncProjects. erewrite bind_getDB by reflexivity.
    rewrite (bind_Ret _ _ _ _ _ (paginatedGet_empty api fuel url params _ Hapi)).
    rewrite bind_console_log. cbn [for_of length]. rewrite !bind_mret.
    unfold entered, emit. cbn [db trace clock_reads mret M_ret].
    now rewrite <- !app_assoc. }
  rewrite (runSync_returned GITLAB_URL api now (S fuel) _ 0%nat _ s Hrun eq_refl).
  cbn [trace clock_reads]. now rewrite <- !app_assoc.
Qed.

End NoProjects.

(** ** Further statements on the fixtures *)

(** A remote that ignores the page number and answers the same page every
    time: the paginator is still reading when the fuel runs out, having
    fetched one page per unit of fuel. *)
Lemma paginatedGet_never_returns_witness :
  let api := fun (_ : string) (_ : list (string * value)) =>
               HttpOk [Demo.project_A] in
  let url := Demo.base +:+ "/api/v4/projects" in
  let params := [("membership", VBool true)] in
  paginatedGet api 7 url params Demo.connected
  = (Diverge, fetched url params 1 7 Demo.connected)
  /\ length (page_fetches url params 1 7) = 7%nat.
Proof.
  intros api url params. split.
  - apply (paginatedGet_never_returns api url params).
    intros k _. now exists Demo.project_A, [].
  - apply length_page_fetches.
Defined.

(** A member listing whose second page fails: the record of the first page
    is not written. *)
Lemma syncer_all_or_nothing_witness :
  let url := Demo.base +:+ "/api/v4/projects/1/members/all" in
  let api := Demo.table_api
               [(url, [HttpOk [Demo.member_ana];
                       HttpError 500 "Internal Server Error"])] in
  let ran := syncMembers Demo.base api 5 (VNum 1) Demo.connected in
  ran.1 = Throw (GitLabApiError 500 "Internal Server Error" url) /\
  db ran.2 = Some ∅ /\
  exists n, trace ran.2 = page_fetches url [] 1 n.
Proof.
  intros url api ran.
  assert (Hout : ran.1 = Throw (GitLabApiError 500 "Internal Server Error" url))
    by (subst ran; vm_refl).
  split; [exact Hout|]. unfold ran, Demo.connected in Hout |- *.
  destruct (syncer_all_or_nothing Demo.base api 5 (VNum 1) ∅ [] 0%nat)
    as ((n & _ & [(records & ops & _ & _ & _ & Hrun)|[Hrun _]]) & _).
  - exfalso. rewrite Hrun in Hout. discriminate Hout.
  - rewrite Hrun. split; [reflexivity|]. now exists n.
Defined.

(** The commit listing of the first project is down during one run and
    back for the next: the first run ends [Failed], the second completes
    and leaves the store that a single run on the healthy remote leaves. *)
Lemma run_recovers_witness :
  let api := Demo.table_api (Demo.snapshot "opened") in
  let down := fun (url : string) (_ : list (string * value)) =>
                if String.eqb url (Demo.base +:+ "/api/v4/projects/1/repository/commits")
                then Some (500%Z, "Internal Server Error") else None in
  let failed := (runSync Demo.base (outage down api) Demo.clock 5 Demo.connected).2 in
  let recovered := (runSync Demo.base api Demo.clock 5 failed).2 in
  state_after (trace failed) = Failed /\
  state_after (trace recovered) = Idle /\
  db recovered = db (runSync Demo.base api Demo.clock 5 Demo.connected).2.
Proof.
  intros api down failed recovered.
  split; [subst failed; vm_refl|]. split; [subst recovered failed; vm_refl|].
  exact (proj1 (run_recovers Demo.base api down Demo.clock Demo.clock 5
                  Demo.connected)).
Defined.

(** A merge request with an author, and one whose author is gone. *)
Lemma author_defaulting_witness :
  (exists op, merge_request_op (VNum 1) (Demo.mr_7 "opened") = Ok op /\
     op_set op !! "author_username" = Some (VStr "ana") /\
     op_set op !! "author_name" = Some (VStr "Ana")) /\
  (exists op, merge_request_op (VNum 1)
                (VObj [("iid", VNum 8); ("author", VNull)]) = Ok op /\
     op_set op !! "author_username" = Some VNull /\
     op_set op !! "author_name" = Some VNull).
Proof.
  split.
  - destruct (author_defaulting (VNum 1)
      [("iid", VNum 7); ("title", VStr "Add feature");
       ("author", VObj [("username", VStr "ana"); ("name", VStr "Ana")]);
       ("state", VStr "opened"); ("created_at", VStr "2024-03-03");
       ("source_branch", VStr "feat"); ("target_branch", VStr "main")])
      as [(op & Hop & _ & Hauthor) _].
    exists op. split; [exact Hop|].
    destruct (Hauthor [("username", VStr "ana"); ("name", VStr "Ana")] eq_refl)
      as (Hu & Hn & _).
    split; [apply Hu | apply Hn]; try reflexivity; discriminate.
  - destruct (author_defaulting (VNum 1) [("iid", VNum 8); ("author", VNull)])
      as [(op & Hop & Hnone & _) _].
    exists op. split; [exact Hop|]. apply Hnone. intros a. discriminate.
Defined.

(** The first fixture project has an empty description and no default
    branch; the second has both. *)
Lemma optional_fields_null_witness :
  (exists doc, project_doc Demo.project_A = Ok doc /\
     doc !! "description" = Some VNull /\ doc !! "default_branch" = Some VNull) /\
  (exists doc, project_doc Demo.project_B = Ok doc /\
     doc !! "description" = Some (VStr "second") /\
     doc !! "default_branch" = Some (VStr "main")).
Proof.
  split.
  - destruct (optional_fields_null (VNum 1)
      [("id", VNum 1); ("name", VStr "alpha");
       ("path_with_namespace", VStr "grp/alpha");
       ("description", VStr ""); ("created_at", VStr "2024-01-01");
       ("web_url", VStr "https://gitlab.test/grp/alpha")])
      as [(doc & Hdoc & (_ & _ & Hempty & _) & (Habsent & _)) _].
    exists doc. split; [exact Hdoc|]. split; [now apply Hempty | now apply Habsent].
  - destruct (optional_fields_null (VNum 2)
      [("id", VNum 2); ("name", VStr "beta");
       ("path_with_namespace", VStr "grp/beta");
       ("description", VStr "second"); ("created_at", VStr "2024-02-01");
       ("default_branch", VStr "main");
       ("web_url", VStr "https://gitlab.test/grp/beta")])
      as [(doc & Hdoc & (_ & _ & _ & Hd) & (_ & _ & _ & Hb)) _].
    exists doc. split; [exact Hdoc|].
    split; [apply Hd | apply Hb]; try reflexivity; discriminate.
Defined.

(** The fixture issue has one assignee and no labels. *)
Lemma issue_collections_witness :
  exists op,
    issue_op (VNum 1) Demo.issue_3 = Ok op /\
    op_set op !! "assignees"
      = Some (VArr [VObj [("username", VStr "ana"); ("name", VStr "Ana")]]) /\
    op_set op !! "labels" = Some (VArr []).
Proof.
  destruct (issue_collections (VNum 1)
      [("iid", VNum 3); ("title", VStr "Bug");
       ("assignees", VArr [VObj [("username", VStr "ana"); ("name", VStr "Ana")]]);
       ("state", VStr "opened"); ("created_at", VStr "2024-03-04")])
    as (_ & Harr & _ & _ & Hlabels).
  destruct (Harr [VObj [("username", VStr "ana"); ("name", VStr "Ana")]] eq_refl)
    as (op & l' & Hop & Has & Hlen & Hat).
  { repeat constructor; discriminate. }
  exists op. split; [exact Hop|]. split.
  - rewrite Has. destruct l' as [|a [|b l']]; try discriminate Hlen.
    specialize (Hat 0%nat _ eq_refl). cbn in Hat. now injection Hat as ->.
  - apply (proj1 (Hlabels op Hop)). reflexivity.
Defined.

(** A merge-request listing with a [null] record: the mapping throws. *)
Lemma records_readable_witness :
  (exists msg, merge_request_op (VNum 1) VNull = Err (TypeError msg)) /\
  (exists op, member_op (VNum 1) Demo.member_ana = Ok op).
Proof.
  destruct (records_readable (VNum 1) VNull) as [Hnull _].
  destruct (records_readable (VNum 1) Demo.member_ana) as [_ Hok].
  split.
  - now apply Hnull; left.
  - apply Hok; discriminate.
Defined.

(** A remote with no project. *)
Lemma run_no_projects_witness :
  let api := Demo.table_api [(Demo.base +:+ "/api/v4/projects", [])] in
  let ran := runSync Demo.base api Demo.clock 1 Demo.connected in
  ran.1 = Ret tt /\ db ran.2 = Some ∅ /\ state_after (trace ran.2) = Idle.
Proof.
  intros api ran. subst ran. unfold Demo.connected.
  rewrite (run_no_projects Demo.base api Demo.clock 0 ∅ [] 0%nat)
    by (vm_compute; reflexivity).
  cbn [fst snd db trace]. split; [reflexivity|]. split; reflexivity.
Defined.

(** The fixture snapshot synced into an empty store: one member of two
    projects and two commits of one. *)
Lemma run_counts_keys_witness :
  let api := Demo.table_api (Demo.snapshot "opened") in
  let ran := runSync Demo.base api Demo.clock 5 Demo.connected in
  exists s',
    db ran.2 = Some s' /\
    countDocuments (coll s' "members") = 2%nat /\
    countDocuments (coll s' "commits") = 2%nat.
Proof.
  intros api ran.
  destruct (run_counts_keys Demo.base api Demo.clock 5 ∅ [] 0%nat
              store_unique_keys_empty) as (s' & Hdb & Hcount).
  exists s'. split; [exact Hdb|].
  split; rewrite Hcount; vm_refl.
Defined.

(** An error object sent with a success status in place of the second
    page: the paginator returns the first page as if it were the whole
    listing. *)
Lemma paginatedGet_partial_listing :
  let url := Demo.base +:+ "/api/v4/projects" in
  let params := [("membership", VBool true)] in
  Wire.paginatedGet Demo.error_body (fun _ => []) 5 url params Demo.connected
  = (Wire.Returned [Demo.project_A], fetched url params 1 2 Demo.connected).
Proof. reflexivity. Qed.
